(** * nockboxmultisig: the transaction core (src/txBuilder) in Rocq

    A shallow embedding of [tx-core.ts], [crypto.ts], [helpers.ts] and of
    the multi-note allocation of the WASM builder, with the properties
    the specification states about them.

    Conventions of the embedding.
    - A JavaScript string is a sequence of UTF-16 code units.  It is
      modelled by [string], one character per code unit, which covers
      the code units below 256 (hex, base58 and the other ASCII
      encodings the repository uses for hashes, keys and addresses).
      [<] on strings is the code-unit-wise lexicographic order in both.
    - A [number] that the code uses as a count or a version, and every
      [bigint], is a [Z].  The decimal text of a number is the one
      JavaScript prints for safe integers.
    - A thrown [Error] is a value of [Error], one constructor per
      message of the source; a function that can throw returns
      [result A].
    - An object used as a record is a [Record]; an object used as a
      dictionary ([Record<PubKey, Signature>]) is a [gmap].  Where the
      code walks over untyped values (canonical encoding, JSON) the
      value is a [jsval] tree. *)

From Stdlib Require Import ZArith Ascii String List Decimal DecimalString DecimalZ HexadecimalString Lia.
From stdpp Require Import gmap strings list fin_maps sorting.

Set Warnings "-register-all,-clear-no-such-hyp".

Local Open Scope string_scope.
Local Open Scope list_scope.
Local Open Scope stdpp_scope.
Local Open Scope Z_scope.

(** ** Errors

    The source throws [new Error(message)] everywhere; each constructor
    stands for one message and carries the values the message prints. *)
Inductive Error : Type :=
| NoteNameMismatch (expected got : string)
| NoteAmountNotPositive
| NoOutputs
| OutputAmountNotPositive
| NegativeFee
| InsufficientFunds (inputs outputsPlusFee : Z)
| PkhsNotUnique
| ThresholdNotPositive
| ThresholdExceedsPkhs
| AttachOnlyPkh
| SignerNotAllowed
| UnknownNoteId
| SignOnlyPkh
| SignerNotInLock
| SignerRejected
| SignatureVerificationFailed
| JsonSyntaxError
| MissingVersion
| MissingUnsignedHash
| MissingSpends
| MissingOutputs
| MergeHashDiffers
| MergeKindMismatch (noteId : string)
| MergeThresholdDiffers
| MergePkhsDiffer
| MergeNotBeforeDiffers
| SeedsKindDiffers
| SeedsThresholdDiffers
| SeedsPkhsDiffer
| SeedsNotBeforeDiffers
| SimpleInsufficientFunds (need have : Z)
| FeeAllocationFailed
| OutputAllocationFailed.

Inductive result (A : Type) : Type :=
| Ok (a : A)
| Err (e : Error).
Arguments Ok {A} a.
Arguments Err {A} e.

(** Sequencing of calls that can throw: [x ← r; k] runs [k] on the value
    of [r], or stops at the error of [r]. *)
#[global] Instance result_bind : MBind result := fun A B f r =>
  match r with
  | Ok a => f a
  | Err e => Err e
  end.

#[global] Instance result_ret : MRet result := fun A a => Ok a.

(** [if (cond) throw e], then the rest. *)
Definition throw_if {A} (cond : bool) (e : Error) (k : result A) : result A :=
  if cond then Err e else k.

(** [arr.map(f)] where [f] can throw: the first throw, in array order,
    ends the call. *)
Fixpoint mapM {A B} (f : A → result B) (l : list A) : result (list B) :=
  match l with
  | [] => Ok []
  | x :: l' => y ← f x; ys ← mapM f l'; Ok (y :: ys)
  end.

(** [for (const x of arr) check(x)] where [check] can throw. *)
Fixpoint forM_ {A} (check : A → result unit) (l : list A) : result unit :=
  match l with
  | [] => Ok tt
  | x :: l' => check x ;; forM_ check l'
  end.

Definition is_ok {A} (r : result A) : bool :=
  match r with Ok _ => true | Err _ => false end.

(** ** The JavaScript platform: strings, sorting, values, JSON *)

Module Js.

(** [a < b] on strings. *)
Definition str_lt (a b : string) : bool := String.ltb a b.

(** [Array.prototype.sort] with the comparator
    [(a, b) => ka < kb ? -1 : ka > kb ? 1 : 0] on a string key: a stable
    sort by key.  [insert_by] puts [x] in front of the first element
    whose key is not smaller, so equal keys keep their order. *)
Fixpoint insert_by {A} (key : A → string) (x : A) (l : list A) : list A :=
  match l with
  | [] => [x]
  | y :: l' => if str_lt (key y) (key x) then y :: insert_by key x l' else x :: l
  end.

Definition sort_by {A} (key : A → string) (l : list A) : list A :=
  foldr (insert_by key) [] l.

(** [arr.slice().sort()] on an array of strings. *)
Definition sort_strings (l : list string) : list string := sort_by id l.

(** JavaScript values, as far as the transaction core builds them. An
    object is the list of its own enumerable properties in enumeration
    order, with distinct keys. *)
Inductive jsval : Type :=
| VUndef
| VNull
| VBool (b : bool)
| VNum (n : Z)
| VBig (n : Z)
| VStr (s : string)
| VArr (elems : list jsval)
| VObj (props : list (string * jsval)).

Definition is_undef (v : jsval) : bool :=
  match v with VUndef => true | _ => false end.

(** [x ?? null] *)
Definition or_null (o : option string) : jsval :=
  match o with Some s => VStr s | None => VNull end.

(** An optional property: absent or [undefined] when [None]. *)
Definition opt_str (o : option string) : jsval :=
  match o with Some s => VStr s | None => VUndef end.

(** *** Decimal text of an integer ([Number.prototype.toString],
    [BigInt.prototype.toString]) *)
Definition dec (n : Z) : string := DecimalString.NilZero.string_of_int (Z.to_int n).

(** *** [JSON.stringify] of a string: quotes and escapes *)
Definition hex_digit (n : N) : ascii :=
  ascii_of_N (if (n <? 10)%N then 48 + n else 87 + n).

Definition backslash : ascii := ascii_of_N 92.

Definition dquote : string := String (ascii_of_N 34) "".

Definition escape_char (c : ascii) : string :=
  let n := N_of_ascii c in
  if (n =? 34)%N then String backslash dquote
  else if (n =? 92)%N then String backslash (String backslash "")
  else if (n =? 8)%N then "\b"
  else if (n =? 9)%N then "\t"
  else if (n =? 10)%N then "\n"
  else if (n =? 12)%N then "\f"
  else if (n =? 13)%N then "\r"
  else if (n <? 32)%N then
    "\u00" +:+ String (hex_digit (n / 16)) (String (hex_digit (n mod 16)) "")
  else String c "".

Fixpoint escape (s : string) : string :=
  match s with
  | "" => ""
  | String c s' => escape_char c +:+ escape s'
  end.

Definition quote (s : string) : string := dquote +:+ escape s +:+ dquote.

Fixpoint join (sep : string) (l : list string) : string :=
  match l with
  | [] => ""
  | [x] => x
  | x :: l' => x +:+ sep +:+ join sep l'
  end.

(** *** [canonicalStringify] (tx-core.ts)

    [JSON.stringify(value, (_k, v) => typeof v === "bigint" ?
    `n:${v.toString()}` : v, 0)]: a bigint becomes the string [n:<decimal>],
    a property whose value is [undefined] is left out, an [undefined]
    array element prints as [null], and no white space is inserted. *)
Fixpoint canonicalStringify (v : jsval) : string :=
  match v with
  | VUndef => "null"
  | VNull => "null"
  | VBool true => "true"
  | VBool false => "false"
  | VNum n => dec n
  | VBig n => quote ("n:" +:+ dec n)
  | VStr s => quote s
  | VArr l => "[" +:+ join "," (map canonicalStringify l) +:+ "]"
  | VObj props =>
      "{" +:+
      join "," (omap (fun kv => match kv with
                                | (k, VUndef) => None
                                | (k, x) => Some (quote k +:+ ":" +:+ canonicalStringify x)
                                end) props)
      +:+ "}"
  end.

(** *** [deepCanonicalize] (tx-core.ts)

    [walk] rebuilds every object with its keys in sorted order. The
    assignment [out[k] = ...] on the fresh object [{}] creates no
    property for the key [__proto__] (it reaches the prototype setter),
    so that key is lost.  With [sortArrays] the mapped array is sorted by
    [arraySortKey], [undefined] elements last. *)
Definition proto_key : string := "__proto__".

Definition sort_array (arraySortKey : jsval → string) (l : list jsval) : list jsval :=
  sort_by arraySortKey (filter (fun x => negb (is_undef x)) l)
  ++ filter is_undef l.

Fixpoint deepCanonicalizeWith (sortArrays : bool) (arraySortKey : jsval → string)
    (v : jsval) : jsval :=
  match v with
  | VArr l =>
      let mapped := map (deepCanonicalizeWith sortArrays arraySortKey) l in
      if sortArrays then VArr (sort_array arraySortKey mapped) else VArr mapped
  | VObj props =>
      VObj (filter (fun kv => negb (String.eqb (fst kv) proto_key))
              (sort_by fst
                 (map (fun kv => match kv with
                                 | (k, x) => (k, deepCanonicalizeWith sortArrays arraySortKey x)
                                 end) props)))
  | _ => v
  end.

(** The defaults: [sortArrays ?? false], [arraySortKey ?? canonicalStringify].
    Every call in the repository uses them. *)
Definition deepCanonicalize (v : jsval) : jsval :=
  deepCanonicalizeWith false canonicalStringify v.

(** *** [utf8ToBytes]: [new TextEncoder().encode(s)] *)
Definition utf8_char (c : ascii) : list N :=
  let n := N_of_ascii c in
  if (n <? 128)%N then [n]
  else [N.lor 192 (N.shiftr n 6); N.lor 128 (N.land n 63)].

Fixpoint utf8ToBytes (s : string) : list N :=
  match s with
  | "" => []
  | String c s' => utf8_char c ++ utf8ToBytes s'
  end.

(** *** [JSON.parse]

    The parser covers the texts [JSON.stringify] writes with indent [0]:
    no insignificant white space, integer numbers (a fraction or an
    exponent is outside the model and rejected), string escapes of code
    units below 256. *)
Definition digit_of (c : ascii) : option (uint → uint) :=
  match c with
  | "0" => Some D0 | "1" => Some D1 | "2" => Some D2 | "3" => Some D3
  | "4" => Some D4 | "5" => Some D5 | "6" => Some D6 | "7" => Some D7
  | "8" => Some D8 | "9" => Some D9 | _ => None
  end%char.

(** The longest run of decimal digits at the front of [s]. *)
Fixpoint scan_digits (s : string) : uint * string :=
  match s with
  | String c s' =>
      match digit_of c with
      | Some d => let '(u, r) := scan_digits s' in (d u, r)
      | None => (Nil, s)
      end
  | EmptyString => (Nil, EmptyString)
  end.

Definition starts_fraction (s : string) : bool :=
  match s with
  | String c _ => Ascii.eqb c "." || Ascii.eqb c "e" || Ascii.eqb c "E"
  | EmptyString => false
  end.

Definition parse_number (s : string) : option (Z * string) :=
  let '(neg, s1) :=
    match s with
    | String c s' => if Ascii.eqb c "-" then (true, s') else (false, s)
    | EmptyString => (false, s)
    end in
  let '(u, r) := scan_digits s1 in
  match u with
  | Nil => None
  | D0 (D0 _ | D1 _ | D2 _ | D3 _ | D4 _ | D5 _ | D6 _ | D7 _ | D8 _ | D9 _) => None
  | _ => if starts_fraction r then None
         else Some (Z.of_int (if neg then Neg u else Pos u), r)
  end.

Definition hex_val (c : ascii) : option N :=
  let n := N_of_ascii c in
  if (48 <=? n)%N && (n <=? 57)%N then Some (n - 48)%N
  else if (97 <=? n)%N && (n <=? 102)%N then Some (n - 87)%N
  else if (65 <=? n)%N && (n <=? 70)%N then Some (n - 55)%N
  else None.

(** The code unit of [\uXXXX], when it is below 256. *)
Definition unicode_escape (h1 h2 h3 h4 : ascii) : option ascii :=
  a ← hex_val h1; b ← hex_val h2; c ← hex_val h3; d ← hex_val h4;
  if (a =? 0)%N && (b =? 0)%N then Some (ascii_of_N (16 * c + d)) else None.

Definition simple_escape (e : ascii) : option ascii :=
  let n := N_of_ascii e in
  if (n =? 34)%N then Some e
  else if (n =? 92)%N then Some e
  else if (n =? 47)%N then Some e
  else if Ascii.eqb e "b" then Some (ascii_of_N 8)
  else if Ascii.eqb e "f" then Some (ascii_of_N 12)
  else if Ascii.eqb e "n" then Some (ascii_of_N 10)
  else if Ascii.eqb e "r" then Some (ascii_of_N 13)
  else if Ascii.eqb e "t" then Some (ascii_of_N 9)
  else None.

(** The characters of a string literal after its opening quote, and the
    text after its closing quote. *)
Fixpoint parse_string_body (s : string) : option (string * string) :=
  match s with
  | EmptyString => None
  | String c s' =>
      let n := N_of_ascii c in
      if (n =? 34)%N then Some (EmptyString, s')
      else if (n =? 92)%N then
        match s' with
        | String e s'' =>
            if Ascii.eqb e "u" then
              match s'' with
              | String h1 (String h2 (String h3 (String h4 s5))) =>
                  x ← unicode_escape h1 h2 h3 h4;
                  '(str, r) ← parse_string_body s5;
                  Some (String x str, r)
              | _ => None
              end
            else
              x ← simple_escape e;
              '(str, r) ← parse_string_body s'';
              Some (String x str, r)
        | EmptyString => None
        end
      else if (n <? 32)%N then None
      else '(str, r) ← parse_string_body s'; Some (String c str, r)
  end.

Definition has_key (k : string) (props : list (string * jsval)) : bool :=
  existsb (fun kv => String.eqb (fst kv) k) props.

(** [obj[k] = v]: the value of an existing key is replaced in place, a
    new key goes last. *)
Definition obj_set (props : list (string * jsval)) (k : string) (v : jsval)
    : list (string * jsval) :=
  if has_key k props
  then map (fun kv => if String.eqb (fst kv) k then (k, v) else kv) props
  else props ++ [(k, v)].

Definition obj_of_members (members : list (string * jsval)) : list (string * jsval) :=
  foldl (fun acc kv => obj_set acc (fst kv) (snd kv)) [] members.

Definition strip_prefix (p s : string) : option string :=
  if String.prefix p s then Some (String.substring (String.length p) (String.length s - String.length p) s)
  else None.

(** The text after one expected character. *)
Definition expect (c : ascii) (s : string) : option string :=
  match s with
  | String c' r => if Ascii.eqb c' c then Some r else None
  | EmptyString => None
  end.

Definition starts_with (c : ascii) (s : string) : bool :=
  match s with
  | String c' _ => Ascii.eqb c' c
  | EmptyString => false
  end.

Definition tail (s : string) : string :=
  match s with
  | String _ r => r
  | EmptyString => EmptyString
  end.

Fixpoint parse_value (fuel : nat) (s : string) : option (jsval * string) :=
  match fuel with
  | O => None
  | S fuel' =>
      match s with
      | EmptyString => None
      | String c s' =>
          if (N_of_ascii c =? 34)%N then
            '(str, r) ← parse_string_body s'; Some (VStr str, r)
          else if Ascii.eqb c "[" then
            if starts_with "]" s' then Some (VArr [], tail s')
            else '(l, r) ← parse_elements fuel' s'; Some (VArr l, r)
          else if Ascii.eqb c "{" then
            if starts_with "}" s' then Some (VObj [], tail s')
            else '(l, r) ← parse_members fuel' s'; Some (VObj (obj_of_members l), r)
          else if Ascii.eqb c "n" then r ← strip_prefix "ull" s'; Some (VNull, r)
          else if Ascii.eqb c "t" then r ← strip_prefix "rue" s'; Some (VBool true, r)
          else if Ascii.eqb c "f" then r ← strip_prefix "alse" s'; Some (VBool false, r)
          else '(n, r) ← parse_number s; Some (VNum n, r)
      end
  end
with parse_elements (fuel : nat) (s : string) : option (list jsval * string) :=
  match fuel with
  | O => None
  | S fuel' =>
      '(v, r) ← parse_value fuel' s;
      if starts_with "," r then
        '(vs, r') ← parse_elements fuel' (tail r); Some (v :: vs, r')
      else if starts_with "]" r then Some ([v], tail r)
      else None
  end
with parse_members (fuel : nat) (s : string) : option (list (string * jsval) * string) :=
  match fuel with
  | O => None
  | S fuel' =>
      if starts_with (ascii_of_N 34) s then
        '(k, r) ← parse_string_body (tail s);
        r1 ← expect ":" r;
        '(v, r2) ← parse_value fuel' r1;
        if starts_with "," r2 then
          '(ms, r3) ← parse_members fuel' (tail r2); Some ((k, v) :: ms, r3)
        else if starts_with "}" r2 then Some ([(k, v)], tail r2)
        else None
      else None
  end.

Definition JSON_parse (s : string) : option jsval :=
  match parse_value (2 * String.length s + 2) s with
  | Some (v, EmptyString) => Some v
  | _ => None
  end.

(** *** [BigInt(string)]

    White space at both ends is dropped; the empty text is [0n]; a
    literal is decimal with an optional sign, or unsigned with a prefix
    [0x], [0o] or [0b]; anything else throws ([None]). *)
Definition is_space (c : ascii) : bool :=
  let n := N_of_ascii c in
  ((9 <=? n)%N && (n <=? 13)%N) || (n =? 32)%N || (n =? 160)%N.

Fixpoint trim_start (s : string) : string :=
  match s with
  | String c s' => if is_space c then trim_start s' else s
  | EmptyString => EmptyString
  end.

Fixpoint trim_end (s : string) : string :=
  match s with
  | String c s' =>
      match trim_end s' with
      | EmptyString => if is_space c then EmptyString else String c EmptyString
      | t => String c t
      end
  | EmptyString => EmptyString
  end.

Definition trim (s : string) : string := trim_end (trim_start s).

Definition digit_val (radix : N) (c : ascii) : option N :=
  d ← hex_val c; if (d <? radix)%N then Some d else None.

(** A non-empty run of digits in [radix], as a number. *)
Fixpoint radix_digits (radix : N) (acc : N) (s : string) : option N :=
  match s with
  | EmptyString => Some acc
  | String c s' => d ← digit_val radix c; radix_digits radix (radix * acc + d) s'
  end.

Definition nonempty_radix (radix : N) (s : string) : option Z :=
  match s with
  | EmptyString => None
  | _ => Z.of_N <$> radix_digits radix 0 s
  end.

Definition decimal_digits (s : string) : option uint :=
  match scan_digits s with
  | (Nil, _) => None
  | (u, EmptyString) => Some u
  | _ => None
  end.

Definition BigInt (text : string) : option Z :=
  let t := trim text in
  match t with
  | EmptyString => Some 0
  | String c ds =>
      if Ascii.eqb c "-" then u ← decimal_digits ds; Some (Z.of_int (Neg u))
      else if Ascii.eqb c "+" then u ← decimal_digits ds; Some (Z.of_int (Pos u))
      else if Ascii.eqb c "0" && (starts_with "x" ds || starts_with "X" ds)
      then nonempty_radix 16 (tail ds)
      else if Ascii.eqb c "0" && (starts_with "o" ds || starts_with "O" ds)
      then nonempty_radix 8 (tail ds)
      else if Ascii.eqb c "0" && (starts_with "b" ds || starts_with "B" ds)
      then nonempty_radix 2 (tail ds)
      else u ← decimal_digits t; Some (Z.of_int (Pos u))
  end.

(** *** The reviver of [importTx]

    [(_k, v) => typeof v === "string" && v.startsWith("n:") ?
    BigInt(v.slice(2)) : v], applied by [JSON.parse] to every value,
    children first.  A throw of [BigInt] ends the parse. *)
Definition revive_string (s : string) : option jsval :=
  match strip_prefix "n:" s with
  | Some digits => VBig <$> BigInt digits
  | None => Some (VStr s)
  end.

Fixpoint mapO {A B} (f : A → option B) (l : list A) : option (list B) :=
  match l with
  | [] => Some []
  | x :: l' => y ← f x; ys ← mapO f l'; Some (y :: ys)
  end.

Fixpoint revive (v : jsval) : option jsval :=
  match v with
  | VStr s => revive_string s
  | VArr l => VArr <$> mapO revive l
  | VObj props =>
      VObj <$> mapO (fun kv => match kv with
                               | (k, x) => y ← revive x; Some (k, y)
                               end) props
  | _ => Some v
  end.

(** [JSON.parse(json, reviver)] *)
Definition JSON_parse_revive (json : string) : option jsval :=
  v ← JSON_parse json; revive v.

(** [obj?.key]: the own property of an object; [undefined] on anything
    else (none of the keys the core reads exists on a prototype). *)
Definition get_prop (v : jsval) (k : string) : jsval :=
  match v with
  | VObj props =>
      match List.find (fun kv => String.eqb (fst kv) k) props with
      | Some kv => snd kv
      | None => VUndef
      end
  | _ => VUndef
  end.

Definition is_number (v : jsval) : bool := match v with VNum _ => true | _ => false end.
Definition is_string (v : jsval) : bool := match v with VStr _ => true | _ => false end.
Definition is_array (v : jsval) : bool := match v with VArr _ => true | _ => false end.

(** *** Structural equality of values

    Two values are structurally equal when they have the same shape and
    the same leaves, whatever the order of the properties of an object;
    a property whose value is [undefined] counts as absent.
    [normalize] is the normal form: properties sorted by key, undefined
    ones dropped. *)
Fixpoint normalize (v : jsval) : jsval :=
  match v with
  | VArr l => VArr (map normalize l)
  | VObj props =>
      VObj (sort_by fst
              (omap (fun kv => match kv with
                               | (k, VUndef) => None
                               | (k, x) => Some (k, normalize x)
                               end) props))
  | _ => v
  end.

Definition StructEq (a b : jsval) : Prop := normalize a = normalize b.

End Js.

(** ** tx-core.ts: the data model *)

Module TxCore.
Import Js.

(** [Hex], [Hash], [PubKey], [Address] and [Signature] are [string] in
    the source. *)
Abbreviation Hex := string (only parsing).
Abbreviation Hash := string (only parsing).
Abbreviation PubKey := string (only parsing).
Abbreviation Address := string (only parsing).
Abbreviation Signature := string (only parsing).

(** [Uint8Array] *)
Abbreviation Bytes := (list N) (only parsing).

Definition NoteName : Type := string * string.

Inductive Lock : Type :=
| LockPkh (threshold : Z) (pkhs : list Hash)
| LockHax (hash : Hash)
| LockTim (notBefore : Z) (inner : Lock)
| LockBrn.

Record Note := mkNote {
  name : NoteName;
  note_assetId : option string;
  note_amount : Z;
  lock : Lock
}.

Definition noteIdFromName (n : NoteName) : string := fst n +:+ "." +:+ snd n.

Record Output := mkOutput {
  address : Address;
  amount : Z;
  assetId : option string
}.

Record PkhSeeds := mkPkhSeeds {
  threshold : Z;
  pkhs : list Hash;
  signatures : gmap PubKey Signature
}.

Inductive Seeds : Type :=
| SeedsPkh (p : PkhSeeds)
| SeedsHax (preimage : option Hex)
| SeedsTim (notBefore : Z) (inner : Seeds)
| SeedsBrn.

Inductive Kind := KPkh | KHax | KTim | KBrn.

Definition kind (s : Seeds) : Kind :=
  match s with
  | SeedsPkh _ => KPkh
  | SeedsHax _ => KHax
  | SeedsTim _ _ => KTim
  | SeedsBrn => KBrn
  end.

Definition kind_eqb (a b : Kind) : bool :=
  match a, b with
  | KPkh, KPkh | KHax, KHax | KTim, KTim | KBrn, KBrn => true
  | _, _ => false
  end.

Record Spend := mkSpend {
  noteId : string;
  seeds : Seeds
}.

(** [Omit<Transaction, "unsignedHash">] *)
Record UnsignedTx := mkUnsigned {
  u_version : Z;
  u_network : option string;
  u_spends : list Spend;
  u_outputs : list Output;
  u_fee : Z
}.

Record Transaction := mkTx {
  version : Z;
  network : option string;
  spends : list Spend;
  outputs : list Output;
  fee : Z;
  unsignedHash : Hash
}.

(** A [Transaction] passed where [Omit<Transaction, "unsignedHash">] is
    expected, and the literal [{version: tx.version, ..., fee: tx.fee}]. *)
Definition unsigned_of (tx : Transaction) : UnsignedTx :=
  mkUnsigned (version tx) (network tx) (spends tx) (outputs tx) (fee tx).

Record CryptoProvider := mkCrypto {
  hash : Bytes → Hash;
  hashPubkey : PubKey → Hash;
  verify : PubKey → Bytes → Signature → bool
}.

(** [sign] stands for the settled promise: a signature, or a rejection. *)
Record Signer := mkSigner {
  pubkey : PubKey;
  sign : Bytes → result Signature
}.

(** [arr.includes(x)] on an array of strings. *)
Definition includes (l : list string) (x : string) : bool := bool_decide (x ∈ l).

(** *** Lock canonical encoding and hashing *)

Fixpoint canonicalizeLock (l : Lock) : jsval :=
  match l with
  | LockPkh t ps =>
      deepCanonicalize
        (VObj [("kind", VStr "%pkh"); ("threshold", VNum t);
               ("pkhs", VArr (map VStr (sort_strings ps)))])
  | LockHax h =>
      deepCanonicalize (VObj [("kind", VStr "%hax"); ("hash", VStr h)])
  | LockTim nb inner =>
      deepCanonicalize
        (VObj [("kind", VStr "%tim"); ("notBefore", VNum nb);
               ("inner", canonicalizeLock inner)])
  | LockBrn => VObj [("kind", VStr "%brn")]
  end.

Definition encodeLock (l : Lock) : Bytes :=
  utf8ToBytes (canonicalStringify (canonicalizeLock l)).

Definition lockHash (l : Lock) (crypto : CryptoProvider) : Hash :=
  hash crypto (encodeLock l).

Definition buildNoteName (l : Lock) (sourceDerivation : string)
    (crypto : CryptoProvider) : NoteName :=
  (lockHash l crypto, sourceDerivation).

Definition assertNoteNameMatchesLock (n : Note) (crypto : CryptoProvider) : result unit :=
  let expected := lockHash (lock n) crypto in
  throw_if (negb (String.eqb (fst (name n)) expected))
    (NoteNameMismatch expected (fst (name n)))
    (Ok tt).

Definition validateNotes (notes : list Note) (crypto : CryptoProvider) : result unit :=
  forM_ (fun n =>
           assertNoteNameMatchesLock n crypto ;;
           throw_if (note_amount n <=? 0) NoteAmountNotPositive (Ok tt))
        notes.

(** *** Unsigned payload encoding (what signers sign) *)

Definition sigEntries (sigs : gmap PubKey Signature) : list jsval :=
  map (fun e => VObj [("pubkey", VStr (fst e)); ("signature", VStr (snd e))])
      (sort_by fst (map_to_list sigs)).

Fixpoint canonicalizeSeeds (s : Seeds) : jsval :=
  match s with
  | SeedsPkh p =>
      deepCanonicalize
        (VObj [("kind", VStr "%pkh"); ("threshold", VNum (threshold p));
               ("pkhs", VArr (map VStr (sort_strings (pkhs p))));
               ("sigEntries", VArr (sigEntries (signatures p)))])
  | SeedsHax pre =>
      deepCanonicalize (VObj [("kind", VStr "%hax"); ("preimage", or_null pre)])
  | SeedsTim nb inner =>
      deepCanonicalize
        (VObj [("kind", VStr "%tim"); ("notBefore", VNum nb);
               ("inner", canonicalizeSeeds inner)])
  | SeedsBrn => VObj [("kind", VStr "%brn")]
  end.

Definition output_sort_key (o : Output) : string :=
  default "" (assetId o) +:+ "|" +:+ address o +:+ "|" +:+ dec (amount o).

Definition encodeUnsignedPayload (tx : UnsignedTx) : Bytes :=
  let canonical :=
    deepCanonicalize
      (VObj [("version", VNum (u_version tx));
             ("network", or_null (u_network tx));
             ("fee", VBig (u_fee tx));
             ("spends",
               VArr (map (fun s => VObj [("noteId", VStr (noteId s));
                                         ("seeds", canonicalizeSeeds (seeds s))])
                         (sort_by noteId (u_spends tx))));
             ("outputs",
               VArr (map (fun o => VObj [("address", VStr (address o));
                                         ("amount", VBig (amount o));
                                         ("assetId", or_null (assetId o))])
                         (sort_by output_sort_key (u_outputs tx))))]) in
  utf8ToBytes (canonicalStringify canonical).

(** *** Locks to seeds, notes to spends *)

Definition assertValidPkhLock (t : Z) (ps : list Hash) : result unit :=
  throw_if (negb (length (remove_dups ps) =? length ps)%nat) PkhsNotUnique
  (throw_if (t <=? 0) ThresholdNotPositive
  (throw_if (t >? Z.of_nat (length ps)) ThresholdExceedsPkhs
  (Ok tt))).

Fixpoint seedsFromLock (l : Lock) : result Seeds :=
  match l with
  | LockPkh t ps =>
      assertValidPkhLock t ps ;;
      Ok (SeedsPkh (mkPkhSeeds t (sort_strings ps) ∅))
  | LockHax _ => Ok (SeedsHax None)
  | LockTim nb inner => i ← seedsFromLock inner; Ok (SeedsTim nb i)
  | LockBrn => Ok SeedsBrn
  end.

Definition spendOfNote (n : Note) : result Spend :=
  s ← seedsFromLock (lock n); Ok (mkSpend (noteIdFromName (name n)) s).

Definition buildSpends (notes : list Note) : result (list Spend) :=
  let sorted := sort_by (fun n => noteIdFromName (name n)) notes in
  mapM spendOfNote sorted.

Definition sumInputs (notes : list Note) : Z :=
  foldl (fun acc n => acc + note_amount n) 0 notes.

Definition sumOutputs (outs : list Output) : Z :=
  foldl (fun acc o => acc + amount o) 0 outs.

(** *** Build unsigned transaction *)

Record BuildArgs := mkBuildArgs {
  a_version : option Z;
  a_network : option string;
  a_notes : list Note;
  a_outputs : list Output;
  a_fee : Z;
  a_change : option Output;
  a_crypto : CryptoProvider
}.

Definition buildUnsignedTransaction (args : BuildArgs) : result Transaction :=
  let version := default 1 (a_version args) in
  validateNotes (a_notes args) (a_crypto args) ;;
  let outputs :=
    match a_change args with
    | Some c => a_outputs args ++ [c]
    | None => a_outputs args
    end in
  throw_if (length outputs =? 0)%nat NoOutputs (
  forM_ (fun o => throw_if (amount o <=? 0) OutputAmountNotPositive (Ok tt)) outputs ;;
  throw_if (a_fee args <? 0) NegativeFee (
  let inputTotal := sumInputs (a_notes args) in
  let outputTotal := sumOutputs outputs in
  throw_if (inputTotal <? outputTotal + a_fee args)
    (InsufficientFunds inputTotal (outputTotal + a_fee args)) (
  spends ← buildSpends (a_notes args);
  let base := mkUnsigned version (a_network args) spends outputs (a_fee args) in
  let bytes := encodeUnsignedPayload base in
  let unsignedHash := hash (a_crypto args) bytes in
  Ok (mkTx version (a_network args) spends outputs (a_fee args) unsignedHash)))).

(** *** %pkh signing, verification, collection *)

Definition pkhIsAllowed (crypto : CryptoProvider) (pubkey : PubKey) (pkhs : list Hash) : bool :=
  let pkh := hashPubkey crypto pubkey in
  includes pkhs pkh || includes pkhs pubkey.

(** One turn of the loop of [countCollectedPkh]; the state is
    [(seenPkhs, count)]. *)
Definition countStep (crypto : CryptoProvider) (pkhs : list Hash)
    (st : gset Hash * Z) (pubkey : PubKey) : gset Hash * Z :=
  let pkh := hashPubkey crypto pubkey in
  if negb (includes pkhs pkh) && negb (includes pkhs pubkey) then st
  else if bool_decide (pkh ∈ fst st) then st
  else ({[pkh]} ∪ fst st, snd st + 1).

(** [Object.keys(seeds.signatures)] *)
Definition signers (p : PkhSeeds) : list PubKey := map fst (map_to_list (signatures p)).

Definition countCollectedPkh (p : PkhSeeds) (crypto : CryptoProvider) : Z :=
  snd (foldl (countStep crypto (pkhs p)) (∅, 0) (signers p)).

Definition isPkhComplete (p : PkhSeeds) (crypto : CryptoProvider) : bool :=
  countCollectedPkh p crypto >=? threshold p.

(** The callback of [tx.spends.map] in [attachSignatureToSpend]. *)
Definition attachToSpend (crypto : CryptoProvider) (noteId' : string)
    (pubkey : PubKey) (signature : Signature) (s : Spend) : result Spend :=
  if negb (String.eqb (noteId s) noteId') then Ok s
  else match seeds s with
       | SeedsPkh p =>
           throw_if (negb (pkhIsAllowed crypto pubkey (pkhs p))) SignerNotAllowed
             (Ok (mkSpend (noteId s)
                    (SeedsPkh (mkPkhSeeds (threshold p) (pkhs p)
                                 (<[pubkey := signature]> (signatures p))))))
       | _ => Err AttachOnlyPkh
       end.

Definition attachSignatureToSpend (tx : Transaction) (noteId' : string)
    (pubkey : PubKey) (signature : Signature) (crypto : CryptoProvider)
    : result Transaction :=
  spends' ← mapM (attachToSpend crypto noteId' pubkey signature) (spends tx);
  Ok (mkTx (version tx) (network tx) spends' (outputs tx) (fee tx) (unsignedHash tx)).

Definition verifySignatureOnTx (tx : Transaction) (pubkey : PubKey)
    (signature : Signature) (crypto : CryptoProvider) : bool :=
  let bytes := encodeUnsignedPayload (unsigned_of tx) in
  verify crypto pubkey bytes signature.

(** [arr.find(pred)] *)
Definition find_spend (noteId' : string) (l : list Spend) : option Spend :=
  List.find (fun s => String.eqb (noteId s) noteId') l.

Definition signSpend (tx : Transaction) (noteId' : string) (signer : Signer)
    (crypto : CryptoProvider) : result Transaction :=
  match find_spend noteId' (spends tx) with
  | None => Err UnknownNoteId
  | Some target =>
      match seeds target with
      | SeedsPkh p =>
          throw_if (negb (pkhIsAllowed crypto (pubkey signer) (pkhs p))) SignerNotInLock (
          let bytes := encodeUnsignedPayload (unsigned_of tx) in
          sig ← sign signer bytes;
          throw_if (negb (verify crypto (pubkey signer) bytes sig))
            SignatureVerificationFailed
            (attachSignatureToSpend tx noteId' (pubkey signer) sig crypto))
      | _ => Err SignOnlyPkh
      end
  end.

(** *** Seed satisfaction and fully signed

    [clock] is [Math.floor(Date.now() / 1000)], read when [now] is absent. *)
Fixpoint isSeedsSatisfied (clock : Z) (s : Seeds) (crypto : CryptoProvider)
    (now : option Z) : bool :=
  match s with
  | SeedsPkh p => isPkhComplete p crypto
  | SeedsHax pre => match pre with Some h => negb (String.eqb h "") | None => false end
  | SeedsTim nb inner =>
      let t := default clock now in
      if t <? nb then false else isSeedsSatisfied clock inner crypto now
  | SeedsBrn => false
  end.

Definition isTransactionFullySigned (clock : Z) (tx : Transaction)
    (crypto : CryptoProvider) (now : option Z) : bool :=
  forallb (fun s => isSeedsSatisfied clock (seeds s) crypto now) (spends tx).

(** *** Merge partially signed transactions *)

(** [canonicalStringify(A.pkhs.slice().sort()) !== canonicalStringify(B.pkhs.slice().sort())] *)
Definition pkhs_differ (a b : list Hash) : bool :=
  negb (String.eqb (canonicalStringify (VArr (map VStr (sort_strings a))))
                   (canonicalStringify (VArr (map VStr (sort_strings b))))).

(** [{ ...A.signatures, ...B.signatures }]: the keys of both, the value
    of [B] where both have the key. *)
Definition spread_signatures (A B : gmap PubKey Signature) : gmap PubKey Signature :=
  B ∪ A.

(** [x ?? y] *)
Definition nullish {A} (x y : option A) : option A :=
  match x with Some _ => x | None => y end.

Definition preimage_of (s : Seeds) : option Hex :=
  match s with SeedsHax pre => pre | _ => None end.

Fixpoint mergeSeeds (a b : Seeds) : result Seeds :=
  if negb (kind_eqb (kind a) (kind b)) then Err SeedsKindDiffers
  else match a, b with
       | SeedsPkh A, SeedsPkh B =>
           throw_if (negb (threshold A =? threshold B)) SeedsThresholdDiffers
          (throw_if (pkhs_differ (pkhs A) (pkhs B)) SeedsPkhsDiffer
          (Ok (SeedsPkh (mkPkhSeeds (threshold A) (pkhs A)
                           (spread_signatures (signatures A) (signatures B))))))
       | SeedsHax pa, SeedsHax pb => Ok (SeedsHax (nullish pa pb))
       | SeedsTim na ia, SeedsTim nb ib =>
           throw_if (negb (na =? nb)) SeedsNotBeforeDiffers
             (i ← mergeSeeds ia ib; Ok (SeedsTim na i))
       | SeedsBrn, SeedsBrn => Ok SeedsBrn
       | _, _ => Err SeedsKindDiffers
       end.

(** [new Map(b.spends.map((s) => [s.noteId, s]))]: a later entry with the
    same key replaces the earlier one. *)
Definition bByNote (bspends : list Spend) : gmap string Spend :=
  foldl (fun m s => <[noteId s := s]> m) ∅ bspends.

(** The callback of [a.spends.map] in [mergePartiallySignedTx]. *)
Definition mergeSpend (byNote : gmap string Spend) (sa : Spend) : result Spend :=
  match byNote !! noteId sa with
  | None => Ok sa
  | Some sb =>
      if negb (kind_eqb (kind (seeds sa)) (kind (seeds sb)))
      then Err (MergeKindMismatch (noteId sa))
      else match seeds sa, seeds sb with
           | SeedsPkh A, SeedsPkh B =>
               throw_if (negb (threshold A =? threshold B)) MergeThresholdDiffers
              (throw_if (pkhs_differ (pkhs A) (pkhs B)) MergePkhsDiffer
              (Ok (mkSpend (noteId sa)
                     (SeedsPkh (mkPkhSeeds (threshold A) (pkhs A)
                                  (spread_signatures (signatures A) (signatures B)))))))
           | SeedsHax pa, sb' =>
               Ok (mkSpend (noteId sa) (SeedsHax (nullish pa (preimage_of sb'))))
           | SeedsTim na ia, SeedsTim nb ib =>
               throw_if (negb (na =? nb)) MergeNotBeforeDiffers
                 (i ← mergeSeeds ia ib; Ok (mkSpend (noteId sa) (SeedsTim na i)))
           | SeedsBrn, _ => Ok sa
           | _, _ => Err (MergeKindMismatch (noteId sa))
           end
  end.

Definition mergePartiallySignedTx (a b : Transaction) : result Transaction :=
  throw_if (negb (String.eqb (unsignedHash a) (unsignedHash b))) MergeHashDiffers (
  let byNote := bByNote (spends b) in
  spends' ← mapM (mergeSpend byNote) (spends a);
  Ok (mkTx (version a) (network a) spends' (outputs a) (fee a) (unsignedHash a))).

(** *** Export and import

    A typed value seen as the JavaScript object it is. The property
    order of the [signatures] dictionary is the insertion order, which
    the typed view does not keep; every use below sorts the keys. *)
Definition js_of_signatures (sigs : gmap PubKey Signature) : jsval :=
  VObj (map (fun e => (fst e, VStr (snd e))) (map_to_list sigs)).

Fixpoint js_of_seeds (s : Seeds) : jsval :=
  match s with
  | SeedsPkh p =>
      VObj [("kind", VStr "%pkh"); ("threshold", VNum (threshold p));
            ("pkhs", VArr (map VStr (pkhs p)));
            ("signatures", js_of_signatures (signatures p))]
  | SeedsHax pre => VObj [("kind", VStr "%hax"); ("preimage", opt_str pre)]
  | SeedsTim nb inner =>
      VObj [("kind", VStr "%tim"); ("notBefore", VNum nb); ("inner", js_of_seeds inner)]
  | SeedsBrn => VObj [("kind", VStr "%brn")]
  end.

Definition js_of_spend (s : Spend) : jsval :=
  VObj [("noteId", VStr (noteId s)); ("seeds", js_of_seeds (seeds s))].

Definition js_of_output (o : Output) : jsval :=
  VObj [("address", VStr (address o)); ("amount", VBig (amount o));
        ("assetId", opt_str (assetId o))].

Definition js_of_tx (tx : Transaction) : jsval :=
  VObj [("version", VNum (version tx));
        ("network", opt_str (network tx));
        ("spends", VArr (map js_of_spend (spends tx)));
        ("outputs", VArr (map js_of_output (outputs tx)));
        ("fee", VBig (fee tx));
        ("unsignedHash", VStr (unsignedHash tx))].

Definition exportTx (tx : Transaction) : string :=
  canonicalStringify (deepCanonicalize (js_of_tx tx)).

(** [importTx] returns the parsed object under the unchecked cast
    [parsed as Transaction]. *)
Definition importTx (json : string) : result jsval :=
  match JSON_parse_revive json with
  | None => Err JsonSyntaxError
  | Some parsed =>
      throw_if (negb (is_number (get_prop parsed "version"))) MissingVersion
     (throw_if (negb (is_string (get_prop parsed "unsignedHash"))) MissingUnsignedHash
     (throw_if (negb (is_array (get_prop parsed "spends"))) MissingSpends
     (throw_if (negb (is_array (get_prop parsed "outputs"))) MissingOutputs
     (Ok parsed))))
  end.

End TxCore.

(** ** crypto.ts: the FNV-1a test provider *)

Module Crypto.
Import Js TxCore.

Definition fnv1a64 (bytes : Bytes) : Z :=
  foldl (fun hash b => Z.land (Z.lxor hash (Z.of_N b) * 0x100000001b3) 0xffffffffffffffff)
        0xcbf29ce484222325 bytes.

(** [h.toString(16)] of a non-negative bigint *)
Definition toString16 (h : Z) : string :=
  HexadecimalString.NilZero.string_of_uint (N.to_hex_uint (Z.to_N h)).

(** [s.padStart(n, "0")] *)
Definition padStart0 (n : nat) (s : string) : string :=
  String.concat "" (replicate (n - String.length s) "0") +:+ s.

Definition fnv1aHash (data : Bytes) : Hash := padStart0 16 (toString16 (fnv1a64 data)).

Definition mockSignature (pubkey : PubKey) (message : Bytes) : Signature :=
  "mock-sig:" +:+ pubkey +:+ ":" +:+ fnv1aHash message.

Definition MockCryptoProvider : CryptoProvider :=
  {| hash := fnv1aHash;
     hashPubkey := fun pubkey => fnv1aHash (utf8ToBytes pubkey);
     verify := fun pubkey message sig => String.eqb sig (mockSignature pubkey message) |}.

Definition createMockSigner (pubkey : PubKey) : Signer :=
  {| TxCore.pubkey := pubkey;
     sign := fun message => Ok (mockSignature pubkey message) |}.

End Crypto.

(** ** helpers.ts *)

Module Helpers.
Import Js TxCore.

Definition createSingleSigLock (pkh : Hash) : Lock := LockPkh 1 [pkh].

Definition createMultisigLock (threshold : Z) (pkhs : list Hash) : result Lock :=
  throw_if (threshold <=? 0) ThresholdNotPositive
  (throw_if (threshold >? Z.of_nat (length pkhs)) ThresholdExceedsPkhs
  (throw_if (negb (length (remove_dups pkhs) =? length pkhs)%nat) PkhsNotUnique
  (Ok (LockPkh threshold (sort_strings pkhs))))).

Definition createNote (lock : Lock) (amount : Z) (sourceDerivation : string)
    (assetId : option string) (crypto : CryptoProvider) : Note :=
  mkNote (buildNoteName lock sourceDerivation crypto) assetId amount lock.

Record Recipient := mkRecipient {
  r_address : string;
  r_amount : Z
}.

Record SimpleTxParams := mkSimple {
  inputs : list Note;
  recipients : list Recipient;
  p_fee : Z;
  changeAddress : option string;
  p_crypto : CryptoProvider
}.

(** The truth value of an optional string: absent and the empty string
    are false. *)
Definition truthy (o : option string) : bool :=
  match o with Some s => negb (String.eqb s "") | None => false end.

Definition recipientOutputs (rs : list Recipient) : list Output :=
  map (fun r => mkOutput (r_address r) (r_amount r) None) rs.

Definition changeOf (p : SimpleTxParams) : Z :=
  foldl (fun acc n => acc + note_amount n) 0 (inputs p)
  - foldl (fun acc r => acc + r_amount r) 0 (recipients p)
  - p_fee p.

Definition buildSimpleTransaction (p : SimpleTxParams) : result Transaction :=
  let totalIn := foldl (fun acc n => acc + note_amount n) 0 (inputs p) in
  let totalOut := foldl (fun acc r => acc + r_amount r) 0 (recipients p) in
  let changeAmount := totalIn - totalOut - p_fee p in
  throw_if (changeAmount <? 0) (SimpleInsufficientFunds (totalOut + p_fee p) totalIn) (
  let outputs := recipientOutputs (recipients p) in
  let change :=
    if (0 <? changeAmount) && truthy (changeAddress p)
    then Some (mkOutput (default "" (changeAddress p)) changeAmount None)
    else None in
  buildUnsignedTransaction
    (mkBuildArgs None None (inputs p) outputs (p_fee p) change (p_crypto p))).

End Helpers.

(** ** The WASM builder: allocation of fee and outputs across notes

    [distributeFeeAcrossSpends] and [distributeAmountsAcrossSpends]
    update the [fee] and the [seeds] of the spends in place; here they
    return the updated array. *)

Module WasmBuilder.

Record Seed := mkSeed {
  lockId : string;
  amount : Z
}.

Record PendingAmount := mkPending {
  p_lockId : string;
  p_amount : Z
}.

(** A spend of the builder; [assets] is [spend.input.note.assets]. *)
Record Spend := mkSpend {
  inputId : string;
  assets : Z;
  fee : Z;
  seeds : list Seed
}.

Definition getSpendUsed (spend : Spend) : Z :=
  let seedTotal := foldl (fun sum seed => sum + amount seed) 0 (seeds spend) in
  fee spend + seedTotal.

(** The [for] loop of [distributeFeeAcrossSpends]: the spends after it
    and what remains of the fee. *)
Fixpoint feeLoop (spends : list Spend) (remaining : Z) : list Spend * Z :=
  match spends with
  | [] => ([], remaining)
  | spend :: rest =>
      if remaining <=? 0 then (spends, remaining)
      else
        let capacity := assets spend - getSpendUsed spend in
        if capacity <=? 0 then
          let '(rest', r) := feeLoop rest remaining in (spend :: rest', r)
        else
          let feeShare := if remaining <=? capacity then remaining else capacity in
          let '(rest', r) := feeLoop rest (remaining - feeShare) in
          (mkSpend (inputId spend) (assets spend) (fee spend + feeShare) (seeds spend)
             :: rest', r)
  end.

Definition distributeFeeAcrossSpends (spends : list Spend) (totalFee : Z)
    : result (list Spend) :=
  if totalFee <=? 0 then Ok spends
  else
    let '(spends', remaining) := feeLoop spends totalFee in
    throw_if (0 <? remaining) FeeAllocationFailed (Ok spends').

(** The [while] loop of [distributeAmountsAcrossSpends] for one spend:
    the seeds pushed and the queue left.  When the target stays at the
    front of the queue the allocation was the whole capacity, the
    capacity is [0] and the loop ends. *)
Fixpoint fill (capacity : Z) (queue : list PendingAmount)
    : list Seed * list PendingAmount :=
  match queue with
  | [] => ([], [])
  | target :: q =>
      if 0 <? capacity then
        let allocation := if p_amount target <=? capacity then p_amount target else capacity in
        let seed := mkSeed (p_lockId target) allocation in
        let target' := mkPending (p_lockId target) (p_amount target - allocation) in
        let capacity' := capacity - allocation in
        if p_amount target' <=? 0 then
          let '(pushed, q') := fill capacity' q in (seed :: pushed, q')
        else ([seed], target' :: q)
      else ([], queue)
  end.

(** The [for] loop of [distributeAmountsAcrossSpends]. *)
Fixpoint amountsLoop (spends : list Spend) (queue : list PendingAmount)
    : list Spend * list PendingAmount :=
  match spends with
  | [] => ([], queue)
  | spend :: rest =>
      if (length queue =? 0)%nat then (spends, queue)
      else
        let capacity := assets spend - getSpendUsed spend in
        if capacity <=? 0 then
          let '(rest', q) := amountsLoop rest queue in (spend :: rest', q)
        else
          let '(pushed, q1) := fill capacity queue in
          let '(rest', q2) := amountsLoop rest q1 in
          (mkSpend (inputId spend) (assets spend) (fee spend) (seeds spend ++ pushed)
             :: rest', q2)
  end.

Definition distributeAmountsAcrossSpends (spends : list Spend)
    (amounts : list PendingAmount) : result (list Spend) :=
  let queue := filter (fun item => 0 < p_amount item) amounts in
  let '(spends', queue') := amountsLoop spends queue in
  throw_if (existsb (fun item => 0 <? p_amount item) queue') OutputAllocationFailed
    (Ok spends').

End WasmBuilder.

(** ** Facts about sequencing, sorting and strings *)

Module Basics.
Import Js.

(** [a <= b] on the keys: [b < a] is false. *)
Definition key_le {A} (key : A → string) (a b : A) : Prop :=
  str_lt (key b) (key a) = false.

Lemma bind_Ok {A B} (r : result A) (f : A → result B) (b : B) :
  r ≫= f = Ok b → ∃ a, r = Ok a ∧ f a = Ok b.
Proof. destruct r as [a|e]; simpl; [eauto | discriminate]. Qed.

Lemma throw_if_Ok {A} (c : bool) (e : Error) (k : result A) (a : A) :
  throw_if c e k = Ok a → c = false ∧ k = Ok a.
Proof. destruct c; simpl; [discriminate | auto]. Qed.

Lemma mapM_Ok_Forall2 {A B} (f : A → result B) (l : list A) (l' : list B) :
  mapM f l = Ok l' ↔ Forall2 (fun x y => f x = Ok y) l l'.
Proof.
  revert l'; induction l as [|x l IH]; intros l'; simpl.
  - split; [intros [= <-]; constructor | intros H; inversion H; reflexivity].
  - split.
    + intros H. apply bind_Ok in H as (y & Hy & H).
      apply bind_Ok in H as (ys & Hys & [= <-]).
      constructor; [assumption | by apply IH].
    + intros H. inversion H as [|? y ? ys Hy Hys]; subst.
      rewrite Hy; simpl. apply IH in Hys. rewrite Hys. reflexivity.
Qed.

Lemma mapM_Err_exists {A B} (f : A → result B) (l : list A) (e : Error) :
  mapM f l = Err e → ∃ x, x ∈ l ∧ f x = Err e.
Proof.
  induction l as [|x l IH]; simpl; [discriminate |].
  destruct (f x) as [y|e'] eqn:Hx; simpl.
  - destruct (mapM f l) as [ys|e'']; simpl; [discriminate |].
    intros [= <-]. destruct IH as (x' & Hin & Hx'); [reflexivity |].
    exists x'; split; [by right | assumption].
  - intros [= <-]. exists x; split; [by left | assumption].
Qed.

Lemma mapM_all_Ok {A B} (f : A → result B) (l : list A) :
  (∀ x, x ∈ l → is_ok (f x) = true) → is_ok (mapM f l) = true.
Proof.
  induction l as [|x l IH]; intros H; simpl; [reflexivity |].
  pose proof (H x ltac:(by left)) as Hx.
  destruct (f x); [simpl | discriminate].
  destruct (mapM f l) eqn:E; [reflexivity |].
  exfalso. assert (is_ok (@Err (list B) e) = true) as Hbad; [| discriminate].
  apply IH. intros y Hy. apply H. by right.
Qed.

Lemma forM__Ok {A} (check : A → result unit) (l : list A) :
  forM_ check l = Ok tt ↔ ∀ x, x ∈ l → check x = Ok tt.
Proof.
  induction l as [|x l IH]; simpl.
  - split; [intros _ x Hx; inversion Hx | reflexivity].
  - split.
    + intros H. apply bind_Ok in H as ([] & Hx & H).
      intros y Hy. inversion Hy; subst; [assumption | by apply IH].
    + intros H. rewrite (H x); [simpl | by left].
      apply IH. intros y Hy. apply H. by right.
Qed.

(** *** The order on strings *)

Lemma str_lt_irrefl (a : string) : str_lt a a = false.
Proof.
  unfold str_lt, String.ltb.
  destruct (String.compare a a) eqn:E; try reflexivity.
  pose proof (String.compare_antisym a a) as H. rewrite E in H. discriminate.
Qed.

Lemma str_lt_asym (a b : string) : str_lt a b = true → str_lt b a = false.
Proof.
  unfold str_lt, String.ltb. rewrite (String.compare_antisym a b).
  destruct (String.compare b a); simpl; congruence.
Qed.

Lemma str_lt_total (a b : string) :
  str_lt a b = false → str_lt b a = false → a = b.
Proof.
  unfold str_lt, String.ltb. rewrite (String.compare_antisym a b).
  destruct (String.compare b a) eqn:E; simpl; try discriminate.
  intros _ _. symmetry. by apply String.compare_eq_iff.
Qed.

(** *** The stable sort *)

Lemma insert_by_perm {A} (key : A → string) (x : A) (l : list A) :
  insert_by key x l ≡ₚ x :: l.
Proof.
  induction l as [|y l IH]; simpl; [reflexivity |].
  destruct (str_lt (key y) (key x)); [| reflexivity].
  rewrite IH. apply Permutation_swap.
Qed.

Lemma sort_by_perm {A} (key : A → string) (l : list A) : sort_by key l ≡ₚ l.
Proof.
  induction l as [|x l IH]; simpl; [reflexivity |].
  unfold sort_by in *; simpl. rewrite insert_by_perm. by rewrite IH.
Qed.

Lemma sort_by_length {A} (key : A → string) (l : list A) :
  length (sort_by key l) = length l.
Proof. apply Permutation_length, sort_by_perm. Qed.

Lemma insert_by_sorted {A} (key : A → string) (x : A) (l : list A) :
  Sorted (key_le key) l → Sorted (key_le key) (insert_by key x l).
Proof.
  induction l as [|y l IH]; intros Hs; simpl.
  - repeat constructor.
  - destruct (str_lt (key y) (key x)) eqn:E.
    + apply Sorted_inv in Hs as [Hs Hhd]. constructor; [by apply IH |].
      destruct l as [|z l]; simpl.
      * constructor. by apply str_lt_asym.
      * destruct (str_lt (key z) (key x)) eqn:E'.
        -- constructor. by inversion Hhd.
        -- constructor. by apply str_lt_asym.
    + constructor; [assumption | by constructor].
Qed.

Lemma sort_by_sorted {A} (key : A → string) (l : list A) :
  Sorted (key_le key) (sort_by key l).
Proof.
  induction l as [|x l IH]; [constructor |].
  unfold sort_by in *; simpl. by apply insert_by_sorted.
Qed.

(** Sorting a sorted array leaves it as it is. *)
Lemma sort_by_of_sorted {A} (key : A → string) (l : list A) :
  Sorted (key_le key) l → sort_by key l = l.
Proof.
  induction l as [|x l IH]; intros Hs; [reflexivity |].
  apply Sorted_inv in Hs as [Hs Hhd].
  unfold sort_by in *; simpl. rewrite (IH Hs).
  destruct l as [|y l]; [reflexivity |]. simpl.
  inversion Hhd as [|? ? Hle]; subst. unfold key_le in Hle. by rewrite Hle.
Qed.

Lemma sort_by_idem {A} (key : A → string) (l : list A) :
  sort_by key (sort_by key l) = sort_by key l.
Proof. apply sort_by_of_sorted, sort_by_sorted. Qed.

End Basics.

(** ** Building an unsigned transaction *)

Module BuildSpec.
Import Js TxCore Crypto Basics.

(** The locks from which [seedsFromLock] builds seeds: what
    [assertValidPkhLock] accepts, at every level of a time lock. *)
Fixpoint validLock (l : Lock) : bool :=
  match l with
  | LockPkh t ps =>
      (length (remove_dups ps) =? length ps)%nat && (0 <? t) && (t <=? Z.of_nat (length ps))
  | LockTim _ inner => validLock inner
  | _ => true
  end.

Definition note_key (n : Note) : string := noteIdFromName (name n).

(** The output array of [buildUnsignedTransaction], change appended. *)
Definition final_outputs (args : BuildArgs) : list Output :=
  match a_change args with
  | Some c => a_outputs args ++ [c]
  | None => a_outputs args
  end.

(** What [validateNotes] checks of one note. *)
Definition note_ok (crypto : CryptoProvider) (n : Note) : Prop :=
  fst (name n) = lockHash (lock n) crypto ∧ 0 < note_amount n.

(** Two notes under the burn lock, handed over in descending order of
    their ids. *)
Definition burnName (src : string) : NoteName := buildNoteName LockBrn src MockCryptoProvider.

Definition unordered_notes : list Note :=
  [mkNote (burnName "b") None 7 LockBrn; mkNote (burnName "a") None 5 LockBrn].

Definition unordered_args : BuildArgs :=
  mkBuildArgs None None unordered_notes [mkOutput "dest" 12 None] 0 None MockCryptoProvider.

(** A note whose %pkh lock has threshold 0; its name is the hash of that
    lock, so it passes [validateNotes]. *)
Definition zero_threshold_note : Note :=
  mkNote (buildNoteName (LockPkh 0 []) "src" MockCryptoProvider) None 10 (LockPkh 0 []).

Definition zero_threshold_args : BuildArgs :=
  mkBuildArgs None None [zero_threshold_note] [mkOutput "dest" 5 None] 0 None
    MockCryptoProvider.

Lemma seedsFromLock_valid (l : Lock) :
  validLock l = true → ∃ s, seedsFromLock l = Ok s.
Proof.
  induction l as [t ps|h|nb inner IH|]; simpl; intros Hv; eauto.
  - apply andb_prop in Hv as [Hv H3]. apply andb_prop in Hv as [H1 H2].
    unfold assertValidPkhLock. rewrite H1; simpl.
    assert ((t <=? 0) = false) as -> by lia.
    assert ((t >? Z.of_nat (length ps)) = false) as -> by lia.
    simpl. eauto.
  - destruct (IH Hv) as [s ->]. simpl. eauto.
Qed.

Lemma seedsFromLock_Ok_valid (l : Lock) (s : Seeds) :
  seedsFromLock l = Ok s → validLock l = true.
Proof.
  revert s; induction l as [t ps|h|nb inner IH|]; simpl; intros s H; auto.
  - unfold assertValidPkhLock in H.
    destruct (length (remove_dups ps) =? length ps)%nat; simpl in H; [| discriminate].
    destruct (t <=? 0) eqn:E1; simpl in H; [discriminate |].
    destruct (t >? Z.of_nat (length ps)) eqn:E2; simpl in H; [discriminate |].
    simpl. apply andb_true_intro; split; lia.
  - destruct (seedsFromLock inner) as [i|e]; simpl in H; [eauto | discriminate].
Qed.

Lemma validateNotes_Ok (crypto : CryptoProvider) (notes : list Note) :
  validateNotes notes crypto = Ok tt ↔ Forall (note_ok crypto) notes.
Proof.
  unfold validateNotes. rewrite forM__Ok, Forall_forall.
  split; intros H n Hn; specialize (H n Hn).
  - unfold assertNoteNameMatchesLock in H.
    destruct (String.eqb_spec (fst (name n)) (lockHash (lock n) crypto)) as [E|E];
      simpl in H; [| discriminate].
    destruct (note_amount n <=? 0) eqn:E'; simpl in H; [discriminate |].
    split; [assumption | lia].
  - destruct H as [E Hpos]. unfold assertNoteNameMatchesLock.
    rewrite E, String.eqb_refl. simpl.
    assert ((note_amount n <=? 0) = false) as -> by lia. reflexivity.
Qed.

Lemma sumOutputs_acc (outs : list Output) (acc : Z) :
  foldl (fun a o => a + amount o) acc outs = acc + sumOutputs outs.
Proof.
  unfold sumOutputs. revert acc; induction outs as [|o outs IH]; intros acc; simpl; [lia |].
  rewrite IH, (IH (0 + amount o)). lia.
Qed.

(** What a successful build has checked, and what it returns. *)
Lemma buildUnsignedTransaction_Ok (args : BuildArgs) (tx : Transaction) :
  buildUnsignedTransaction args = Ok tx →
  validateNotes (a_notes args) (a_crypto args) = Ok tt
  ∧ final_outputs args ≠ []
  ∧ Forall (fun o => 0 < amount o) (final_outputs args)
  ∧ 0 ≤ a_fee args
  ∧ sumOutputs (final_outputs args) + a_fee args ≤ sumInputs (a_notes args)
  ∧ buildSpends (a_notes args) = Ok (spends tx)
  ∧ version tx = default 1 (a_version args)
  ∧ network tx = a_network args
  ∧ outputs tx = final_outputs args
  ∧ fee tx = a_fee args
  ∧ unsignedHash tx = hash (a_crypto args) (encodeUnsignedPayload (unsigned_of tx)).
Proof.
  unfold buildUnsignedTransaction. fold (final_outputs args).
  intros H. apply bind_Ok in H as ([] & Hval & H).
  apply throw_if_Ok in H as [Hlen H].
  apply bind_Ok in H as ([] & Hpos & H).
  apply throw_if_Ok in H as [Hfee H].
  apply throw_if_Ok in H as [Hsum H].
  apply bind_Ok in H as (sp & Hsp & [= <-]).
  simpl. repeat split; try assumption; try reflexivity; try lia.
  - intros E. rewrite E in Hlen. discriminate.
  - rewrite forM__Ok in Hpos. apply Forall_forall. intros o Ho.
    specialize (Hpos o Ho). destruct (amount o <=? 0) eqn:E; simpl in Hpos;
      [discriminate | lia].
Qed.

(** The spends of a build: one per note, in the order of the note ids. *)
Lemma buildSpends_Forall2 (notes : list Note) (sp : list Spend) :
  buildSpends notes = Ok sp ↔
  Forall2 (fun n s => spendOfNote n = Ok s) (sort_by note_key notes) sp.
Proof. unfold buildSpends. apply mapM_Ok_Forall2. Qed.

Lemma spendOfNote_noteId (n : Note) (s : Spend) :
  spendOfNote n = Ok s → noteId s = note_key n.
Proof.
  unfold spendOfNote. intros H. apply bind_Ok in H as (sd & _ & [= <-]). reflexivity.
Qed.

Lemma Forall2_sorted_keys {A B} (R : A → B → Prop) (ka : A → string) (kb : B → string)
    (l : list A) (l' : list B) :
  (∀ x y, R x y → kb y = ka x) →
  Forall2 R l l' → Sorted (key_le ka) l → Sorted (key_le kb) l'.
Proof.
  intros Hk H. induction H as [|x y l l' Hxy Hl IH]; intros Hs; [constructor |].
  apply Sorted_inv in Hs as [Hs Hhd]. constructor; [by apply IH |].
  destruct Hl as [|x' y' l l' Hxy' Hl]; [constructor |].
  inversion Hhd as [|? ? Hle]; subst. constructor.
  unfold key_le in *. by rewrite (Hk _ _ Hxy), (Hk _ _ Hxy').
Qed.

(** C3, the claim as stated, refuted: the first spend of the build comes
    from the second note handed over. *)
Lemma spends_follow_ids_not_input :
  (∃ tx, buildUnsignedTransaction unordered_args = Ok tx
         ∧ (spends tx !! 0%nat) ≫= (fun s => Some (noteId s))
           = (a_notes unordered_args !! 1%nat) ≫= (fun n => Some (note_key n))
         ∧ (spends tx !! 0%nat) ≫= (fun s => Some (noteId s))
           ≠ (a_notes unordered_args !! 0%nat) ≫= (fun n => Some (note_key n))).
Proof. eexists. split; [vm_compute; reflexivity |]. split; vm_compute; congruence. Qed.

(** C3, amended: the spends array stored by [buildUnsignedTransaction]
    is sorted by note id. [buildSpends] sorts the notes by id (a stable
    sort) and builds spend [i] from the [i]-th note of the sorted array,
    with [seedsFromLock] of its lock; the sort inside the signing-bytes
    encoder then leaves the array as it is. The positions of the
    caller's notes are kept exactly when the caller's array is already
    in id order. *)
Theorem buildUnsignedTransaction_spends_sorted (args : BuildArgs) (tx : Transaction) :
  buildUnsignedTransaction args = Ok tx →
  Forall2 (fun n s => noteId s = note_key n ∧ seedsFromLock (lock n) = Ok (seeds s))
    (sort_by note_key (a_notes args)) (spends tx)
  ∧ Sorted (key_le noteId) (spends tx)
  ∧ sort_by noteId (spends tx) = spends tx
  ∧ (Sorted (key_le note_key) (a_notes args) →
     Forall2 (fun n s => noteId s = note_key n ∧ seedsFromLock (lock n) = Ok (seeds s))
       (a_notes args) (spends tx)).
Proof.
  intros H. apply buildUnsignedTransaction_Ok in H as (_ & _ & _ & _ & _ & Hsp & _).
  apply buildSpends_Forall2 in Hsp.
  assert (Forall2 (fun n s => noteId s = note_key n ∧ seedsFromLock (lock n) = Ok (seeds s))
            (sort_by note_key (a_notes args)) (spends tx)) as HF.
  { eapply Forall2_impl; [exact Hsp |]. intros n s Hns. split.
    - by apply spendOfNote_noteId.
    - unfold spendOfNote in Hns. apply bind_Ok in Hns as (sd & -> & [= <-]). reflexivity. }
  assert (Sorted (key_le noteId) (spends tx)) as Hsorted.
  { eapply (Forall2_sorted_keys _ note_key noteId); [| exact HF | apply sort_by_sorted].
    by intros x y [-> _]. }
  repeat split; try assumption.
  - by apply sort_by_of_sorted.
  - intros Hs. by rewrite (sort_by_of_sorted _ _ Hs) in HF.
Qed.

Lemma buildUnsignedTransaction_spends_sorted_witness :
  (∃ tx, buildUnsignedTransaction unordered_args = Ok tx
         ∧ Sorted (key_le noteId) (spends tx)).
Proof.
  eexists. split; [vm_compute; reflexivity |].
  eapply (buildUnsignedTransaction_spends_sorted unordered_args). vm_compute; reflexivity.
Defined.

(** C2, the claim as stated, refuted: a note that passes the integrity
    validation, outputs and fee in range, funds sufficient, and the
    build fails, because the lock of the note is no valid %pkh lock. *)
Lemma sufficient_funds_build_fails :
  Forall (note_ok MockCryptoProvider) (a_notes zero_threshold_args)
  ∧ final_outputs zero_threshold_args ≠ []
  ∧ Forall (fun o => 0 < amount o) (final_outputs zero_threshold_args)
  ∧ 0 ≤ a_fee zero_threshold_args
  ∧ sumOutputs (final_outputs zero_threshold_args) + a_fee zero_threshold_args
    ≤ sumInputs (a_notes zero_threshold_args)
  ∧ buildUnsignedTransaction zero_threshold_args = Err ThresholdNotPositive.
Proof.
  split; [repeat constructor; vm_compute; reflexivity |].
  split; [discriminate |].
  split; [repeat constructor |].
  split; [vm_compute; discriminate |].
  split; [vm_compute; discriminate | vm_compute; reflexivity].
Qed.

(** C2, amended: for notes that pass the integrity validation and whose
    locks are valid (unique pkhs and 0 < threshold <= number of pkhs in
    every %pkh lock), a non-empty output list with positive amounts and
    a fee >= 0: when the inputs cover outputs plus fee the build
    succeeds and the transaction satisfies sum(outputs) + fee <=
    sum(notes); otherwise it fails with the insufficient-funds error
    that reports the inputs and the needed amount. The failure half
    needs no valid lock. *)
Theorem buildUnsignedTransaction_balance (args : BuildArgs) :
  Forall (note_ok (a_crypto args)) (a_notes args) →
  final_outputs args ≠ [] →
  Forall (fun o => 0 < amount o) (final_outputs args) →
  0 ≤ a_fee args →
  (sumOutputs (final_outputs args) + a_fee args ≤ sumInputs (a_notes args) →
   Forall (fun n => validLock (lock n) = true) (a_notes args) →
   ∃ tx, buildUnsignedTransaction args = Ok tx
         ∧ outputs tx = final_outputs args ∧ fee tx = a_fee args
         ∧ sumOutputs (outputs tx) + fee tx ≤ sumInputs (a_notes args))
  ∧ (sumInputs (a_notes args) < sumOutputs (final_outputs args) + a_fee args →
     buildUnsignedTransaction args
     = Err (InsufficientFunds (sumInputs (a_notes args))
              (sumOutputs (final_outputs args) + a_fee args))).
Proof.
  intros Hnotes Hne Hpos Hfee.
  apply validateNotes_Ok in Hnotes.
  assert (forM_ (fun o => throw_if (amount o <=? 0) OutputAmountNotPositive (Ok tt))
            (final_outputs args) = Ok tt) as Hpos'.
  { apply forM__Ok. intros o Ho. rewrite Forall_forall in Hpos. specialize (Hpos o Ho).
    assert ((amount o <=? 0) = false) as -> by lia. reflexivity. }
  assert ((length (final_outputs args) =? 0)%nat = false) as Hlen.
  { destruct (final_outputs args); [congruence | reflexivity]. }
  unfold buildUnsignedTransaction. fold (final_outputs args).
  rewrite Hnotes; simpl. rewrite Hlen; simpl. rewrite Hpos'; simpl.
  assert ((a_fee args <? 0) = false) as -> by lia. simpl.
  split.
  - intros Hsum Hlocks.
    assert ((sumInputs (a_notes args) <? sumOutputs (final_outputs args) + a_fee args) = false)
      as -> by lia.
    simpl.
    assert (is_ok (buildSpends (a_notes args)) = true) as Hok.
    { unfold buildSpends. apply mapM_all_Ok. intros n Hn.
      assert (n ∈ a_notes args) as Hn' by (by rewrite <- (sort_by_perm note_key)).
      rewrite Forall_forall in Hlocks. specialize (Hlocks n Hn').
      destruct (seedsFromLock_valid _ Hlocks) as [s Hs].
      unfold spendOfNote. rewrite Hs. reflexivity. }
    destruct (buildSpends (a_notes args)) as [sp|e]; [| discriminate].
    simpl. eexists. split; [reflexivity |]. simpl. repeat split; lia.
  - intros Hsum.
    assert ((sumInputs (a_notes args) <? sumOutputs (final_outputs args) + a_fee args) = true)
      as -> by lia.
    reflexivity.
Qed.

Lemma buildUnsignedTransaction_balance_witness :
  (∃ tx, buildUnsignedTransaction unordered_args = Ok tx
         ∧ sumOutputs (outputs tx) + fee tx ≤ sumInputs (a_notes unordered_args)).
Proof.
  destruct (buildUnsignedTransaction_balance unordered_args) as [Hok _].
  - repeat constructor; vm_compute; reflexivity.
  - discriminate.
  - repeat constructor.
  - vm_compute; discriminate.
  - destruct Hok as (tx & Htx & _ & _ & Hsum).
    + vm_compute; discriminate.
    + repeat constructor.
    + exists tx. split; assumption.
Defined.

End BuildSpec.

(** ** Attaching signatures *)

Module SignSpec.
Import Js TxCore Crypto Helpers Basics.

(** The spend [s] with the signature of [pubkey] put into its map. *)
Definition attachedSpend (pubkey : PubKey) (signature : Signature) (s : Spend) : Spend :=
  match seeds s with
  | SeedsPkh p =>
      mkSpend (noteId s)
        (SeedsPkh (mkPkhSeeds (threshold p) (pkhs p) (<[pubkey := signature]> (signatures p))))
  | _ => s
  end.

(** The spends [attachSignatureToSpend] returns when it returns. *)
Definition attachedSpends (noteId' : string) (pubkey : PubKey) (signature : Signature)
    (l : list Spend) : list Spend :=
  map (fun s => if String.eqb (noteId s) noteId'
                then attachedSpend pubkey signature s else s) l.

(** A spend that [attachSignatureToSpend] rejects: it has the note id,
    and its seeds are not %pkh or do not list the key. *)
Definition rejects (crypto : CryptoProvider) (noteId' : string) (pubkey : PubKey)
    (s : Spend) : Prop :=
  noteId s = noteId'
  ∧ match seeds s with
    | SeedsPkh p => pkhIsAllowed crypto pubkey (pkhs p) = false
    | _ => True
    end.

Definition with_spends (tx : Transaction) (l : list Spend) : Transaction :=
  mkTx (version tx) (network tx) l (outputs tx) (fee tx) (unsignedHash tx).

(** The demo of example.ts: a 2-of-3 lock over the keys of Alice, Bob
    and Carol, one note of 100000000, two recipients and a fee. *)
Definition demoPubkeys : list PubKey := ["alice-pubkey"; "bob-pubkey"; "carol-pubkey"].

Definition demoPkhs : list Hash := map (hashPubkey MockCryptoProvider) demoPubkeys.

Definition demoLock : Lock := LockPkh 2 (sort_strings demoPkhs).

Definition demoNote : Note :=
  createNote demoLock 100000000 "demo-source-001" None MockCryptoProvider.

Definition demoParams : SimpleTxParams :=
  mkSimple [demoNote]
    [mkRecipient "recipient-address-1" 50000000; mkRecipient "recipient-address-2" 40000000]
    10000000 None MockCryptoProvider.

Definition demoNoteId : string := noteIdFromName (name demoNote).

(** The unsigned demo transaction, as [buildSimpleTransaction] returns it. *)
Definition demoTx : Transaction :=
  Eval vm_compute in
    match buildSimpleTransaction demoParams with
    | Ok tx => tx
    | Err _ => mkTx 0 None [] [] 0 ""
    end.

Definition aliceSignature : Signature :=
  mockSignature "alice-pubkey" (encodeUnsignedPayload (unsigned_of demoTx)).

(** The demo transaction after Alice signed. *)
Definition demoTx1 : Transaction :=
  Eval vm_compute in
    match signSpend demoTx demoNoteId (createMockSigner "alice-pubkey") MockCryptoProvider with
    | Ok tx => tx
    | Err _ => mkTx 0 None [] [] 0 ""
    end.

Lemma attachToSpend_Ok crypto noteId' pubkey signature (s s' : Spend) :
  attachToSpend crypto noteId' pubkey signature s = Ok s' ↔
  ¬ rejects crypto noteId' pubkey s
  ∧ s' = (if String.eqb (noteId s) noteId' then attachedSpend pubkey signature s else s).
Proof.
  unfold attachToSpend, rejects, attachedSpend.
  destruct (String.eqb_spec (noteId s) noteId') as [E|E]; simpl.
  - destruct (seeds s) as [p| | |] eqn:Hs.
    + destruct (pkhIsAllowed crypto pubkey (pkhs p)) eqn:Ha; simpl.
      * split; [intros [= <-]; split; [intros [_ ?]; discriminate | reflexivity]
               | intros [_ ->]; reflexivity].
      * split; [discriminate | intros [Hn _]; exfalso; apply Hn; auto].
    + split; [discriminate | intros [Hn _]; exfalso; apply Hn; auto].
    + split; [discriminate | intros [Hn _]; exfalso; apply Hn; auto].
    + split; [discriminate | intros [Hn _]; exfalso; apply Hn; auto].
  - split; [intros [= <-]; split; [intros [? _]; contradiction | reflexivity]
           | intros [_ ->]; reflexivity].
Qed.

Lemma attachToSpend_Err crypto noteId' pubkey signature (s : Spend) (e : Error) :
  attachToSpend crypto noteId' pubkey signature s = Err e →
  rejects crypto noteId' pubkey s.
Proof.
  unfold attachToSpend, rejects.
  destruct (String.eqb_spec (noteId s) noteId') as [E|E]; simpl; [| discriminate].
  destruct (seeds s) as [p| | |]; auto.
  destruct (pkhIsAllowed crypto pubkey (pkhs p)); simpl; [discriminate | auto].
Qed.

(** [attachSignatureToSpend] returns exactly when it rejects no spend,
    and then returns the transaction with the signature put into every
    spend that has the note id. *)
Lemma attachSignatureToSpend_Ok tx noteId' pubkey signature crypto (tx' : Transaction) :
  attachSignatureToSpend tx noteId' pubkey signature crypto = Ok tx' ↔
  Forall (fun s => ¬ rejects crypto noteId' pubkey s) (spends tx)
  ∧ tx' = with_spends tx (attachedSpends noteId' pubkey signature (spends tx)).
Proof.
  unfold attachSignatureToSpend, with_spends, attachedSpends. split.
  - intros H. apply bind_Ok in H as (sp & Hsp & [= <-]).
    apply mapM_Ok_Forall2 in Hsp.
    assert (Forall (fun s => ¬ rejects crypto noteId' pubkey s) (spends tx)
            ∧ sp = map (fun s => if String.eqb (noteId s) noteId'
                                 then attachedSpend pubkey signature s else s) (spends tx))
      as [H1 H2]; [| subst sp; auto].
    induction Hsp as [|s s' l l' Hs Hl [IH1 IH2]]; [split; [constructor | reflexivity] |].
    apply attachToSpend_Ok in Hs as [Hn ->]. subst l'.
    split; [by constructor | reflexivity].
  - intros [HF ->].
    assert (mapM (attachToSpend crypto noteId' pubkey signature) (spends tx)
            = Ok (map (fun s => if String.eqb (noteId s) noteId'
                                then attachedSpend pubkey signature s else s) (spends tx)))
      as ->; [| reflexivity].
    apply mapM_Ok_Forall2. induction HF as [|s l Hs Hl IH]; simpl; constructor; auto.
    by apply attachToSpend_Ok.
Qed.

Lemma attachedSpends_no_match noteId' pubkey signature (l : list Spend) :
  Forall (fun s => noteId s ≠ noteId') l →
  attachedSpends noteId' pubkey signature l = l.
Proof.
  unfold attachedSpends. induction 1 as [|s l Hs Hl IH]; simpl; [reflexivity |].
  destruct (String.eqb_spec (noteId s) noteId'); [contradiction |]. by rewrite IH.
Qed.

Lemma find_spend_None noteId' (l : list Spend) :
  Forall (fun s => noteId s ≠ noteId') l → find_spend noteId' l = None.
Proof.
  induction 1 as [|s l Hs Hl IH]; simpl; [reflexivity |].
  destruct (String.eqb_spec (noteId s) noteId'); [contradiction | assumption].
Qed.

Lemma signSpend_Ok tx noteId' signer crypto (tx' : Transaction) :
  signSpend tx noteId' signer crypto = Ok tx' →
  ∃ sig, sign signer (encodeUnsignedPayload (unsigned_of tx)) = Ok sig
         ∧ verify crypto (pubkey signer) (encodeUnsignedPayload (unsigned_of tx)) sig = true
         ∧ attachSignatureToSpend tx noteId' (pubkey signer) sig crypto = Ok tx'.
Proof.
  unfold signSpend. destruct (find_spend noteId' (spends tx)) as [t|]; [| discriminate].
  destruct (seeds t) as [p| | |]; try discriminate.
  intros H. apply throw_if_Ok in H as [_ H].
  apply bind_Ok in H as (sig & Hsig & H). apply throw_if_Ok in H as [Hv H].
  exists sig. repeat split; try assumption. by destruct (verify crypto _ _ sig).
Qed.

(** C7: the unsignedHash of a transaction is stable. Two builds from
    the same arguments give the same unsignedHash; and whenever
    [attachSignatureToSpend] or [signSpend] returns a transaction, its
    unsignedHash, version, network, outputs and fee are those of the
    input, and its spends are those of the input, position by position,
    except that a spend with the given note id has the signature added
    to its signature map (its note id, threshold and pkhs unchanged). *)
Theorem unsignedHash_stable :
  (∀ args tx1 tx2,
     buildUnsignedTransaction args = Ok tx1 → buildUnsignedTransaction args = Ok tx2 →
     unsignedHash tx1 = unsignedHash tx2)
  ∧ (∀ tx noteId' pubkey signature crypto tx',
       attachSignatureToSpend tx noteId' pubkey signature crypto = Ok tx' →
       unsignedHash tx' = unsignedHash tx ∧ version tx' = version tx
       ∧ network tx' = network tx ∧ outputs tx' = outputs tx ∧ fee tx' = fee tx
       ∧ Forall2 (fun s s' =>
            if String.eqb (noteId s) noteId'
            then ∃ p, seeds s = SeedsPkh p
                      ∧ s' = mkSpend (noteId s)
                               (SeedsPkh (mkPkhSeeds (threshold p) (pkhs p)
                                            (<[pubkey := signature]> (signatures p))))
            else s' = s) (spends tx) (spends tx'))
  ∧ (∀ tx noteId' signer crypto tx',
       signSpend tx noteId' signer crypto = Ok tx' →
       unsignedHash tx' = unsignedHash tx ∧ version tx' = version tx
       ∧ network tx' = network tx ∧ outputs tx' = outputs tx ∧ fee tx' = fee tx
       ∧ ∃ sig, Forall2 (fun s s' =>
            if String.eqb (noteId s) noteId'
            then ∃ p, seeds s = SeedsPkh p
                      ∧ s' = mkSpend (noteId s)
                               (SeedsPkh (mkPkhSeeds (threshold p) (pkhs p)
                                            (<[pubkey signer := sig]> (signatures p))))
            else s' = s) (spends tx) (spends tx')).
Proof.
  assert (∀ tx noteId' pubkey signature crypto tx',
       attachSignatureToSpend tx noteId' pubkey signature crypto = Ok tx' →
       unsignedHash tx' = unsignedHash tx ∧ version tx' = version tx
       ∧ network tx' = network tx ∧ outputs tx' = outputs tx ∧ fee tx' = fee tx
       ∧ Forall2 (fun s s' =>
            if String.eqb (noteId s) noteId'
            then ∃ p, seeds s = SeedsPkh p
                      ∧ s' = mkSpend (noteId s)
                               (SeedsPkh (mkPkhSeeds (threshold p) (pkhs p)
                                            (<[pubkey := signature]> (signatures p))))
            else s' = s) (spends tx) (spends tx')) as Hattach.
  { intros tx noteId' pubkey signature crypto tx' H.
    apply attachSignatureToSpend_Ok in H as [HF ->]. simpl.
    repeat split; try reflexivity.
    unfold attachedSpends. induction HF as [|s l Hs Hl IH]; simpl; constructor; auto.
    unfold rejects, attachedSpend in *.
    destruct (String.eqb_spec (noteId s) noteId') as [E|E]; [| reflexivity].
    destruct (seeds s) as [p| | |]; try (exfalso; apply Hs; by auto).
    exists p. auto. }
  split; [| split].
  - intros args tx1 tx2 H1 H2. rewrite H1 in H2. by injection H2 as ->.
  - exact Hattach.
  - intros tx noteId' signer crypto tx' H.
    apply signSpend_Ok in H as (sig & _ & _ & H).
    apply Hattach in H as (H1 & H2 & H3 & H4 & H5 & H6).
    repeat split; try assumption. by exists sig.
Qed.

Lemma unsignedHash_stable_witness :
  signSpend demoTx demoNoteId (createMockSigner "alice-pubkey") MockCryptoProvider = Ok demoTx1
  ∧ unsignedHash demoTx1 = unsignedHash demoTx
  ∧ outputs demoTx1 = outputs demoTx.
Proof.
  assert (signSpend demoTx demoNoteId (createMockSigner "alice-pubkey") MockCryptoProvider
          = Ok demoTx1) as H by (vm_compute; reflexivity).
  split; [exact H |].
  destruct unsignedHash_stable as (_ & _ & Hsign).
  destruct (Hsign _ _ _ _ _ H) as (H1 & _ & _ & H4 & _).
  split; assumption.
Defined.

(** C10: [attachSignatureToSpend] throws exactly when a spend with the
    given note id has seeds that are not %pkh or do not list the key
    (neither its hash nor the key itself is in pkhs). When no spend has
    the note id it returns the transaction as it is, where [signSpend]
    throws. It does not call [crypto.verify]: the result is the same
    under any verifier, and any signature text is attached for a listed
    key. *)
Theorem attachSignatureToSpend_throws tx noteId' pubkey signature crypto :
  (is_ok (attachSignatureToSpend tx noteId' pubkey signature crypto) = false
   ↔ Exists (rejects crypto noteId' pubkey) (spends tx))
  ∧ (Forall (fun s => noteId s ≠ noteId') (spends tx) →
     attachSignatureToSpend tx noteId' pubkey signature crypto = Ok tx
     ∧ ∀ signer, signSpend tx noteId' signer crypto = Err UnknownNoteId)
  ∧ (∀ verify',
       attachSignatureToSpend tx noteId' pubkey signature
         (mkCrypto (hash crypto) (hashPubkey crypto) verify')
       = attachSignatureToSpend tx noteId' pubkey signature crypto)
  ∧ (Forall (fun s => ¬ rejects crypto noteId' pubkey s) (spends tx) →
     attachSignatureToSpend tx noteId' pubkey signature crypto
     = Ok (with_spends tx (attachedSpends noteId' pubkey signature (spends tx)))).
Proof.
  split; [| split; [| split]].
  - split.
    + intros H. destruct (attachSignatureToSpend tx noteId' pubkey signature crypto)
        as [tx'|e] eqn:E; [discriminate |].
      unfold attachSignatureToSpend in E.
      destruct (mapM (attachToSpend crypto noteId' pubkey signature) (spends tx))
        as [sp|e'] eqn:E'; [discriminate |].
      apply mapM_Err_exists in E' as (s & Hin & Hs).
      apply Exists_exists. exists s. split; [assumption |].
      by apply attachToSpend_Err in Hs.
    + intros H. destruct (attachSignatureToSpend tx noteId' pubkey signature crypto)
        as [tx'|e] eqn:E; [| reflexivity].
      apply attachSignatureToSpend_Ok in E as [HF _].
      apply Exists_exists in H as (s & Hin & Hs).
      rewrite Forall_forall in HF. exfalso. by apply (HF s).
  - intros Hno. split.
    + apply attachSignatureToSpend_Ok. split.
      * eapply Forall_impl; [exact Hno |]. intros s Hs [E _]. contradiction.
      * rewrite attachedSpends_no_match by assumption. by destruct tx.
    + intros signer. unfold signSpend. by rewrite find_spend_None.
  - intros verify'. reflexivity.
  - intros HF. by apply attachSignatureToSpend_Ok.
Qed.

Lemma attachSignatureToSpend_throws_witness :
  Forall (fun s => noteId s ≠ "no-such-note") (spends demoTx)
  ∧ attachSignatureToSpend demoTx "no-such-note" "alice-pubkey" "not a signature"
      MockCryptoProvider = Ok demoTx
  ∧ is_ok (attachSignatureToSpend demoTx demoNoteId "alice-pubkey" "not a signature"
             MockCryptoProvider) = true.
Proof.
  assert (Forall (fun s => noteId s ≠ "no-such-note") (spends demoTx)) as H
    by (repeat constructor; vm_compute; discriminate).
  split; [exact H |]. split.
  - destruct (attachSignatureToSpend_throws demoTx "no-such-note" "alice-pubkey"
                "not a signature" MockCryptoProvider) as (_ & Hno & _).
    exact (proj1 (Hno H)).
  - vm_compute; reflexivity.
Defined.

End SignSpec.

(** ** Signing bytes and signature counting *)

Module CollectSpec.
Import Js TxCore Crypto Helpers Basics SignSpec.

(** The pkh of the lock a signing key stands for: its hash when the
    hash is listed, the key itself when the key is listed as it is
    (an address-encoded identity), none otherwise. *)
Definition resolvedPkh (crypto : CryptoProvider) (pkhs : list Hash) (pubkey : PubKey)
    : option Hash :=
  if includes pkhs (hashPubkey crypto pubkey) then Some (hashPubkey crypto pubkey)
  else if includes pkhs pubkey then Some pubkey
  else None.

(** The distinct member pkhs that carry an attached signature. *)
Definition signedMembers (crypto : CryptoProvider) (p : PkhSeeds) : list Hash :=
  remove_dups (omap (resolvedPkh crypto (pkhs p)) (signers p)).

(** The hashes of the listed signing keys: what [countCollectedPkh]
    collects in [seenPkhs]. *)
Definition seenHashes (crypto : CryptoProvider) (pkhs : list Hash) (keys : list PubKey)
    : gset Hash :=
  list_to_set (map (hashPubkey crypto) (filter (fun pk => pkhIsAllowed crypto pk pkhs) keys)).

Definition alicePkh : Hash := hashPubkey MockCryptoProvider "alice-pubkey".

(** Alice attached two signatures to the 2-of-3 seeds of the demo: one
    under her public key, one under her pkh used as the key. *)
Definition aliceTwice : PkhSeeds :=
  mkPkhSeeds 2 (sort_strings demoPkhs)
    (<[alicePkh := "sig-2"]> (<["alice-pubkey" := "sig-1"]> ∅)).

Lemma seenHashes_cons crypto pkhs pk keys :
  seenHashes crypto pkhs (pk :: keys)
  = if pkhIsAllowed crypto pk pkhs
    then {[hashPubkey crypto pk]} ∪ seenHashes crypto pkhs keys
    else seenHashes crypto pkhs keys.
Proof.
  unfold seenHashes. rewrite filter_cons.
  destruct (pkhIsAllowed crypto pk pkhs) eqn:E.
  - rewrite decide_True by exact I. reflexivity.
  - rewrite decide_False by (intros []). reflexivity.
Qed.

Lemma countStep_allowed crypto pkhs (st : gset Hash * Z) (pk : PubKey) :
  countStep crypto pkhs st pk
  = if pkhIsAllowed crypto pk pkhs
    then if bool_decide (hashPubkey crypto pk ∈ fst st) then st
         else ({[hashPubkey crypto pk]} ∪ fst st, snd st + 1)
    else st.
Proof.
  unfold countStep, pkhIsAllowed.
  destruct (includes pkhs (hashPubkey crypto pk)), (includes pkhs pk); reflexivity.
Qed.

Lemma countStep_foldl crypto pkhs (keys : list PubKey) (seen : gset Hash) (count : Z) :
  foldl (countStep crypto pkhs) (seen, count) keys
  = (seen ∪ seenHashes crypto pkhs keys,
     count + Z.of_nat (size (seenHashes crypto pkhs keys ∖ seen))).
Proof.
  revert seen count; induction keys as [|pk keys IH]; intros seen count.
  - simpl. unfold seenHashes; simpl. f_equal.
    + set_solver.
    + replace ((∅ : gset Hash) ∖ seen) with (∅ : gset Hash) by set_solver.
      rewrite size_empty. lia.
  - simpl. rewrite seenHashes_cons, countStep_allowed. simpl.
    destruct (pkhIsAllowed crypto pk pkhs); [| apply IH].
    set (h := hashPubkey crypto pk). set (sk := seenHashes crypto pkhs keys).
    destruct (decide (h ∈ seen)) as [Hin|Hin].
    + rewrite bool_decide_eq_true_2 by assumption. rewrite IH. fold sk. f_equal.
      * set_solver.
      * replace (({[h]} ∪ sk) ∖ seen) with (sk ∖ seen) by set_solver. reflexivity.
    + rewrite bool_decide_eq_false_2 by assumption. rewrite IH. fold sk. f_equal.
      * set_solver.
      * assert (({[h]} ∪ sk) ∖ seen = {[h]} ∪ (sk ∖ ({[h]} ∪ seen))) as ->.
        { apply set_eq. intros x. destruct (decide (x = h)); set_solver. }
        rewrite (size_union (C:=gset string) {[h]}) by set_solver.
        rewrite size_singleton. lia.
Qed.

(** What the code counts: the distinct hashes of the listed signing
    keys, whatever the order in which the keys are visited. *)
Lemma countCollectedPkh_hashes (p : PkhSeeds) (crypto : CryptoProvider) :
  countCollectedPkh p crypto
  = Z.of_nat (size (seenHashes crypto (pkhs p) (signers p))).
Proof.
  unfold countCollectedPkh. rewrite countStep_foldl. simpl.
  replace (seenHashes crypto (pkhs p) (signers p) ∖ ∅)
    with (seenHashes crypto (pkhs p) (signers p)) by set_solver.
  lia.
Qed.

(** When every listed signing key is listed through its hash, the count
    is the number of distinct member pkhs that carry a signature. *)
Lemma countCollectedPkh_members (p : PkhSeeds) (crypto : CryptoProvider) :
  Forall (fun pk => pkhIsAllowed crypto pk (pkhs p) = true →
                    includes (pkhs p) (hashPubkey crypto pk) = true) (signers p) →
  countCollectedPkh p crypto = Z.of_nat (length (signedMembers crypto p)).
Proof.
  intros H. rewrite countCollectedPkh_hashes. f_equal.
  unfold signedMembers, seenHashes.
  rewrite <- (size_list_to_set (C := gset Hash) (remove_dups _)) by apply NoDup_remove_dups.
  assert (∀ l : list Hash, list_to_set (remove_dups l) =@{gset Hash} list_to_set l) as ->.
  { intros l. apply set_eq. intros x.
    by rewrite !elem_of_list_to_set, elem_of_remove_dups. }
  f_equal. f_equal.
  induction H as [|pk keys Hpk Hkeys IH]; [reflexivity |].
  rewrite filter_cons. simpl. unfold resolvedPkh at 1.
  unfold pkhIsAllowed in *.
  destruct (includes (pkhs p) (hashPubkey crypto pk)) eqn:E1; simpl.
  - f_equal. exact IH.
  - destruct (includes (pkhs p) pk) eqn:E2; simpl.
    + specialize (Hpk eq_refl). discriminate.
    + exact IH.
Qed.

(** C1 at the demo of example.ts: after Alice's signature is attached,
    the signing bytes of the transaction are other bytes, the signature
    that verified on the unsigned transaction no longer verifies on the
    transaction that carries it, and the stored unsignedHash is no
    longer the hash of the signing bytes. *)
Theorem signing_bytes_change_with_signatures :
  attachSignatureToSpend demoTx demoNoteId "alice-pubkey" aliceSignature MockCryptoProvider
    = Ok demoTx1
  ∧ encodeUnsignedPayload (unsigned_of demoTx1) ≠ encodeUnsignedPayload (unsigned_of demoTx)
  ∧ verifySignatureOnTx demoTx "alice-pubkey" aliceSignature MockCryptoProvider = true
  ∧ verifySignatureOnTx demoTx1 "alice-pubkey" aliceSignature MockCryptoProvider = false
  ∧ unsignedHash demoTx = hash MockCryptoProvider (encodeUnsignedPayload (unsigned_of demoTx))
  ∧ unsignedHash demoTx1 ≠ hash MockCryptoProvider (encodeUnsignedPayload (unsigned_of demoTx1)).
Proof.
  split; [vm_compute; reflexivity |].
  split; [intros H; apply (f_equal length) in H; vm_compute in H; discriminate |].
  split; [vm_compute; reflexivity |].
  split; [vm_compute; reflexivity |].
  split; [vm_compute; reflexivity |].
  vm_compute; discriminate.
Qed.

(** C5 at the seeds where one signer attached two signatures, under her
    public key and under her pkh: both keys stand for the same member
    pkh, the code counts two and reports the 2-of-3 threshold met. *)
Theorem one_member_counted_twice :
  pkhIsAllowed MockCryptoProvider "alice-pubkey" (pkhs aliceTwice) = true
  ∧ pkhIsAllowed MockCryptoProvider alicePkh (pkhs aliceTwice) = true
  ∧ resolvedPkh MockCryptoProvider (pkhs aliceTwice) "alice-pubkey" = Some alicePkh
  ∧ resolvedPkh MockCryptoProvider (pkhs aliceTwice) alicePkh = Some alicePkh
  ∧ signedMembers MockCryptoProvider aliceTwice = [alicePkh]
  ∧ countCollectedPkh aliceTwice MockCryptoProvider = 2
  ∧ isPkhComplete aliceTwice MockCryptoProvider = true.
Proof. repeat split; vm_compute; reflexivity. Qed.

End CollectSpec.

(** ** The simple builder and its change output *)

Module SimpleSpec.
Import Js TxCore Crypto Helpers Basics BuildSpec SignSpec.

Definition totalIn (p : SimpleTxParams) : Z := sumInputs (inputs p).

Definition totalOut (p : SimpleTxParams) : Z :=
  foldl (fun acc r => acc + r_amount r) 0 (recipients p).

(** The arguments [buildSimpleTransaction] hands to
    [buildUnsignedTransaction]. *)
Definition simpleArgs (p : SimpleTxParams) : BuildArgs :=
  mkBuildArgs None None (inputs p) (recipientOutputs (recipients p)) (p_fee p)
    (if (0 <? changeOf p) && truthy (changeAddress p)
     then Some (mkOutput (default "" (changeAddress p)) (changeOf p) None)
     else None)
    (p_crypto p).

(** The errors [buildUnsignedTransaction] can throw on [args]. *)
Definition buildError (args : BuildArgs) (e : Error) : Prop :=
  match e with
  | NoteNameMismatch _ _ | NoteAmountNotPositive | NoOutputs | OutputAmountNotPositive
  | NegativeFee | PkhsNotUnique | ThresholdNotPositive | ThresholdExceedsPkhs => True
  | InsufficientFunds _ _ =>
      sumInputs (a_notes args) < sumOutputs (final_outputs args) + a_fee args
  | _ => False
  end.

(** The demo note paying one recipient, with a change address. *)
Definition changeParams : SimpleTxParams :=
  mkSimple [demoNote] [mkRecipient "recipient-address-1" 50000000] 10000000
    (Some "change-address") MockCryptoProvider.

Lemma changeOf_totals (p : SimpleTxParams) : changeOf p = totalIn p - totalOut p - p_fee p.
Proof. reflexivity. Qed.

Lemma sumOutputs_recipients (rs : list Recipient) :
  sumOutputs (recipientOutputs rs) = foldl (fun acc r => acc + r_amount r) 0 rs.
Proof.
  unfold sumOutputs, recipientOutputs. generalize 0.
  induction rs as [|r rs IH]; intros acc; simpl; [reflexivity | apply IH].
Qed.

Lemma sumOutputs_app (l1 l2 : list Output) :
  sumOutputs (l1 ++ l2) = sumOutputs l1 + sumOutputs l2.
Proof.
  unfold sumOutputs at 1. rewrite foldl_app. fold (sumOutputs l1).
  by rewrite sumOutputs_acc.
Qed.

Lemma sumOutputs_simpleArgs (p : SimpleTxParams) :
  0 ≤ changeOf p →
  sumOutputs (final_outputs (simpleArgs p)) + p_fee p ≤ totalIn p.
Proof.
  intros Hc. unfold final_outputs, simpleArgs; simpl.
  destruct ((0 <? changeOf p) && truthy (changeAddress p)); simpl.
  - rewrite sumOutputs_app, sumOutputs_recipients. fold (totalOut p).
    unfold sumOutputs; simpl. rewrite changeOf_totals in *. lia.
  - rewrite sumOutputs_recipients. fold (totalOut p). rewrite changeOf_totals in Hc. lia.
Qed.

Lemma buildSimpleTransaction_unfold (p : SimpleTxParams) :
  buildSimpleTransaction p
  = if changeOf p <? 0
    then Err (SimpleInsufficientFunds (totalOut p + p_fee p) (totalIn p))
    else buildUnsignedTransaction (simpleArgs p).
Proof. reflexivity. Qed.

Lemma forM__Err {A} (check : A → result unit) (l : list A) (e : Error) :
  forM_ check l = Err e → ∃ x, x ∈ l ∧ check x = Err e.
Proof.
  induction l as [|x l IH]; simpl; [discriminate |].
  destruct (check x) as [[]|e'] eqn:E; simpl.
  - intros H. destruct (IH H) as (y & Hy & Hc). exists y. split; [by right | assumption].
  - intros [= <-]. exists x. split; [by left | assumption].
Qed.

Lemma seedsFromLock_Err (l : Lock) (e : Error) :
  seedsFromLock l = Err e →
  e = PkhsNotUnique ∨ e = ThresholdNotPositive ∨ e = ThresholdExceedsPkhs.
Proof.
  induction l as [t ps|h|nb inner IH|]; simpl; try discriminate.
  - unfold assertValidPkhLock.
    destruct (length (remove_dups ps) =? length ps)%nat; simpl; [| intros [= <-]; auto].
    destruct (t <=? 0); simpl; [intros [= <-]; auto |].
    destruct (t >? Z.of_nat (length ps)); simpl; [intros [= <-]; auto | discriminate].
  - destruct (seedsFromLock inner) as [s|e']; simpl; [discriminate |].
    intros [= <-]. by apply IH.
Qed.

(** The errors of [buildUnsignedTransaction]; the only way to its
    insufficient-funds error is its balance check. *)
Lemma buildUnsignedTransaction_Err (args : BuildArgs) (e : Error) :
  buildUnsignedTransaction args = Err e → buildError args e.
Proof.
  unfold buildUnsignedTransaction. fold (final_outputs args).
  destruct (validateNotes (a_notes args) (a_crypto args)) as [[]|e'] eqn:Hv; simpl.
  2: { intros [= <-]. unfold validateNotes in Hv. apply forM__Err in Hv as (n & _ & Hn).
       unfold assertNoteNameMatchesLock in Hn.
       destruct (negb _); simpl in Hn; [by injection Hn as <- |].
       destruct (note_amount n <=? 0); simpl in Hn; [by injection Hn as <- | discriminate]. }
  destruct (length (final_outputs args) =? 0)%nat; simpl; [by intros [= <-] |].
  destruct (forM_ _ (final_outputs args)) as [[]|e'] eqn:Hp; simpl.
  2: { intros [= <-]. apply forM__Err in Hp as (o & _ & Ho).
       destruct (amount o <=? 0); simpl in Ho; [by injection Ho as <- | discriminate]. }
  destruct (a_fee args <? 0); simpl; [by intros [= <-] |].
  destruct (sumInputs (a_notes args) <? sumOutputs (final_outputs args) + a_fee args) eqn:E;
    simpl; [intros [= <-]; simpl; lia |].
  destruct (buildSpends (a_notes args)) as [sp|e'] eqn:Hs; simpl; [discriminate |].
  intros [= <-]. unfold buildSpends in Hs. apply mapM_Err_exists in Hs as (n & _ & Hn).
  unfold spendOfNote in Hn.
  destruct (seedsFromLock (lock n)) as [s|e''] eqn:Hl; simpl in Hn; [discriminate |].
  injection Hn as <-. by apply seedsFromLock_Err in Hl as [->|[->| ->]].
Qed.

(** C6: [buildSimpleTransaction] computes change = sum(inputs) -
    sum(recipients) - fee. It fails for insufficient funds exactly when
    change < 0. When change >= 0 it is the build of the recipients'
    outputs with, as change, one output of amount change to the change
    address if change > 0 and a (non-empty) change address is given, and
    no change otherwise. So a built transaction has the recipients'
    outputs followed by that one change output in the first case; and
    when change > 0 and no change address is given its outputs are
    exactly the recipients' and the surplus is in no output: outputs
    plus fee stay below the inputs by the change. *)
Theorem buildSimpleTransaction_change (p : SimpleTxParams) :
  changeOf p = totalIn p - totalOut p - p_fee p
  ∧ (changeOf p < 0 →
     buildSimpleTransaction p
     = Err (SimpleInsufficientFunds (totalOut p + p_fee p) (totalIn p)))
  ∧ (∀ a b, buildSimpleTransaction p = Err (SimpleInsufficientFunds a b)
            ∨ buildSimpleTransaction p = Err (InsufficientFunds a b) →
            changeOf p < 0)
  ∧ (0 ≤ changeOf p →
     buildSimpleTransaction p = buildUnsignedTransaction (simpleArgs p))
  ∧ (∀ tx, buildSimpleTransaction p = Ok tx →
       (∀ addr, 0 < changeOf p → changeAddress p = Some addr → addr ≠ "" →
          outputs tx
          = recipientOutputs (recipients p) ++ [mkOutput addr (changeOf p) None])
       ∧ (0 < changeOf p → truthy (changeAddress p) = false →
          outputs tx = recipientOutputs (recipients p)
          ∧ sumOutputs (outputs tx) + fee tx = totalIn p - changeOf p)).
Proof.
  split; [reflexivity |].
  split; [| split; [| split]].
  - intros Hc. rewrite buildSimpleTransaction_unfold.
    by assert ((changeOf p <? 0) = true) as -> by lia.
  - intros a b H. rewrite buildSimpleTransaction_unfold in H.
    destruct (changeOf p <? 0) eqn:E; [lia |].
    pose proof (sumOutputs_simpleArgs p ltac:(lia)) as Hle.
    destruct H as [H|H]; apply buildUnsignedTransaction_Err in H; simpl in H;
      [contradiction |].
    unfold totalIn in Hle. unfold final_outputs in *. simpl in *. lia.
  - intros Hc. rewrite buildSimpleTransaction_unfold.
    by assert ((changeOf p <? 0) = false) as -> by lia.
  - intros tx H. rewrite buildSimpleTransaction_unfold in H.
    destruct (changeOf p <? 0) eqn:E; [discriminate |].
    apply buildUnsignedTransaction_Ok in H
      as (_ & _ & _ & _ & _ & _ & _ & _ & Hout & Hfee & _).
    rewrite Hout, Hfee. unfold final_outputs, simpleArgs; simpl. split.
    + intros addr Hc Ha Hne. rewrite Ha. simpl.
      assert ((0 <? changeOf p) = true) as -> by lia.
      destruct (String.eqb_spec addr ""); [contradiction | reflexivity].
    + intros Hc Hf. rewrite Hf, andb_false_r. split; [reflexivity |].
      rewrite sumOutputs_recipients. fold (totalOut p). rewrite changeOf_totals. lia.
Qed.

Lemma buildSimpleTransaction_change_witness :
  (0 < changeOf changeParams ∧ changeAddress changeParams = Some "change-address")
  ∧ ∃ tx, buildSimpleTransaction changeParams = Ok tx
          ∧ outputs tx
            = recipientOutputs (recipients changeParams)
              ++ [mkOutput "change-address" (changeOf changeParams) None].
Proof.
  split; [split; vm_compute; reflexivity |].
  destruct (buildSimpleTransaction changeParams) as [tx|e] eqn:E;
    [| vm_compute in E; discriminate].
  exists tx. split; [reflexivity |].
  destruct (buildSimpleTransaction_change changeParams) as (_ & _ & _ & _ & H).
  destruct (H tx E) as [H1 _]. apply H1.
  - vm_compute; reflexivity.
  - reflexivity.
  - discriminate.
Defined.

End SimpleSpec.

(** ** Allocation across notes *)

Module AllocSpec.
Import WasmBuilder Basics.

(** The capacity a spend still has, [0] when it is used up or overdrawn. *)
Definition room (s : Spend) : Z := Z.max 0 (assets s - getSpendUsed s).

Definition totalRoom (spends : list Spend) : Z := foldr (fun s acc => room s + acc) 0 spends.

(** The demand of a queue. *)
Definition demand (queue : list PendingAmount) : Z :=
  foldr (fun item acc => p_amount item + acc) 0 queue.

Definition seedTotal (l : list Seed) : Z := foldr (fun s acc => amount s + acc) 0 l.

Definition addFee (s : Spend) (share : Z) : Spend :=
  mkSpend (inputId s) (assets s) (fee s + share) (seeds s).

Definition addSeeds (s : Spend) (pushed : list Seed) : Spend :=
  mkSpend (inputId s) (assets s) (fee s) (seeds s ++ pushed).

(** The fee drained in input order: each spend takes what is left of the
    fee, up to its room. *)
Fixpoint feeShares (spends : list Spend) (remaining : Z) : list Z :=
  match spends with
  | [] => []
  | s :: rest =>
      let share := Z.min (room s) (Z.max 0 remaining) in
      share :: feeShares rest (remaining - share)
  end.

(** [Splits seeds queue]: the seeds are the demands of the queue in
    queue order, each demand either whole or cut into consecutive
    positive parts that add up to it. *)
Inductive Splits : list Seed → list PendingAmount → Prop :=
| Splits_nil : Splits [] []
| Splits_whole l a ss q :
    Splits ss q → Splits (mkSeed l a :: ss) (mkPending l a :: q)
| Splits_part l c a ss q :
    0 < c < a → Splits ss (mkPending l (a - c) :: q) →
    Splits (mkSeed l c :: ss) (mkPending l a :: q).

Definition positive (item : PendingAmount) : Prop := 0 < p_amount item.

Definition exampleSpends : list Spend := [mkSpend "note1" 70 0 []; mkSpend "note2" 40 0 []].


Lemma room_nonneg (s : Spend) : 0 ≤ room s.
Proof. unfold room. lia. Qed.

Lemma totalRoom_nonneg (spends : list Spend) : 0 ≤ totalRoom spends.
Proof. induction spends as [|s l IH]; simpl; [lia |]. pose proof (room_nonneg s). lia. Qed.

Lemma addFee_zero (s : Spend) : addFee s 0 = s.
Proof. destruct s. unfold addFee; simpl. f_equal. lia. Qed.

Lemma addSeeds_nil (s : Spend) : addSeeds s [] = s.
Proof. destruct s. unfold addSeeds; simpl. by rewrite app_nil_r. Qed.

(** *** The fee *)

Lemma feeShares_done (spends : list Spend) (remaining : Z) :
  remaining ≤ 0 → zip_with addFee spends (feeShares spends remaining) = spends.
Proof.
  revert remaining; induction spends as [|s rest IH]; intros remaining Hr; simpl;
    [reflexivity |].
  replace (Z.min (room s) (Z.max 0 remaining)) with 0 by (pose proof (room_nonneg s); lia).
  rewrite addFee_zero, Z.sub_0_r. f_equal. by apply IH.
Qed.

Lemma feeLoop_spec (spends : list Spend) (remaining : Z) :
  feeLoop spends remaining
  = (zip_with addFee spends (feeShares spends remaining),
     if remaining <=? 0 then remaining else Z.max 0 (remaining - totalRoom spends)).
Proof.
  revert remaining; induction spends as [|s rest IH]; intros remaining; simpl.
  - f_equal. destruct (remaining <=? 0) eqn:E; lia.
  - destruct (remaining <=? 0) eqn:E.
    + f_equal. symmetry. apply (feeShares_done (s :: rest)). lia.
    + fold (getSpendUsed s). unfold room at 1 2.
      destruct (assets s - getSpendUsed s <=? 0) eqn:Ec.
      * rewrite IH. replace (Z.min (Z.max 0 (assets s - getSpendUsed s)) (Z.max 0 remaining))
          with 0 by lia.
        rewrite addFee_zero, Z.sub_0_r, E. f_equal. unfold room. lia.
      * rewrite IH. unfold addFee at 2.
        destruct (remaining <=? assets s - getSpendUsed s) eqn:Er.
        -- replace (Z.min (Z.max 0 (assets s - getSpendUsed s)) (Z.max 0 remaining))
             with remaining by lia.
           f_equal. rewrite Z.sub_diag. simpl.
           pose proof (totalRoom_nonneg rest). unfold room. lia.
        -- replace (Z.min (Z.max 0 (assets s - getSpendUsed s)) (Z.max 0 remaining))
             with (assets s - getSpendUsed s) by lia.
           f_equal.
           destruct (remaining - (assets s - getSpendUsed s) <=? 0) eqn:E'; [lia |].
           unfold room. lia.
Qed.

Lemma feeShares_total (spends : list Spend) (remaining : Z) :
  0 ≤ remaining →
  foldr Z.add 0 (feeShares spends remaining) = Z.min remaining (totalRoom spends).
Proof.
  revert remaining; induction spends as [|s rest IH]; intros remaining Hr; simpl; [lia |].
  rewrite IH by (pose proof (room_nonneg s); lia).
  pose proof (room_nonneg s). pose proof (totalRoom_nonneg rest). lia.
Qed.

(** *** The outputs *)

Lemma demand_nonneg (queue : list PendingAmount) :
  Forall positive queue → 0 ≤ demand queue.
Proof. induction 1 as [|x l Hx Hl IH]; simpl; [lia |]. unfold positive in Hx. lia. Qed.

Lemma demand_zero_nil (queue : list PendingAmount) :
  Forall positive queue → demand queue ≤ 0 → queue = [].
Proof.
  intros H. destruct H as [|x l Hx Hl]; [reflexivity |]. simpl.
  pose proof (demand_nonneg l Hl). unfold positive in Hx. lia.
Qed.

Lemma fill_spec (capacity : Z) (queue : list PendingAmount) pushed q' :
  Forall positive queue → fill capacity queue = (pushed, q') →
  Forall positive q'
  ∧ Forall (fun s => 0 < amount s) pushed
  ∧ seedTotal pushed = Z.min (Z.max 0 capacity) (demand queue)
  ∧ demand q' = demand queue - seedTotal pushed
  ∧ (∀ X, Splits X q' → Splits (pushed ++ X) queue).
Proof.
  intros Hq; revert capacity pushed q'.
  induction Hq as [|target q Ht Hq IH]; intros capacity pushed q' H; simpl in H.
  - injection H as <- <-. repeat split; try constructor; simpl; try lia. auto.
  - pose proof (demand_nonneg q Hq) as Hd. destruct target as [l a].
    unfold positive in Ht. simpl in *.
    destruct (0 <? capacity) eqn:Ec.
    + destruct (a <=? capacity) eqn:Ea.
      * replace (a - a <=? 0) with true in H by lia.
        destruct (fill (capacity - a) q) as [pushed0 q0] eqn:Hf.
        injection H as <- <-.
        destruct (IH _ _ _ Hf) as (H1 & H2 & H3 & H4 & H5).
        repeat split; try assumption; simpl.
        -- constructor; [simpl; lia | assumption].
        -- rewrite H3. lia.
        -- rewrite H4. lia.
        -- intros X HX. apply Splits_whole. by apply H5.
      * replace (a - capacity <=? 0) with false in H by lia.
        injection H as <- <-.
        repeat split; simpl; try lia.
        -- constructor; [unfold positive; simpl; lia | assumption].
        -- repeat constructor. simpl. lia.
        -- intros X HX. apply Splits_part; [lia | assumption].
    + injection H as <- <-.
      repeat split; simpl; try lia; auto;
        try (constructor; [unfold positive; simpl; lia | assumption]).
Qed.

(** In [fill], a target that stays at the front of the queue has taken
    the whole capacity: the [while] loop of the source ends there. *)
Lemma fill_stay (capacity : Z) (target : PendingAmount) :
  0 < capacity →
  let allocation := if p_amount target <=? capacity then p_amount target else capacity in
  0 < p_amount target - allocation → capacity - allocation = 0.
Proof. intros Hc. simpl. destruct (p_amount target <=? capacity) eqn:E; lia. Qed.

Lemma zip_with_addSeeds_nil (spends : list Spend) :
  zip_with addSeeds spends (replicate (length spends) []) = spends.
Proof.
  induction spends as [|s l IH]; simpl; [reflexivity |]. by rewrite addSeeds_nil, IH.
Qed.

Lemma concat_replicate_nil {A} (n : nat) : concat (replicate n (@nil A)) = [].
Proof. induction n; simpl; auto. Qed.

Lemma amountsLoop_spec (spends : list Spend) (queue : list PendingAmount) spends' q' :
  Forall positive queue → amountsLoop spends queue = (spends', q') →
  ∃ pushed : list (list Seed),
    length pushed = length spends
    ∧ spends' = zip_with addSeeds spends pushed
    ∧ Forall2 (fun s ps => seedTotal ps ≤ room s ∧ Forall (fun x => 0 < amount x) ps)
        spends pushed
    ∧ Forall positive q'
    ∧ demand q' = Z.max 0 (demand queue - totalRoom spends)
    ∧ (∀ X, Splits X q' → Splits (concat pushed ++ X) queue).
Proof.
  revert queue spends' q'; induction spends as [|s rest IH]; intros queue spends' q' Hq H.
  - simpl in H. injection H as <- <-. exists []. simpl.
    pose proof (demand_nonneg queue Hq). repeat split; auto; try constructor; lia.
  - pose proof (demand_nonneg queue Hq) as Hd.
    pose proof (totalRoom_nonneg rest) as Hr. pose proof (room_nonneg s) as Hs.
    simpl in H. destruct (length queue =? 0)%nat eqn:El.
    + injection H as <- <-. destruct queue; [| discriminate].
      exists (replicate (length (s :: rest)) []).
      rewrite zip_with_addSeeds_nil, concat_replicate_nil, length_replicate.
      repeat split; auto; simpl; try lia.
      constructor; [simpl; split; [lia | constructor] |].
      clear. induction rest as [|s' l IH]; simpl; constructor; auto.
      split; [pose proof (room_nonneg s'); simpl; lia | constructor].
    + fold (getSpendUsed s) in H.
      destruct (assets s - getSpendUsed s <=? 0) eqn:Ec.
      * destruct (amountsLoop rest queue) as [rest' q0] eqn:Hl. injection H as <- <-.
        destruct (IH _ _ _ Hq Hl) as (pushed & H1 & H2 & H3 & H4 & H5 & H6).
        exists ([] :: pushed). simpl. rewrite addSeeds_nil, H1, <- H2.
        split; [reflexivity |]. split; [reflexivity |].
        split; [constructor; [split; [simpl; lia | constructor] | assumption] |].
        split; [assumption |].
        split; [rewrite H5; unfold room; lia | assumption].
      * destruct (fill (assets s - getSpendUsed s) queue) as [p1 q1] eqn:Hf.
        destruct (amountsLoop rest q1) as [rest' q2] eqn:Hl. injection H as <- <-.
        destruct (fill_spec _ _ _ _ Hq Hf) as (F1 & F2 & F3 & F4 & F5).
        destruct (IH _ _ _ F1 Hl) as (pushed & H1 & H2 & H3 & H4 & H5 & H6).
        exists (p1 :: pushed). simpl. rewrite H1, <- H2.
        split; [reflexivity |]. split; [reflexivity |].
        split; [constructor; [split; [unfold room; lia | assumption] | assumption] |].
        split; [assumption |].
        split; [rewrite H5, F4, F3; unfold room; lia |].
        intros X HX. rewrite <- app_assoc. apply F5. by apply H6.
Qed.

Lemma existsb_positive (queue : list PendingAmount) :
  Forall positive queue →
  existsb (fun item => 0 <? p_amount item) queue = negb (length queue =? 0)%nat.
Proof.
  intros H. destruct H as [|x l Hx Hl]; [reflexivity |]. simpl.
  unfold positive in Hx. by replace (0 <? p_amount x) with true by lia.
Qed.



End AllocSpec.

(** ** JSON: what is written parses back *)

Module JsonSpec.
Import Js Basics.

(** The value [JSON.parse] reads from the text [canonicalStringify]
    writes for [v]: a bigint as its tagged string, [undefined] array
    elements as [null], [undefined] properties gone. *)
Fixpoint jsonify (v : jsval) : jsval :=
  match v with
  | VUndef => VNull
  | VBig n => VStr ("n:" +:+ dec n)
  | VArr l => VArr (map jsonify l)
  | VObj props =>
      VObj (omap (fun kv => match kv with
                            | (k, VUndef) => None
                            | (k, x) => Some (k, jsonify x)
                            end) props)
  | _ => v
  end.

(** The keys of the defined properties. *)
Definition defined_keys (props : list (string * jsval)) : list string :=
  omap (fun kv => match kv with
                  | (k, VUndef) => None
                  | (k, _) => Some k
                  end) props.

(** Objects have distinct keys, at every depth. *)
Fixpoint distinct_keys (v : jsval) : Prop :=
  match v with
  | VArr l => foldr (fun x acc => distinct_keys x ∧ acc) True l
  | VObj props =>
      NoDup (defined_keys props)
      ∧ foldr (fun kv acc => distinct_keys (snd kv) ∧ acc) True props
  | _ => True
  end.

(** The fuel the parser needs for the text of [v]. *)
Fixpoint need (v : jsval) : nat :=
  match v with
  | VArr l => S (foldr (fun x acc => S (need x + acc)) O l)
  | VObj props =>
      S (foldr (fun kv acc => match kv with
                              | (_, VUndef) => acc
                              | (_, x) => S (need x + acc)
                              end) O props)
  | _ => 1
  end.

(** [v] as [importTx] gets it back: [undefined] properties gone,
    [undefined] array elements [null], the rest as it is. *)
Fixpoint strip (v : jsval) : jsval :=
  match v with
  | VUndef => VNull
  | VArr l => VArr (map strip l)
  | VObj props =>
      VObj (omap (fun kv => match kv with
                            | (k, VUndef) => None
                            | (k, x) => Some (k, strip x)
                            end) props)
  | _ => v
  end.

(** No string value of [v] starts with the bigint tag [n:]. *)
Fixpoint untagged (v : jsval) : Prop :=
  match v with
  | VStr s => String.prefix "n:" s = false
  | VArr l => foldr (fun x acc => untagged x ∧ acc) True l
  | VObj props => foldr (fun kv acc => untagged (snd kv) ∧ acc) True props
  | _ => True
  end.

(** What may follow a value in a text. *)
Definition delimited (rest : string) : Prop :=
  match rest with
  | EmptyString => True
  | String c _ => c = ","%char ∨ c = "]"%char ∨ c = "}"%char
  end.

#[local] Arguments String.append !s1 s2 : simpl nomatch.

Lemma append_assoc (a b c : string) : (a +:+ b) +:+ c = a +:+ (b +:+ c).
Proof. induction a as [|x a IH]; simpl; [reflexivity | f_equal; exact IH]. Qed.

Lemma append_nil_r (a : string) : a +:+ "" = a.
Proof. induction a as [|x a IH]; simpl; [reflexivity | f_equal; exact IH]. Qed.

Lemma length_append (a b : string) :
  String.length (a +:+ b) = (String.length a + String.length b)%nat.
Proof. induction a as [|x a IH]; simpl; [reflexivity | f_equal; exact IH]. Qed.

(** *** Strings *)

Lemma parse_escape (s rest : string) :
  parse_string_body (escape s +:+ dquote +:+ rest) = Some (s, rest).
Proof.
  induction s as [|c s IH]; [reflexivity |].
  change (escape (String c s)) with (escape_char c +:+ escape s).
  rewrite append_assoc.
  remember (dquote +:+ rest) as tail eqn:Etail.
  destruct c as [[] [] [] [] [] [] [] []];
    match goal with
    | |- context [escape_char ?c] =>
        let e := eval vm_compute in (escape_char c) in
        change (escape_char c) with e
    end;
    simpl; rewrite IH; reflexivity.
Qed.

(** *** Numbers *)

Definition no_digit_head (rest : string) : Prop :=
  match rest with
  | EmptyString => True
  | String c _ => digit_of c = None
  end.

Lemma delimited_no_digit (rest : string) : delimited rest → no_digit_head rest.
Proof. destruct rest as [|c r]; simpl; [auto |]. by intros [->|[->| ->]]. Qed.

Lemma delimited_no_fraction (rest : string) : delimited rest → starts_fraction rest = false.
Proof. destruct rest as [|c r]; simpl; [auto |]. by intros [->|[->| ->]]. Qed.

Lemma scan_digits_uint (u : uint) (rest : string) :
  no_digit_head rest →
  scan_digits (DecimalString.NilEmpty.string_of_uint u +:+ rest) = (u, rest).
Proof.
  intros Hr. induction u; simpl; try (rewrite IHu; reflexivity).
  destruct rest as [|c r]; simpl in *; [reflexivity | by rewrite Hr].
Qed.

(** The decimal digits of a positive number start with a digit from 1
    to 9. *)
Lemma to_uint_head (p : positive) :
  match Pos.to_uint p with
  | Nil | D0 _ => False
  | _ => True
  end.
Proof.
  pose proof (DecimalPos.Unsigned.to_of (Pos.to_uint p)) as Hn.
  rewrite DecimalPos.Unsigned.of_to in Hn. simpl in Hn.
  pose proof (DecimalPos.Unsigned.to_uint_nonzero p) as Hz.
  pose proof (DecimalPos.Unsigned.to_uint_nonnil p) as Hnil.
  destruct (Pos.to_uint p) as [|d| | | | | | | | |] eqn:E; try exact I; [congruence |].
  destruct (uint_eq_dec (nzhead (D0 d)) Nil) as [H0|H0].
  - apply DecimalFacts.unorm_0 in H0. congruence.
  - rewrite (DecimalFacts.unorm_nzhead _ H0) in Hn.
    exact (DecimalFacts.nzhead_nonzero (D0 d) d (eq_sym Hn)).
Qed.

Lemma dec_pos (p : positive) : dec (Zpos p) = DecimalString.NilEmpty.string_of_uint (Pos.to_uint p).
Proof.
  unfold dec. simpl. pose proof (to_uint_head p) as H.
  by destruct (Pos.to_uint p).
Qed.

Lemma dec_neg (p : positive) :
  dec (Zneg p) = String "-" (DecimalString.NilEmpty.string_of_uint (Pos.to_uint p)).
Proof.
  unfold dec. simpl. pose proof (to_uint_head p) as H.
  by destruct (Pos.to_uint p).
Qed.

(** The text of a number starts with a digit or with the minus sign. *)
Definition number_head (s : string) : Prop :=
  match s with
  | String c _ => digit_of c ≠ None ∨ c = "-"%char
  | EmptyString => False
  end.

Lemma uint_head_digit (u : uint) (rest : string) :
  u ≠ Nil →
  match DecimalString.NilEmpty.string_of_uint u +:+ rest with
  | String c _ => digit_of c ≠ None
  | EmptyString => False
  end.
Proof. destruct u; simpl; congruence. Qed.

Lemma digit_not_minus (c : ascii) : digit_of c ≠ None → Ascii.eqb c "-" = false.
Proof. destruct c as [[] [] [] [] [] [] [] []]; simpl; congruence. Qed.

Lemma parse_number_uint (u : uint) (rest : string) (neg : bool) :
  match u with Nil | D0 _ => False | _ => True end →
  delimited rest →
  (let '(u', r) := scan_digits (DecimalString.NilEmpty.string_of_uint u +:+ rest) in
   match u' with
   | Nil => None
   | D0 (D0 _ | D1 _ | D2 _ | D3 _ | D4 _ | D5 _ | D6 _ | D7 _ | D8 _ | D9 _) => None
   | _ => if starts_fraction r then None
          else Some (Z.of_int (if neg then Neg u' else Pos u'), r)
   end) = Some (Z.of_int (if neg then Neg u else Pos u), rest).
Proof.
  intros Hu Hd. rewrite scan_digits_uint by (by apply delimited_no_digit).
  rewrite (delimited_no_fraction _ Hd). by destruct u.
Qed.

Lemma parse_number_dec (n : Z) (rest : string) :
  delimited rest → parse_number (dec n +:+ rest) = Some (n, rest).
Proof.
  intros Hd. destruct n as [|p|p].
  - change (dec 0) with "0". unfold parse_number. simpl.
    pose proof (delimited_no_digit _ Hd) as Hn.
    pose proof (delimited_no_fraction _ Hd) as Hf.
    destruct rest as [|c r]; simpl in *; [reflexivity |].
    rewrite Hn. simpl. by rewrite Hf.
  - rewrite dec_pos. unfold parse_number.
    pose proof (to_uint_head p) as Hh.
    pose proof (uint_head_digit (Pos.to_uint p) rest) as Hc.
    pose proof (parse_number_uint (Pos.to_uint p) rest false Hh Hd) as Hp.
    pose proof (DecimalZ.of_to (Zpos p)) as Hz. unfold Z.to_int in Hz.
    destruct (DecimalString.NilEmpty.string_of_uint (Pos.to_uint p) +:+ rest) as [|c s0];
      [exfalso; apply Hc; by destruct (Pos.to_uint p) |].
    rewrite digit_not_minus by (apply Hc; by destruct (Pos.to_uint p)).
    rewrite Hp. by rewrite Hz.
  - rewrite dec_neg. unfold parse_number.
    pose proof (to_uint_head p) as Hh.
    pose proof (parse_number_uint (Pos.to_uint p) rest true Hh Hd) as Hp.
    pose proof (DecimalZ.of_to (Zneg p)) as Hz. unfold Z.to_int in Hz.
    simpl String.append. cbv beta iota. change (Ascii.eqb "-" "-") with true.
    cbv beta iota. rewrite Hp. by rewrite Hz.
Qed.

Lemma dec_head (n : Z) (rest : string) : number_head (dec n +:+ rest).
Proof.
  destruct n as [|p|p].
  - simpl. left. discriminate.
  - rewrite dec_pos. pose proof (to_uint_head p) as Hh.
    pose proof (uint_head_digit (Pos.to_uint p) rest) as Hc.
    unfold number_head.
    destruct (DecimalString.NilEmpty.string_of_uint (Pos.to_uint p) +:+ rest);
      [apply Hc | left; apply Hc]; by destruct (Pos.to_uint p).
  - rewrite dec_neg. simpl. by right.
Qed.

(** *** Values *)

Section jsval_induction.
Variable P : jsval → Prop.
Hypothesis HUndef : P VUndef.
Hypothesis HNull : P VNull.
Hypothesis HBool : ∀ b, P (VBool b).
Hypothesis HNum : ∀ n, P (VNum n).
Hypothesis HBig : ∀ n, P (VBig n).
Hypothesis HStr : ∀ s, P (VStr s).
Hypothesis HArr : ∀ l, Forall P l → P (VArr l).
Hypothesis HObj : ∀ props, Forall (fun kv => P (snd kv)) props → P (VObj props).

Fixpoint jsval_nested_ind (v : jsval) : P v :=
    match v with
    | VUndef => HUndef
    | VNull => HNull
    | VBool b => HBool b
    | VNum n => HNum n
    | VBig n => HBig n
    | VStr s => HStr s
    | VArr l =>
        HArr l ((fix go (l : list jsval) : Forall P l :=
                   match l with
                   | [] => @List.Forall_nil _ P
                   | x :: l' => @List.Forall_cons _ P x l' (jsval_nested_ind x) (go l')
                   end) l)
    | VObj props =>
        HObj props
          ((fix go (l : list (string * jsval)) : Forall (fun kv => P (snd kv)) l :=
              match l with
              | [] => @List.Forall_nil _ _
              | kv :: l' =>
                  @List.Forall_cons _ (fun kv => P (snd kv)) kv l'
                    (match kv return P (snd kv) with (k, x) => jsval_nested_ind x end)
                    (go l')
              end) props)
    end.
End jsval_induction.

Lemma strip_prefix_append (p r : string) : strip_prefix p (p +:+ r) = Some r.
Proof.
  unfold strip_prefix.
  assert (String.prefix p (p +:+ r) = true) as ->.
  { induction p as [|c p IH]; simpl; [by destruct r |].
    destruct (ascii_dec c c); [assumption | contradiction]. }
  f_equal. rewrite length_append.
  replace (String.length p + String.length r - String.length p)%nat
    with (String.length r) by lia.
  induction p as [|c p IH]; simpl; [| assumption].
  clear. induction r as [|c r IH]; simpl; [reflexivity | by rewrite IH].
Qed.

(** The first character of the text of a value opens no other
    construct: it is none of the closing brackets and no comma. *)
Definition value_head (s : string) : Prop :=
  match s with
  | String c _ => c ≠ "]"%char ∧ c ≠ "}"%char ∧ c ≠ ","%char
  | EmptyString => False
  end.

Lemma number_head_value (s : string) : number_head s → value_head s.
Proof.
  destruct s as [|c s]; simpl; [auto |].
  destruct c as [[] [] [] [] [] [] [] []]; simpl; intros [H|H];
    try congruence; repeat split; discriminate.
Qed.

Lemma stringify_head (v : jsval) (rest : string) :
  value_head (canonicalStringify v +:+ rest).
Proof.
  destruct v as [| |[]|n|n|s|l|props]; simpl; try (repeat split; discriminate).
  apply number_head_value, dec_head.
Qed.

Lemma value_head_starts (s : string) (c : ascii) :
  value_head s → c = "]"%char ∨ c = "}"%char ∨ c = ","%char → starts_with c s = false.
Proof.
  destruct s as [|c' s]; simpl; [auto |]. intros (H1 & H2 & H3) Hc.
  apply Ascii.eqb_neq. destruct Hc as [->|[->| ->]]; assumption.
Qed.

(** A text that starts like a number is read as a number. *)
Lemma parse_value_number (fuel : nat) (s : string) :
  number_head s →
  parse_value (S fuel) s = (parse_number s ≫= fun nr => Some (VNum (fst nr), snd nr)).
Proof.
  destruct s as [|c s]; simpl; [contradiction |].
  intros H.
  assert ((N_of_ascii c =? 34)%N = false ∧ Ascii.eqb c "[" = false
          ∧ Ascii.eqb c "{" = false ∧ Ascii.eqb c "n" = false
          ∧ Ascii.eqb c "t" = false ∧ Ascii.eqb c "f" = false) as (-> & -> & -> & -> & -> & ->).
  { destruct c as [[] [] [] [] [] [] [] []]; simpl in H; destruct H as [H|H];
      try congruence; repeat split; reflexivity. }
  destruct (parse_number (String c s)) as [[n r]|]; reflexivity.
Qed.

(** The text of a value, whatever follows it, is read back as the value. *)
Definition parses (x : jsval) : Prop :=
  distinct_keys x → ∀ fuel rest, (need x ≤ fuel)%nat → delimited rest →
  parse_value fuel (canonicalStringify x +:+ rest) = Some (jsonify x, rest).

Definition member_text (kv : string * jsval) : option string :=
  match kv with
  | (k, VUndef) => None
  | (k, x) => Some (quote k +:+ ":" +:+ canonicalStringify x)
  end.

Definition member_json (kv : string * jsval) : option (string * jsval) :=
  match kv with
  | (k, VUndef) => None
  | (k, x) => Some (k, jsonify x)
  end.

Definition member_strip (kv : string * jsval) : option (string * jsval) :=
  match kv with
  | (k, VUndef) => None
  | (k, x) => Some (k, strip x)
  end.

Definition member_need (kv : string * jsval) (acc : nat) : nat :=
  match kv with
  | (_, VUndef) => acc
  | (_, x) => S (need x + acc)
  end.

Lemma member_defined (k : string) (x : jsval) :
  is_undef x = false →
  member_text (k, x) = Some (quote k +:+ ":" +:+ canonicalStringify x)
  ∧ member_json (k, x) = Some (k, jsonify x)
  ∧ (∀ acc, member_need (k, x) acc = S (need x + acc))
  ∧ (∀ ks, defined_keys ((k, x) :: ks) = k :: defined_keys ks).
Proof. destruct x; simpl; try discriminate; auto. Qed.

Lemma member_undefined (k : string) (x : jsval) :
  is_undef x = true →
  member_text (k, x) = None ∧ member_json (k, x) = None
  ∧ (∀ acc, member_need (k, x) acc = acc)
  ∧ (∀ ks, defined_keys ((k, x) :: ks) = defined_keys ks).
Proof. destruct x; simpl; try discriminate; auto. Qed.

Lemma omap_cons_eq {A B} (f : A → option B) (x : A) (l : list A) :
  omap f (x :: l) = match f x with Some y => y :: omap f l | None => omap f l end.
Proof. reflexivity. Qed.

Lemma parse_elements_join (l : list jsval) :
  l ≠ [] → Forall parses l →
  foldr (fun x acc => distinct_keys x ∧ acc) True l →
  ∀ fuel rest, (foldr (fun x acc => S (need x + acc)) O l ≤ fuel)%nat →
  parse_elements fuel (join "," (map canonicalStringify l) +:+ String "]" rest)
  = Some (map jsonify l, rest).
Proof.
  intros Hne HF. induction HF as [|x l Hx Hl IH]; [congruence |].
  intros [Hdx Hdl] fuel rest Hfuel. simpl in Hfuel.
  destruct fuel as [|fuel]; [lia |].
  destruct l as [|y l'].
  - simpl. rewrite (Hx Hdx) by (simpl; auto; lia). simpl. reflexivity.
  - change (join "," (map canonicalStringify (x :: y :: l')))
      with (canonicalStringify x +:+ "," +:+ join "," (map canonicalStringify (y :: l'))).
    rewrite append_assoc. simpl String.append at 2.
    cbn [parse_elements]. rewrite (Hx Hdx) by (simpl; auto; lia).
    cbn [mbind option_bind starts_with tail]. change (Ascii.eqb "," ",") with true.
    cbv beta iota. rewrite IH; [reflexivity | discriminate | assumption |].
    simpl in *. lia.
Qed.

Lemma obj_set_fresh (props : list (string * jsval)) (k : string) (v : jsval) :
  k ∉ map fst props → obj_set props k v = props ++ [(k, v)].
Proof.
  intros Hk. unfold obj_set.
  assert (has_key k props = false) as ->; [| reflexivity].
  induction props as [|[k' v'] props IH]; [reflexivity |]. simpl in *.
  destruct (String.eqb_spec k' k) as [->|Hne]; [exfalso; apply Hk; by left |].
  simpl. apply IH. intros Hin. apply Hk. by right.
Qed.

Lemma obj_of_members_distinct (members : list (string * jsval)) :
  NoDup (map fst members) → obj_of_members members = members.
Proof.
  unfold obj_of_members.
  assert (∀ acc, NoDup (map fst (acc ++ members)) →
                 foldl (fun acc kv => obj_set acc (fst kv) (snd kv)) acc members
                 = acc ++ members) as H; [| apply (H [])].
  induction members as [|[k v] members IH]; intros acc Hnd; simpl.
  - by rewrite app_nil_r.
  - rewrite obj_set_fresh.
    + rewrite IH; rewrite <- app_assoc; [reflexivity | assumption].
    + rewrite map_app in Hnd. apply NoDup_app in Hnd as (_ & Hd & _).
      intros Hin. apply (Hd k Hin). by left.
Qed.

Lemma member_json_keys (props : list (string * jsval)) :
  map fst (omap member_json props) = defined_keys props.
Proof.
  induction props as [|[k x] props IH]; [reflexivity |].
  destruct (is_undef x) eqn:E.
  - destruct (member_undefined k x E) as (_ & H2 & _ & H4).
    rewrite omap_cons_eq, H2, H4. exact IH.
  - destruct (member_defined k x E) as (_ & H2 & _ & H4).
    rewrite omap_cons_eq, H2, H4. simpl. by rewrite IH.
Qed.

Lemma member_text_nil (props : list (string * jsval)) :
  omap member_text props = [] → omap member_json props = [].
Proof.
  induction props as [|[k x] props IH]; [reflexivity |].
  destruct (is_undef x) eqn:E.
  - destruct (member_undefined k x E) as (H1 & H2 & _).
    rewrite !omap_cons_eq, H1, H2. exact IH.
  - destruct (member_defined k x E) as (H1 & _). rewrite omap_cons_eq, H1. discriminate.
Qed.

Lemma parse_members_join (props : list (string * jsval)) :
  omap member_text props ≠ [] →
  Forall (fun kv => parses (snd kv)) props →
  foldr (fun kv acc => distinct_keys (snd kv) ∧ acc) True props →
  ∀ fuel rest, (foldr member_need O props ≤ fuel)%nat →
  parse_members fuel (join "," (omap member_text props) +:+ String "}" rest)
  = Some (omap member_json props, rest).
Proof.
  intros Hne HF. induction HF as [|[k x] props Hx Hprops IH]; [exfalso; by apply Hne |].
  intros [Hdx Hdp] fuel rest Hfuel. simpl in Hx, Hdx.
  change (foldr member_need O ((k, x) :: props))
    with (member_need (k, x) (foldr member_need O props)) in Hfuel.
  destruct (is_undef x) eqn:E.
  - destruct (member_undefined k x E) as (H1 & H2 & H3 & _).
    rewrite H3 in Hfuel. rewrite omap_cons_eq, H1 in Hne. rewrite !omap_cons_eq, H1, H2.
    by apply IH.
  - destruct (member_defined k x E) as (H1 & H2 & H3 & _).
    rewrite H3 in Hfuel. rewrite !omap_cons_eq, H1, H2. clear Hne.
    destruct fuel as [|fuel]; [lia |].
    destruct (omap member_text props) as [|m ms] eqn:Em.
    + rewrite (member_text_nil _ Em).
      change (join "," [quote k +:+ ":" +:+ canonicalStringify x])
        with (quote k +:+ ":" +:+ canonicalStringify x).
      unfold quote. rewrite !append_assoc.
      change (dquote +:+ escape k +:+ dquote +:+ ":" +:+ canonicalStringify x
              +:+ String "}" rest)
        with (String (ascii_of_N 34)
                (escape k +:+ dquote +:+ String ":" (canonicalStringify x +:+ String "}" rest))).
      cbn [parse_members starts_with tail].
      change (Ascii.eqb (ascii_of_N 34) (ascii_of_N 34)) with true. cbv beta iota.
      rewrite parse_escape. cbn [mbind option_bind expect].
      change (Ascii.eqb ":" ":") with true. cbv beta iota. cbn [mbind option_bind].
      rewrite (Hx Hdx) by (simpl; auto; lia). reflexivity.
    + change (join "," ((quote k +:+ ":" +:+ canonicalStringify x) :: m :: ms))
        with ((quote k +:+ ":" +:+ canonicalStringify x) +:+ "," +:+ join "," (m :: ms)).
      unfold quote. rewrite !append_assoc.
      change (dquote +:+ escape k +:+ dquote +:+ ":" +:+ canonicalStringify x
              +:+ "," +:+ join "," (m :: ms) +:+ String "}" rest)
        with (String (ascii_of_N 34)
                (escape k +:+ dquote
                 +:+ String ":" (canonicalStringify x
                                 +:+ String "," (join "," (m :: ms) +:+ String "}" rest)))).
      cbn [parse_members starts_with tail].
      change (Ascii.eqb (ascii_of_N 34) (ascii_of_N 34)) with true. cbv beta iota.
      rewrite parse_escape. cbn [mbind option_bind expect].
      change (Ascii.eqb ":" ":") with true. cbv beta iota. cbn [mbind option_bind].
      rewrite (Hx Hdx) by (simpl; auto; lia).
      cbn [mbind option_bind starts_with tail]. change (Ascii.eqb "," ",") with true.
      cbv beta iota. rewrite IH; [reflexivity | discriminate | assumption | lia].
Qed.

Lemma parse_quoted (fuel : nat) (s rest : string) :
  parse_value (S fuel) (quote s +:+ rest) = Some (VStr s, rest).
Proof.
  unfold quote. rewrite !append_assoc.
  change (dquote +:+ escape s +:+ dquote +:+ rest)
    with (String (ascii_of_N 34) (escape s +:+ dquote +:+ rest)).
  cbn [parse_value]. change (N_of_ascii (ascii_of_N 34) =? 34)%N with true.
  cbv beta iota. by rewrite parse_escape.
Qed.

Lemma parse_literals (fuel : nat) (rest : string) :
  parse_value (S fuel) ("null" +:+ rest) = Some (VNull, rest)
  ∧ parse_value (S fuel) ("true" +:+ rest) = Some (VBool true, rest)
  ∧ parse_value (S fuel) ("false" +:+ rest) = Some (VBool false, rest).
Proof.
  change ("null" +:+ rest) with (String "n" ("ull" +:+ rest)).
  change ("true" +:+ rest) with (String "t" ("rue" +:+ rest)).
  change ("false" +:+ rest) with (String "f" ("alse" +:+ rest)).
  remember ("ull" +:+ rest) as t1 eqn:E1. remember ("rue" +:+ rest) as t2 eqn:E2.
  remember ("alse" +:+ rest) as t3 eqn:E3.
  cbn -[strip_prefix]. subst. by rewrite !strip_prefix_append.
Qed.

Lemma parse_value_stringify (v : jsval) : parses v.
Proof.
  induction v as [| |b|n|n|s|l IH|props IH] using jsval_nested_ind;
    intros Hd fuel rest Hfuel Hrest; (destruct fuel as [|fuel]; [simpl in Hfuel; lia |]).
  - apply parse_literals.
  - apply parse_literals.
  - destruct b; apply parse_literals.
  - change (canonicalStringify (VNum n)) with (dec n).
    rewrite parse_value_number by apply dec_head.
    by rewrite parse_number_dec.
  - apply parse_quoted.
  - apply parse_quoted.
  - simpl in Hd, Hfuel.
    change (canonicalStringify (VArr l))
      with ("[" +:+ join "," (map canonicalStringify l) +:+ "]").
    rewrite !append_assoc.
    change ("[" +:+ join "," (map canonicalStringify l) +:+ "]" +:+ rest)
      with (String "[" (join "," (map canonicalStringify l) +:+ String "]" rest)).
    destruct l as [|x l'].
    + reflexivity.
    + cbn [parse_value]. change (N_of_ascii "[" =? 34)%N with false.
      change (Ascii.eqb "[" "[") with true. cbv beta iota.
      assert (starts_with "]"
                (join "," (map canonicalStringify (x :: l')) +:+ String "]" rest) = false)
        as ->.
      { apply value_head_starts; [| by left].
        destruct l' as [|y l'']; simpl map; cbn [join].
        - apply stringify_head.
        - rewrite append_assoc. apply stringify_head. }
      rewrite parse_elements_join; [reflexivity | discriminate | assumption | assumption |].
      lia.
  - simpl in Hd. destruct Hd as [Hnd Hd].
    change (need (VObj props)) with (S (foldr member_need O props)) in Hfuel.
    change (canonicalStringify (VObj props))
      with ("{" +:+ join "," (omap member_text props) +:+ "}").
    change (jsonify (VObj props)) with (VObj (omap member_json props)).
    rewrite !append_assoc.
    change ("{" +:+ join "," (omap member_text props) +:+ "}" +:+ rest)
      with (String "{" (join "," (omap member_text props) +:+ String "}" rest)).
    cbn [parse_value]. change (N_of_ascii "{" =? 34)%N with false.
    change (Ascii.eqb "{" "[") with false. change (Ascii.eqb "{" "{") with true.
    cbv beta iota.
    destruct (omap member_text props) as [|m ms] eqn:Em.
    + rewrite (member_text_nil _ Em). reflexivity.
    + assert (starts_with "}" (join "," (m :: ms) +:+ String "}" rest) = false) as ->.
      { apply value_head_starts; [| right; by left].
        assert (value_head (m +:+ String "," (join "," ms +:+ String "}" rest))
                ∧ value_head (m +:+ String "}" rest)) as [Hm1 Hm2].
        { clear -Em. induction props as [|[k x] props IH]; [discriminate |].
          rewrite omap_cons_eq in Em. destruct (member_text (k, x)) as [t|] eqn:Et.
          - injection Em as <- _. destruct x; simpl in Et; try discriminate;
              injection Et as <-; unfold quote; split; repeat split; discriminate.
          - by apply IH. }
        destruct ms as [|m' ms']; cbn [join]; [assumption |].
        by rewrite append_assoc. }
      rewrite <- Em. rewrite parse_members_join.
      * cbn [mbind option_bind]. rewrite obj_of_members_distinct; [reflexivity |].
        by rewrite member_json_keys.
      * rewrite Em. discriminate.
      * assumption.
      * assumption.
      * lia.
Qed.

(** The text is at least as long as the fuel the parser needs. *)
Lemma need_join_length {A} (f : A → string) (a : A → nat) (l : list A) :
  Forall (fun x => (a x ≤ String.length (f x))%nat) l →
  (foldr (fun x acc => S (a x + acc)) O l ≤ S (String.length (join "," (map f l))))%nat.
Proof.
  induction 1 as [|x l Hx Hl IH]; [simpl; lia |].
  destruct l as [|y l']; [simpl in *; lia |].
  change (join "," (map f (x :: y :: l'))) with (f x +:+ "," +:+ join "," (map f (y :: l'))).
  rewrite !length_append. simpl foldr in *.
  change (String.length ",") with 1%nat. lia.
Qed.

Lemma need_le_length (v : jsval) : (need v ≤ String.length (canonicalStringify v))%nat.
Proof.
  induction v as [| |b|n|n|s|l IH|props IH] using jsval_nested_ind;
    try (simpl; lia).
  - destruct b; simpl; lia.
  - simpl. pose proof (dec_head n "") as H. rewrite append_nil_r in H.
    destruct (dec n); [contradiction | simpl; lia].
  - change (canonicalStringify (VArr l))
      with ("[" +:+ join "," (map canonicalStringify l) +:+ "]").
    rewrite !length_append.
    pose proof (need_join_length canonicalStringify need l IH). simpl in *. lia.
  - change (canonicalStringify (VObj props))
      with ("{" +:+ join "," (omap member_text props) +:+ "}").
    rewrite !length_append.
    change (need (VObj props)) with (S (foldr member_need O props)).
    assert (foldr member_need O props
            ≤ S (String.length (join "," (omap member_text props))))%nat; [| simpl; lia].
    induction IH as [|[k x] props Hx Hprops IHp]; [simpl; lia |].
    change (foldr member_need O ((k, x) :: props))
      with (member_need (k, x) (foldr member_need O props)).
    rewrite omap_cons_eq. destruct (is_undef x) eqn:E.
    + destruct (member_undefined k x E) as (H1 & _ & H3 & _). by rewrite H1, H3.
    + destruct (member_defined k x E) as (H1 & _ & H3 & _). rewrite H1, H3.
      simpl in Hx.
      destruct (omap member_text props) as [|m ms].
      * cbn [join]. rewrite !length_append. simpl in *. lia.
      * change (join "," ((quote k +:+ ":" +:+ canonicalStringify x) :: m :: ms))
          with ((quote k +:+ ":" +:+ canonicalStringify x) +:+ "," +:+ join "," (m :: ms)).
        rewrite !length_append.
        change (String.length ":") with 1%nat. change (String.length ",") with 1%nat. lia.
Qed.

(** What [canonicalStringify] writes, [JSON.parse] reads back. *)
Lemma JSON_parse_stringify (v : jsval) :
  distinct_keys v → JSON_parse (canonicalStringify v) = Some (jsonify v).
Proof.
  intros Hd. unfold JSON_parse.
  pose proof (parse_value_stringify v Hd
                (2 * String.length (canonicalStringify v) + 2)%nat EmptyString) as H.
  rewrite append_nil_r in H. rewrite H; [reflexivity | | exact I].
  pose proof (need_le_length v). lia.
Qed.

(** Texts that differ only where values differ: the encoder is
    injective on values that print as themselves. *)
Lemma canonicalStringify_strings_inj (l1 l2 : list string) :
  canonicalStringify (VArr (map VStr l1)) = canonicalStringify (VArr (map VStr l2)) →
  l1 = l2.
Proof.
  intros H.
  assert (∀ l : list string, distinct_keys (VArr (map VStr l))) as Hd.
  { intros l. simpl. induction l; simpl; auto. }
  assert (∀ l : list string, jsonify (VArr (map VStr l)) = VArr (map VStr l)) as Hj.
  { intros l. simpl. f_equal. induction l as [|x l IH]; simpl; [reflexivity | by rewrite IH]. }
  pose proof (JSON_parse_stringify _ (Hd l1)) as H1.
  pose proof (JSON_parse_stringify _ (Hd l2)) as H2.
  rewrite H, H2, !Hj in H1. injection H1 as H1.
  revert l2 H H2 H1. induction l1 as [|x l1 IH]; intros [|y l2] _ _ H1; simpl in H1;
    try discriminate; [reflexivity |].
  injection H1 as -> H1. f_equal. symmetry.
  assert (map VStr l2 = map VStr l1) as Hm by assumption.
  clear -Hm. revert l1 Hm. induction l2 as [|a l2 IH]; intros [|b l1] Hm; simpl in Hm;
    try discriminate; [reflexivity |].
  injection Hm as -> Hm. f_equal. by apply IH.
Qed.

(** *** The reviver *)

Fixpoint no_space (s : string) : Prop :=
  match s with
  | String c s' => is_space c = false ∧ no_space s'
  | EmptyString => True
  end.

Lemma trim_no_space (s : string) : no_space s → trim s = s.
Proof.
  intros H. unfold trim.
  assert (trim_start s = s) as ->.
  { destruct s as [|c s]; [reflexivity |]. simpl in *. by destruct H as [-> _]. }
  induction s as [|c s IH]; [reflexivity |]. destruct H as [Hc Hs]. simpl.
  rewrite (IH Hs). destruct s; [by rewrite Hc | reflexivity].
Qed.

Lemma uint_no_space (u : uint) : no_space (DecimalString.NilEmpty.string_of_uint u).
Proof. induction u; simpl; auto. Qed.

Lemma decimal_digits_uint (u : uint) :
  u ≠ Nil → decimal_digits (DecimalString.NilEmpty.string_of_uint u) = Some u.
Proof.
  intros Hu. unfold decimal_digits.
  pose proof (scan_digits_uint u EmptyString I) as H. rewrite append_nil_r in H.
  rewrite H. by destruct u.
Qed.

Lemma BigInt_dec (n : Z) : BigInt (dec n) = Some n.
Proof.
  destruct n as [|p|p].
  - reflexivity.
  - rewrite dec_pos. unfold BigInt. rewrite trim_no_space by apply uint_no_space.
    pose proof (to_uint_head p) as Hh.
    pose proof (decimal_digits_uint (Pos.to_uint p)) as Hdd.
    pose proof (DecimalZ.of_to (Zpos p)) as Hz. unfold Z.to_int in Hz.
    assert (match DecimalString.NilEmpty.string_of_uint (Pos.to_uint p) with
            | String c _ => Ascii.eqb c "-" = false ∧ Ascii.eqb c "+" = false
                            ∧ Ascii.eqb c "0" = false
            | EmptyString => False
            end) as Hc by (by destruct (Pos.to_uint p)).
    destruct (DecimalString.NilEmpty.string_of_uint (Pos.to_uint p)) as [|c ds];
      [contradiction |].
    destruct Hc as (-> & -> & ->). simpl andb. cbv beta iota.
    rewrite Hdd by (by destruct (Pos.to_uint p)). cbn [mbind option_bind]. by rewrite Hz.
  - rewrite dec_neg. unfold BigInt.
    rewrite trim_no_space by (split; [reflexivity | apply uint_no_space]).
    pose proof (to_uint_head p) as Hh.
    pose proof (DecimalZ.of_to (Zneg p)) as Hz. unfold Z.to_int in Hz.
    change (Ascii.eqb "-" "-") with true. cbv beta iota.
    rewrite decimal_digits_uint by (by destruct (Pos.to_uint p)).
    cbn [mbind option_bind]. by rewrite Hz.
Qed.

Lemma revive_jsonify (v : jsval) : untagged v → revive (jsonify v) = Some (strip v).
Proof.
  induction v as [| |b|n|n|s|l IH|props IH] using jsval_nested_ind; intros Hu;
    try reflexivity.
  - change (jsonify (VBig n)) with (VStr ("n:" +:+ dec n)). cbn [revive].
    unfold revive_string. rewrite strip_prefix_append, BigInt_dec. reflexivity.
  - simpl in Hu. simpl. unfold revive_string, strip_prefix. by rewrite Hu.
  - simpl in Hu. cbn [jsonify revive strip].
    assert (mapO revive (map jsonify l) = Some (map strip l)) as ->; [| reflexivity].
    induction IH as [|x l Hx Hl IHl]; [reflexivity |]. destruct Hu as [Hux Hul].
    simpl. rewrite (Hx Hux). simpl. rewrite (IHl Hul). reflexivity.
  - simpl in Hu.
    change (jsonify (VObj props)) with (VObj (omap member_json props)).
    change (strip (VObj props)) with (VObj (omap member_strip props)).
    cbn [revive].
    assert (mapO (fun kv => match kv with
                            | (k, x) => y ← revive x; Some (k, y)
                            end) (omap member_json props)
            = Some (omap member_strip props)) as ->; [| reflexivity].
    induction IH as [|[k x] props Hx Hprops IHp]; [reflexivity |]. destruct Hu as [Hux Hup].
    simpl in Hx, Hux. specialize (IHp Hup). rewrite !omap_cons_eq.
    destruct (is_undef x) eqn:E.
    + destruct (member_undefined k x E) as (_ & H2 & _).
      rewrite H2. by destruct x.
    + destruct (member_defined k x E) as (_ & H2 & _). rewrite H2.
      assert (member_strip (k, x) = Some (k, strip x)) as -> by (by destruct x).
      cbn [mapO]. rewrite (Hx Hux). cbn [mbind option_bind]. rewrite IHp. reflexivity.
Qed.

(** The text of [v] read with the reviver of [importTx]. *)
Lemma JSON_parse_revive_stringify (v : jsval) :
  distinct_keys v → untagged v →
  JSON_parse_revive (canonicalStringify v) = Some (strip v).
Proof.
  intros Hd Hu. unfold JSON_parse_revive. rewrite (JSON_parse_stringify v Hd). simpl.
  by apply revive_jsonify.
Qed.

End JsonSpec.

(** ** Merging partially signed transactions *)

Module MergeSpec.
Import Js TxCore Crypto Helpers Basics SignSpec JsonSpec.


(** What [mergePartiallySignedTx] requires of a spend [sa] of [a] and the
    spend [sb] of [b] with the same note id, when [sa] is %pkh. *)
Definition pkhAgree (A B : PkhSeeds) : Prop :=
  threshold A = threshold B ∧ sort_strings (pkhs A) = sort_strings (pkhs B).

(** The spend a successful merge returns for [sa]. *)
Definition mergedWith (byNote : gmap string Spend) (sa sr : Spend) : Prop :=
  match byNote !! noteId sa with
  | None => sr = sa
  | Some sb =>
      kind (seeds sa) = kind (seeds sb)
      ∧ ∀ A, seeds sa = SeedsPkh A →
             ∃ B, seeds sb = SeedsPkh B ∧ pkhAgree A B
                  ∧ sr = mkSpend (noteId sa)
                           (SeedsPkh (mkPkhSeeds (threshold A) (pkhs A)
                                        (spread_signatures (signatures A) (signatures B))))
  end.


(** Bob signed the imported copy of the demo transaction. *)
Definition demoTx2 : Transaction :=
  Eval vm_compute in
    match signSpend demoTx1 demoNoteId (createMockSigner "bob-pubkey") MockCryptoProvider with
    | Ok tx => tx
    | Err _ => mkTx 0 None [] [] 0 ""
    end.

Lemma pkhs_differ_false (a b : list Hash) :
  pkhs_differ a b = false ↔ sort_strings a = sort_strings b.
Proof.
  unfold pkhs_differ. rewrite negb_false_iff, String.eqb_eq. split.
  - apply canonicalStringify_strings_inj.
  - by intros ->.
Qed.

Lemma kind_eqb_eq (a b : Kind) : kind_eqb a b = true ↔ a = b.
Proof. destruct a, b; simpl; split; congruence. Qed.

(** The map of the spends of [b]: the last spend with the note id. *)
Lemma bByNote_lookup (l : list Spend) (id : string) :
  bByNote l !! id = List.find (fun s => String.eqb (noteId s) id) (reverse l).
Proof.
  unfold bByNote. induction l as [|s l IH] using rev_ind; [apply lookup_empty |].
  rewrite foldl_app, reverse_app. simpl.
  destruct (String.eqb_spec (noteId s) id) as [->|Hne].
  - by rewrite lookup_insert_eq.
  - by rewrite lookup_insert_ne.
Qed.

Lemma bByNote_None (l : list Spend) (id : string) :
  bByNote l !! id = None ↔ Forall (fun s => noteId s ≠ id) l.
Proof.
  rewrite bByNote_lookup, <- (Forall_reverse _ l).
  induction (reverse l) as [|s r IH]; simpl.
  - split; [constructor | reflexivity].
  - destruct (String.eqb_spec (noteId s) id) as [E|E].
    + split; [discriminate | intros H; inversion H; contradiction].
    + rewrite IH. split; [by constructor | intros H; by inversion H].
Qed.

Lemma bByNote_Some (l : list Spend) (id : string) (sb : Spend) :
  bByNote l !! id = Some sb → sb ∈ l ∧ noteId sb = id.
Proof.
  rewrite bByNote_lookup. intros H. apply find_some in H as [Hin Heq].
  split; [| by apply String.eqb_eq].
  apply list_elem_of_In in Hin. by apply elem_of_reverse.
Qed.



Lemma mergeSpend_Ok (byNote : gmap string Spend) (sa sr : Spend) :
  mergeSpend byNote sa = Ok sr → mergedWith byNote sa sr.
Proof.
  unfold mergeSpend, mergedWith. destruct (byNote !! noteId sa) as [sb|];
    [| by intros [= <-]].
  destruct (kind_eqb (kind (seeds sa)) (kind (seeds sb))) eqn:Ek; simpl; [| discriminate].
  apply kind_eqb_eq in Ek. intros H. split; [assumption |].
  intros A HA. rewrite HA in *. destruct (seeds sb) as [B|pb|nb ib|]; try discriminate.
  exists B. split; [reflexivity |].
  destruct (threshold A =? threshold B) eqn:Et; simpl in H; [| discriminate].
  destruct (pkhs_differ (pkhs A) (pkhs B)) eqn:Ep; simpl in H; [discriminate |].
  injection H as <-. apply pkhs_differ_false in Ep.
  split; [split; [lia | assumption] | reflexivity].
Qed.





End MergeSpec.

(** ** Export and import *)

Module ExportSpec.
Import Js TxCore Crypto Helpers Basics BuildSpec SignSpec JsonSpec.

(** A string that [importTx] does not take for a tagged bigint. *)
Definition untagged_str (s : string) : Prop := String.prefix "n:" s = false.

Definition untagged_opt (o : option string) : Prop :=
  match o with Some s => untagged_str s | None => True end.

Fixpoint seeds_untagged (s : Seeds) : Prop :=
  match s with
  | SeedsPkh p =>
      Forall untagged_str (pkhs p)
      ∧ Forall (fun e => untagged_str (snd e)) (map_to_list (signatures p))
  | SeedsHax pre => untagged_opt pre
  | SeedsTim _ inner => seeds_untagged inner
  | SeedsBrn => True
  end.

(** No signature is filed under the key [__proto__]. *)
Fixpoint seeds_plain_keys (s : Seeds) : Prop :=
  match s with
  | SeedsPkh p => Forall (fun e => fst e ≠ proto_key) (map_to_list (signatures p))
  | SeedsTim _ inner => seeds_plain_keys inner
  | _ => True
  end.

(** The transactions that survive the tagged-string encoding: no string
    value (network, unsignedHash, note ids, pkhs, signatures, preimages,
    addresses, asset ids) starts with [n:], and no signature is filed
    under [__proto__]. *)
Definition exportable (tx : Transaction) : Prop :=
  untagged_opt (network tx)
  ∧ untagged_str (unsignedHash tx)
  ∧ Forall (fun s => untagged_str (noteId s) ∧ seeds_untagged (seeds s)
                     ∧ seeds_plain_keys (seeds s)) (spends tx)
  ∧ Forall (fun o => untagged_str (address o) ∧ untagged_opt (assetId o)) (outputs tx).

(** The properties of a signature dictionary, as values. *)
Definition entries (sigs : gmap PubKey Signature) : list (string * jsval) :=
  map (fun e => (fst e, VStr (snd e))) (map_to_list sigs).

(** The canonical form [deepCanonicalize] gives the typed values. *)
Fixpoint canon_seeds (s : Seeds) : jsval :=
  match s with
  | SeedsPkh p =>
      VObj [("kind", VStr "%pkh"); ("pkhs", VArr (map VStr (pkhs p)));
            ("signatures", VObj (sort_by fst (entries (signatures p))));
            ("threshold", VNum (threshold p))]
  | SeedsHax pre => VObj [("kind", VStr "%hax"); ("preimage", opt_str pre)]
  | SeedsTim nb inner =>
      VObj [("inner", canon_seeds inner); ("kind", VStr "%tim"); ("notBefore", VNum nb)]
  | SeedsBrn => VObj [("kind", VStr "%brn")]
  end.

Definition canon_spend (s : Spend) : jsval :=
  VObj [("noteId", VStr (noteId s)); ("seeds", canon_seeds (seeds s))].

Definition canon_output (o : Output) : jsval :=
  VObj [("address", VStr (address o)); ("amount", VBig (amount o));
        ("assetId", opt_str (assetId o))].

Definition canon_tx (tx : Transaction) : jsval :=
  VObj [("fee", VBig (fee tx));
        ("network", opt_str (network tx));
        ("outputs", VArr (map canon_output (outputs tx)));
        ("spends", VArr (map canon_spend (spends tx)));
        ("unsignedHash", VStr (unsignedHash tx));
        ("version", VNum (version tx))].

(** A transaction on the network named [n:7]. *)
Definition taggedNetworkTx : Transaction :=
  Eval vm_compute in
    match buildUnsignedTransaction
            (mkBuildArgs None (Some "n:7") [demoNote] [mkOutput "dest" 100000000 None] 0 None
               MockCryptoProvider) with
    | Ok tx => tx
    | Err _ => mkTx 0 None [] [] 0 ""
    end.

(** A transaction that pays to the address [n:x]. *)
Definition taggedAddressTx : Transaction :=
  Eval vm_compute in
    match buildUnsignedTransaction
            (mkBuildArgs None None [demoNote] [mkOutput "n:x" 100000000 None] 0 None
               MockCryptoProvider) with
    | Ok tx => tx
    | Err _ => mkTx 0 None [] [] 0 ""
    end.

(** A transaction with a signature attached under the key [__proto__],
    which its lock lists as it is. *)
Definition protoNote : Note :=
  createNote (LockPkh 1 [proto_key]) 5 "src" None MockCryptoProvider.

Definition protoKeyTx : Transaction :=
  Eval vm_compute in
    match buildUnsignedTransaction
            (mkBuildArgs None None [protoNote] [mkOutput "dest" 5 None] 0 None
               MockCryptoProvider) with
    | Ok tx =>
        match attachSignatureToSpend tx (noteIdFromName (name protoNote)) proto_key "sig"
                MockCryptoProvider with
        | Ok tx' => tx'
        | Err _ => tx
        end
    | Err _ => mkTx 0 None [] [] 0 ""
    end.

Abbreviation dc := (deepCanonicalizeWith false canonicalStringify) (only parsing).

Lemma filter_all {A} (P : A → Prop) `{∀ x, Decision (P x)} (l : list A) :
  Forall P l → filter P l = l.
Proof.
  induction 1 as [|x l Hx Hl IH]; [reflexivity |].
  rewrite filter_cons, decide_True by assumption. by rewrite IH.
Qed.

Lemma dc_strings (l : list string) : dc (VArr (map VStr l)) = VArr (map VStr l).
Proof. simpl. f_equal. induction l as [|x l IH]; simpl; [reflexivity | by rewrite IH]. Qed.

Lemma entries_strings (sigs : gmap PubKey Signature) (l : list (string * jsval)) :
  l ≡ₚ entries sigs → Forall (fun kv => ∃ s, snd kv = VStr s) l.
Proof.
  intros Hp. rewrite Hp. unfold entries. apply Forall_forall. intros kv Hin.
  apply list_elem_of_fmap in Hin as (e & -> & _). simpl. eauto.
Qed.

Lemma entries_keys (sigs : gmap PubKey Signature) :
  map fst (entries sigs) = map fst (map_to_list sigs).
Proof. unfold entries. rewrite map_map. reflexivity. Qed.

Lemma dc_signatures (sigs : gmap PubKey Signature) :
  Forall (fun e => fst e ≠ proto_key) (map_to_list sigs) →
  dc (js_of_signatures sigs) = VObj (sort_by fst (entries sigs)).
Proof.
  intros Hk. unfold js_of_signatures. fold (entries sigs). cbn [deepCanonicalizeWith].
  assert (map (fun kv => match kv with (k, x) => (k, dc x) end) (entries sigs) = entries sigs)
    as ->.
  { unfold entries. clear Hk. induction (map_to_list sigs) as [|e l IH]; [reflexivity |].
    cbn [map fst snd]. f_equal. exact IH. }
  f_equal. apply filter_all. rewrite (sort_by_perm fst (entries sigs)).
  unfold entries. apply Forall_forall. intros kv Hin.
  apply list_elem_of_fmap in Hin as (e & -> & He). simpl.
  rewrite Forall_forall in Hk. specialize (Hk e He).
  destruct (String.eqb_spec (fst e) proto_key); [contradiction | exact I].
Qed.

Lemma dc_seeds (s : Seeds) :
  seeds_plain_keys s → dc (js_of_seeds s) = canon_seeds s.
Proof.
  induction s as [p|pre|nb inner IH|]; intros Hk; simpl in Hk.
  - change (dc (js_of_seeds (SeedsPkh p)))
      with (VObj [("kind", VStr "%pkh"); ("pkhs", dc (VArr (map VStr (pkhs p))));
                  ("signatures", dc (js_of_signatures (signatures p)));
                  ("threshold", VNum (threshold p))]).
    by rewrite dc_strings, dc_signatures.
  - by destruct pre.
  - change (dc (js_of_seeds (SeedsTim nb inner)))
      with (VObj [("inner", dc (js_of_seeds inner)); ("kind", VStr "%tim");
                  ("notBefore", VNum nb)]).
    by rewrite IH.
  - reflexivity.
Qed.

Lemma dc_spend (s : Spend) :
  seeds_plain_keys (seeds s) → dc (js_of_spend s) = canon_spend s.
Proof.
  intros Hk.
  change (dc (js_of_spend s))
    with (VObj [("noteId", VStr (noteId s)); ("seeds", dc (js_of_seeds (seeds s)))]).
  by rewrite dc_seeds.
Qed.

Lemma dc_output (o : Output) : dc (js_of_output o) = canon_output o.
Proof. unfold js_of_output, canon_output. by destruct (assetId o). Qed.

Lemma dc_tx (tx : Transaction) :
  Forall (fun s => seeds_plain_keys (seeds s)) (spends tx) →
  deepCanonicalize (js_of_tx tx) = canon_tx tx.
Proof.
  intros Hk. unfold deepCanonicalize.
  change (dc (js_of_tx tx))
    with (VObj [("fee", VBig (fee tx));
                ("network", dc (opt_str (network tx)));
                ("outputs", VArr (map dc (map js_of_output (outputs tx))));
                ("spends", VArr (map dc (map js_of_spend (spends tx))));
                ("unsignedHash", VStr (unsignedHash tx));
                ("version", VNum (version tx))]).
  unfold canon_tx. repeat f_equal.
  - by destruct (network tx).
  - rewrite map_map. apply map_ext. intros o. apply dc_output.
  - rewrite map_map. apply map_ext_Forall. eapply Forall_impl; [exact Hk |].
    intros s Hs. by apply dc_spend.
Qed.

(** *** The canonical form has distinct keys and no tagged string *)

Lemma foldr_and_Forall {A} (P : A → Prop) (l : list A) :
  foldr (fun x acc => P x ∧ acc) True l ↔ Forall P l.
Proof.
  induction l as [|x l IH]; simpl; [split; auto |].
  rewrite IH. split; [intros [? ?]; by constructor | intros H; by inversion H].
Qed.

Lemma strings_defined (l : list (string * jsval)) :
  Forall (fun kv => ∃ s, snd kv = VStr s) l →
  defined_keys l = map fst l
  ∧ omap member_strip l = l
  ∧ omap (fun kv => match kv with
                    | (k, VUndef) => None
                    | (k, x) => Some (k, normalize x)
                    end) l = l.
Proof.
  induction 1 as [|[k x] l [s Hs] Hl (IH1 & IH2 & IH3)]; [by repeat split |].
  simpl in Hs. subst x. unfold defined_keys in *. rewrite !omap_cons_eq. simpl.
  by rewrite IH1, IH2, IH3.
Qed.

Lemma sorted_entries_strings (sigs : gmap PubKey Signature) :
  Forall (fun kv => ∃ s, snd kv = VStr s) (sort_by fst (entries sigs)).
Proof. apply (entries_strings sigs), sort_by_perm. Qed.

Lemma distinct_strings (l : list string) : distinct_keys (VArr (map VStr l)).
Proof. simpl. apply foldr_and_Forall, Forall_forall. intros x Hx.
  apply list_elem_of_fmap in Hx as (s & -> & _). exact I. Qed.

Lemma distinct_signatures (sigs : gmap PubKey Signature) :
  distinct_keys (VObj (sort_by fst (entries sigs))).
Proof.
  simpl. destruct (strings_defined _ (sorted_entries_strings sigs)) as (-> & _). split.
  - rewrite (sort_by_perm fst (entries sigs)), entries_keys.
    apply NoDup_fst_map_to_list.
  - apply (foldr_and_Forall (fun kv => distinct_keys (snd kv))).
    eapply Forall_impl; [apply sorted_entries_strings |]. by intros kv [s ->].
Qed.

Ltac distinct_literal :=
  simpl; apply (bool_decide_unpack (NoDup _)); vm_compute; exact I.

Lemma distinct_seeds (s : Seeds) : distinct_keys (canon_seeds s).
Proof.
  induction s as [p|pre|nb inner IH|].
  - pose proof (distinct_strings (pkhs p)) as H1.
    pose proof (distinct_signatures (signatures p)) as H2.
    split; [distinct_literal |]. cbn [foldr snd]. repeat split; auto.
    all: first [exact H1 | apply H2 | exact I].
  - destruct pre; (split; [distinct_literal | simpl; auto]).
  - split; [destruct inner; distinct_literal |].
    cbn [foldr snd]. repeat split; auto; exact I.
  - split; [distinct_literal | simpl; auto].
Qed.

Lemma distinct_tx (tx : Transaction) : distinct_keys (canon_tx tx).
Proof.
  split.
  - destruct (network tx); distinct_literal.
  - cbn [foldr snd]. repeat split; try exact I.
    + destruct (network tx); exact I.
    + apply (foldr_and_Forall distinct_keys), Forall_forall. intros x Hx.
      apply list_elem_of_fmap in Hx as (o & -> & _).
      unfold canon_output. destruct (assetId o); (split; [distinct_literal | simpl; auto]).
    + apply (foldr_and_Forall distinct_keys), Forall_forall. intros x Hx.
      apply list_elem_of_fmap in Hx as (sp & -> & _).
      split; [destruct (seeds sp); distinct_literal |].
      cbn [foldr snd]. repeat split; try exact I.
      apply distinct_seeds.
Qed.

Lemma untagged_strings (l : list string) :
  Forall untagged_str l → untagged (VArr (map VStr l)).
Proof.
  intros H. simpl. apply foldr_and_Forall, Forall_forall. intros x Hx.
  apply list_elem_of_fmap in Hx as (s & -> & Hs). rewrite Forall_forall in H. by apply H.
Qed.

Lemma untagged_signatures (sigs : gmap PubKey Signature) :
  Forall (fun e => untagged_str (snd e)) (map_to_list sigs) →
  untagged (VObj (sort_by fst (entries sigs))).
Proof.
  intros H. simpl. apply (foldr_and_Forall (fun kv => untagged (snd kv))).
  rewrite (sort_by_perm fst (entries sigs)). unfold entries. apply Forall_forall.
  intros kv Hin. apply list_elem_of_fmap in Hin as (e & -> & He).
  rewrite Forall_forall in H. by apply H.
Qed.

Lemma untagged_seeds (s : Seeds) : seeds_untagged s → untagged (canon_seeds s).
Proof.
  induction s as [p|pre|nb inner IH|]; simpl seeds_untagged; intros H.
  - destruct H as [H1 H2].
    pose proof (untagged_strings _ H1) as H1'.
    pose proof (untagged_signatures _ H2) as H2'.
    cbn [canon_seeds untagged foldr snd] in *. repeat split; auto.
  - destruct pre; simpl in *; repeat split; auto.
  - specialize (IH H). cbn [canon_seeds untagged foldr snd]. repeat split; auto.
  - simpl. repeat split; auto.
Qed.

Lemma untagged_tx (tx : Transaction) : exportable tx → untagged (canon_tx tx).
Proof.
  intros (Hn & Hh & Hs & Ho). cbn [canon_tx untagged foldr snd]. repeat split; auto.
  - destruct (network tx); simpl; auto.
  - apply (foldr_and_Forall untagged), Forall_forall. intros x Hx.
    apply list_elem_of_fmap in Hx as (o & -> & Hin).
    rewrite Forall_forall in Ho. destruct (Ho o Hin) as [Ha Has].
    unfold canon_output. cbn [untagged foldr snd]. repeat split; auto.
    destruct (assetId o); simpl; auto.
  - apply (foldr_and_Forall untagged), Forall_forall. intros x Hx.
    apply list_elem_of_fmap in Hx as (sp & -> & Hin).
    rewrite Forall_forall in Hs. destruct (Hs sp Hin) as (Hid & Hsd & _).
    unfold canon_spend. cbn [untagged foldr snd]. repeat split; auto.
    by apply untagged_seeds.
Qed.

(** *** The canonical form is structurally the value *)

Lemma norm_strings (l : list string) :
  normalize (strip (VArr (map VStr l))) = VArr (map VStr l)
  ∧ normalize (VArr (map VStr l)) = VArr (map VStr l).
Proof.
  simpl. split; f_equal; induction l as [|x l IH]; simpl; try reflexivity; by rewrite IH.
Qed.

Lemma norm_signatures (sigs : gmap PubKey Signature) :
  normalize (strip (VObj (sort_by fst (entries sigs)))) = VObj (sort_by fst (entries sigs))
  ∧ normalize (js_of_signatures sigs) = VObj (sort_by fst (entries sigs)).
Proof.
  split.
  - change (strip (VObj (sort_by fst (entries sigs))))
      with (VObj (omap member_strip (sort_by fst (entries sigs)))).
    destruct (strings_defined _ (sorted_entries_strings sigs)) as (_ & -> & H3).
    cbn [normalize]. rewrite H3. by rewrite sort_by_idem.
  - unfold js_of_signatures. fold (entries sigs). cbn [normalize].
    assert (Forall (fun kv => ∃ s, snd kv = VStr s) (entries sigs)) as H
      by (by apply (entries_strings sigs)).
    destruct (strings_defined _ H) as (_ & _ & ->). reflexivity.
Qed.

Lemma norm_seeds (s : Seeds) :
  normalize (strip (canon_seeds s)) = normalize (js_of_seeds s).
Proof.
  induction s as [p|pre|nb inner IH|].
  - destruct (norm_strings (pkhs p)) as [H1 H2].
    destruct (norm_signatures (signatures p)) as [H3 H4].
    change (normalize (strip (canon_seeds (SeedsPkh p))))
      with (VObj [("kind", VStr "%pkh");
                  ("pkhs", normalize (strip (VArr (map VStr (pkhs p)))));
                  ("signatures",
                    normalize (strip (VObj (sort_by fst (entries (signatures p))))));
                  ("threshold", VNum (threshold p))]).
    change (normalize (js_of_seeds (SeedsPkh p)))
      with (VObj [("kind", VStr "%pkh");
                  ("pkhs", normalize (VArr (map VStr (pkhs p))));
                  ("signatures", normalize (js_of_signatures (signatures p)));
                  ("threshold", VNum (threshold p))]).
    by rewrite H1, H2, H3, H4.
  - by destruct pre.
  - destruct inner as [p|pre|nb' inner'|];
      match goal with
      | |- normalize (strip (canon_seeds (SeedsTim _ ?i))) = _ =>
          change (normalize (strip (canon_seeds (SeedsTim nb i))))
            with (VObj [("inner", normalize (strip (canon_seeds i)));
                        ("kind", VStr "%tim"); ("notBefore", VNum nb)]);
          change (normalize (js_of_seeds (SeedsTim nb i)))
            with (VObj [("inner", normalize (js_of_seeds i));
                        ("kind", VStr "%tim"); ("notBefore", VNum nb)])
      end; by rewrite IH.
  - reflexivity.
Qed.

Lemma norm_spend (s : Spend) :
  normalize (strip (canon_spend s)) = normalize (js_of_spend s).
Proof.
  destruct s as [id sd]. pose proof (norm_seeds sd) as H.
  destruct sd as [p|pre|nb inner|];
    match goal with
    | |- normalize (strip (canon_spend (mkSpend _ ?i))) = _ =>
        change (normalize (strip (canon_spend (mkSpend id i))))
          with (VObj [("noteId", VStr id); ("seeds", normalize (strip (canon_seeds i)))]);
        change (normalize (js_of_spend (mkSpend id i)))
          with (VObj [("noteId", VStr id); ("seeds", normalize (js_of_seeds i))])
    end; by rewrite H.
Qed.

Lemma norm_output (o : Output) :
  normalize (strip (canon_output o)) = normalize (js_of_output o).
Proof. destruct o as [a n [i|]]; reflexivity. Qed.

Lemma norm_tx (tx : Transaction) :
  normalize (strip (canon_tx tx)) = normalize (js_of_tx tx).
Proof.
  assert (map normalize (map strip (map canon_output (outputs tx)))
          = map normalize (map js_of_output (outputs tx))) as Ho.
  { rewrite !map_map. apply map_ext. intros o. apply norm_output. }
  assert (map normalize (map strip (map canon_spend (spends tx)))
          = map normalize (map js_of_spend (spends tx))) as Hs.
  { rewrite !map_map. apply map_ext. intros s. apply norm_spend. }
  destruct tx as [v [n|] sp outs f h]; simpl spends in *; simpl outputs in *.
  - change (normalize (strip (canon_tx (mkTx v (Some n) sp outs f h))))
      with (VObj [("fee", VBig f); ("network", VStr n);
                  ("outputs", VArr (map normalize (map strip (map canon_output outs))));
                  ("spends", VArr (map normalize (map strip (map canon_spend sp))));
                  ("unsignedHash", VStr h); ("version", VNum v)]).
    rewrite Ho, Hs. reflexivity.
  - change (normalize (strip (canon_tx (mkTx v None sp outs f h))))
      with (VObj [("fee", VBig f);
                  ("outputs", VArr (map normalize (map strip (map canon_output outs))));
                  ("spends", VArr (map normalize (map strip (map canon_spend sp))));
                  ("unsignedHash", VStr h); ("version", VNum v)]).
    rewrite Ho, Hs. reflexivity.
Qed.

(** *** The round trip *)

Lemma importTx_exportTx_canon (tx : Transaction) :
  exportable tx → importTx (exportTx tx) = Ok (strip (canon_tx tx)).
Proof.
  intros Hex. unfold importTx, exportTx.
  rewrite dc_tx.
  2: { destruct Hex as (_ & _ & Hs & _). eapply Forall_impl; [exact Hs |]. by intros s (_ & _ & ?). }
  rewrite JSON_parse_revive_stringify; [| apply distinct_tx | by apply untagged_tx].
  by destruct tx as [v [n|] sp outs f h].
Qed.

(** C8, the claim as stated, refuted: on the network named n:7 the
    imported transaction has the bigint 7 for a network; a payment to
    the address n:x does not import at all; and a signature filed under
    the key __proto__ is not in the exported text. *)
Lemma importTx_exportTx_loses :
  (∃ v, importTx (exportTx taggedNetworkTx) = Ok v
        ∧ get_prop v "network" = VBig 7
        ∧ ¬ StructEq v (js_of_tx taggedNetworkTx))
  ∧ importTx (exportTx taggedAddressTx) = Err JsonSyntaxError
  ∧ (∃ v, importTx (exportTx protoKeyTx) = Ok v
          ∧ ¬ StructEq v (js_of_tx protoKeyTx)).
Proof.
  split; [| split].
  - eexists. split; [vm_compute; reflexivity |]. split; [reflexivity |].
    unfold StructEq. vm_compute. discriminate.
  - vm_compute. reflexivity.
  - eexists. split; [vm_compute; reflexivity |].
    unfold StructEq. vm_compute. discriminate.
Qed.

(* The entries of a literal signature map, computed once. *)
Ltac evaluate_list :=
  match goal with |- Forall _ ?l =>
    let l' := eval vm_compute in l in
    replace l with l' by (vm_compute; reflexivity) end.

(** C8, amended: for every transaction (partial signatures and bigint
    amounts and fee included) in which no string value starts with n:
    and no signature is filed under the key __proto__,
    importTx(exportTx(tx)) succeeds and returns a value structurally
    equal to tx (the same properties with the same values, whatever
    their order, an absent optional property being absent), every
    bigint restored exactly from its tagged string. *)
Theorem importTx_exportTx (tx : Transaction) :
  exportable tx →
  ∃ v, importTx (exportTx tx) = Ok v
       ∧ StructEq v (js_of_tx tx)
       ∧ get_prop v "fee" = VBig (fee tx)
       ∧ Forall2 (fun o x => get_prop x "amount" = VBig (amount o)) (outputs tx)
           (match get_prop v "outputs" with VArr l => l | _ => [] end).
Proof.
  intros Hex. exists (strip (canon_tx tx)).
  split; [by apply importTx_exportTx_canon |].
  split; [apply norm_tx |].
  clear Hex. destruct tx as [v [n|] sp outs f h]; (split; [reflexivity |]).
  all: change (Forall2 (fun o x => get_prop x "amount" = VBig (amount o)) outs
                 (map strip (map canon_output outs))).
  all: induction outs as [|o outs IH]; simpl; constructor; auto;
    by destruct o as [a m [i|]].
Qed.

Lemma importTx_exportTx_witness :
  exportable demoTx1
  ∧ ∃ v, importTx (exportTx demoTx1) = Ok v ∧ StructEq v (js_of_tx demoTx1).
Proof.
  assert (exportable demoTx1) as H.
  { unfold exportable, demoTx1.
    cbn [network unsignedHash spends outputs].
    split; [exact I |]. split; [reflexivity |]. split.
    - constructor; [| constructor].
      cbn [noteId seeds seeds_untagged seeds_plain_keys pkhs signatures].
      split; [reflexivity |]. split; [split |].
      + repeat constructor.
      + evaluate_list. repeat constructor.
      + evaluate_list. repeat constructor; discriminate.
    - repeat constructor. }
  split; [exact H |].
  destruct (importTx_exportTx demoTx1 H) as (v & H1 & H2 & _).
  exists v; split; assumption.
Defined.

End ExportSpec.
From Stdlib Require OrderedTypeEx.

(** ** The order of pkhs, notes and outputs *)

Module OrderSpec.
Import Js TxCore Crypto Helpers Basics BuildSpec.

(** Two locks that differ in the order of their pkhs only. *)
Inductive SameLock : Lock → Lock → Prop :=
| SameLock_pkh t ps1 ps2 : ps1 ≡ₚ ps2 → SameLock (LockPkh t ps1) (LockPkh t ps2)
| SameLock_hax h : SameLock (LockHax h) (LockHax h)
| SameLock_tim nb l1 l2 : SameLock l1 l2 → SameLock (LockTim nb l1) (LockTim nb l2)
| SameLock_brn : SameLock LockBrn LockBrn.

(** [key] tells the elements of [l] apart. *)
Definition keyed {A} (key : A → string) (l : list A) : Prop :=
  ∀ x y, x ∈ l → y ∈ l → key x = key y → x = y.

Definition total {A} (f : A → Z) (l : list A) : Z := foldr (fun x acc => f x + acc) 0 l.

Lemma str_lt_lt (a b : string) : str_lt a b = true ↔ OrderedTypeEx.String_as_OT.lt a b.
Proof.
  unfold str_lt, String.ltb. rewrite <- OrderedTypeEx.String_as_OT.cmp_lt.
  unfold OrderedTypeEx.String_as_OT.cmp.
  destruct (String.compare a b); split; congruence.
Qed.

Lemma str_lt_trans (a b c : string) :
  str_lt a b = true → str_lt b c = true → str_lt a c = true.
Proof.
  rewrite !str_lt_lt. apply OrderedTypeEx.String_as_OT.lt_trans.
Qed.

Lemma key_le_trans {A} (key : A → string) (x y z : A) :
  key_le key x y → key_le key y z → key_le key x z.
Proof.
  unfold key_le. intros Hxy Hyz.
  destruct (str_lt (key z) (key x)) eqn:Hzx; [exfalso | reflexivity].
  destruct (str_lt (key x) (key y)) eqn:E1.
  - pose proof (str_lt_trans _ _ _ Hzx E1). congruence.
  - assert (key x = key y) as E by (by apply str_lt_total). rewrite E in Hzx. congruence.
Qed.

Lemma key_le_antisym {A} (key : A → string) (x y : A) :
  key_le key x y → key_le key y x → key x = key y.
Proof. unfold key_le. intros H1 H2. by apply str_lt_total. Qed.

Lemma Sorted_strongly {A} (key : A → string) (l : list A) :
  Sorted (key_le key) l → StronglySorted (key_le key) l.
Proof.
  apply Sorted_StronglySorted. intros x y z. apply key_le_trans.
Qed.

(** A sorted array is determined by its elements, when the key tells
    them apart. *)
Lemma Sorted_perm_unique {A} (key : A → string) (l1 l2 : list A) :
  Sorted (key_le key) l1 → Sorted (key_le key) l2 → l1 ≡ₚ l2 → keyed key l1 → l1 = l2.
Proof.
  intros H1 H2. apply Sorted_strongly in H1, H2.
  revert l2 H2; induction H1 as [|x l1 Hs1 IH Hx]; intros l2 H2 Hp Hk.
  - by apply Permutation_nil_l in Hp.
  - destruct H2 as [|y l2 Hs2 Hy]; [by apply Permutation_nil_r in Hp |].
    assert (x = y) as ->.
    { assert (x ∈ y :: l2) as Hin by (rewrite <- Hp; by left).
      assert (y ∈ x :: l1) as Hin' by (rewrite Hp; by left).
      apply elem_of_cons in Hin as [-> | Hin]; [reflexivity |].
      apply elem_of_cons in Hin' as [-> | Hin']; [reflexivity |].
      rewrite Forall_forall in Hx, Hy.
      apply Hk; [by left | by right |].
      apply key_le_antisym; [by apply Hx | by apply Hy]. }
    f_equal. apply IH; [assumption | by apply Permutation_cons_inv in Hp |].
    intros a b Ha Hb. apply Hk; by right.
Qed.

Lemma keyed_perm {A} (key : A → string) (l1 l2 : list A) :
  l1 ≡ₚ l2 → keyed key l1 → keyed key l2.
Proof. intros Hp Hk x y Hx Hy. apply Hk; by rewrite Hp. Qed.

Lemma keyed_NoDup {A} (key : A → string) (l : list A) : NoDup (map key l) → keyed key l.
Proof.
  induction l as [|a l IH]; intros Hn x y Hx Hy E; [by inversion Hx |].
  simpl in Hn. apply NoDup_cons in Hn as [Ha Hn].
  apply elem_of_cons in Hx as [-> | Hx]; apply elem_of_cons in Hy as [-> | Hy].
  - reflexivity.
  - exfalso. apply Ha. rewrite E. by apply list_elem_of_fmap_2.
  - exfalso. apply Ha. rewrite <- E. by apply list_elem_of_fmap_2.
  - by apply IH.
Qed.

Lemma sort_by_perm_eq {A} (key : A → string) (l1 l2 : list A) :
  l1 ≡ₚ l2 → keyed key l1 → sort_by key l1 = sort_by key l2.
Proof.
  intros Hp Hk. apply (Sorted_perm_unique key); try apply sort_by_sorted.
  - by rewrite !sort_by_perm.
  - apply (keyed_perm key l1); [by rewrite sort_by_perm | assumption].
Qed.

Lemma sort_strings_perm (l1 l2 : list string) :
  l1 ≡ₚ l2 → sort_strings l1 = sort_strings l2.
Proof. intros Hp. apply sort_by_perm_eq; [assumption |]. by intros x y _ _. Qed.

Lemma remove_dups_length_perm (l1 l2 : list string) :
  l1 ≡ₚ l2 → length (remove_dups l1) = length (remove_dups l2).
Proof.
  intros Hp. apply Permutation_length, NoDup_Permutation; try apply NoDup_remove_dups.
  intros x. rewrite !elem_of_remove_dups. by rewrite Hp.
Qed.

Lemma total_perm {A} (f : A → Z) (l1 l2 : list A) : l1 ≡ₚ l2 → total f l1 = total f l2.
Proof. unfold total. induction 1; simpl; lia. Qed.

Lemma foldl_total {A} (f : A → Z) (l : list A) (acc : Z) :
  foldl (fun a x => a + f x) acc l = acc + total f l.
Proof.
  unfold total. revert acc; induction l as [|x l IH]; intros acc; simpl; [lia |].
  rewrite IH. lia.
Qed.

Lemma sumInputs_perm (l1 l2 : list Note) : l1 ≡ₚ l2 → sumInputs l1 = sumInputs l2.
Proof. intros Hp. unfold sumInputs. rewrite !foldl_total. f_equal. by apply total_perm. Qed.

Lemma sumOutputs_perm (l1 l2 : list Output) : l1 ≡ₚ l2 → sumOutputs l1 = sumOutputs l2.
Proof. intros Hp. unfold sumOutputs. rewrite !foldl_total. f_equal. by apply total_perm. Qed.

Lemma canonicalizeLock_same (l1 l2 : Lock) :
  SameLock l1 l2 → canonicalizeLock l1 = canonicalizeLock l2.
Proof.
  induction 1 as [t ps1 ps2 Hp|h|nb l1 l2 H IH|]; simpl; try reflexivity.
  - by rewrite (sort_strings_perm _ _ Hp).
  - by rewrite IH.
Qed.

Lemma seedsFromLock_same (l1 l2 : Lock) :
  SameLock l1 l2 → seedsFromLock l1 = seedsFromLock l2.
Proof.
  induction 1 as [t ps1 ps2 Hp|h|nb l1 l2 H IH|]; simpl; try reflexivity.
  - unfold assertValidPkhLock.
    rewrite (remove_dups_length_perm _ _ Hp), (Permutation_length Hp).
    by rewrite (sort_strings_perm _ _ Hp).
  - by rewrite IH.
Qed.

(** X1: a lock is the same lock whatever the order of its pkhs (the
    pkhs of a %pkh lock, also under time locks): [encodeLock] gives the
    same bytes, so [lockHash] and the note name built from it are the
    same, and [seedsFromLock] gives the same seeds or the same error. *)
Theorem lock_pkhs_order (l1 l2 : Lock) :
  SameLock l1 l2 →
  encodeLock l1 = encodeLock l2
  ∧ (∀ crypto, lockHash l1 crypto = lockHash l2 crypto)
  ∧ (∀ src crypto, buildNoteName l1 src crypto = buildNoteName l2 src crypto)
  ∧ seedsFromLock l1 = seedsFromLock l2.
Proof.
  intros H.
  assert (encodeLock l1 = encodeLock l2) as E.
  { unfold encodeLock. by rewrite (canonicalizeLock_same _ _ H). }
  repeat split.
  - exact E.
  - intros crypto. unfold lockHash. by rewrite E.
  - intros src crypto. unfold buildNoteName, lockHash. by rewrite E.
  - by apply seedsFromLock_same.
Qed.

Lemma lock_pkhs_order_witness :
  SameLock (LockTim 5 (LockPkh 1 ["b"; "a"])) (LockTim 5 (LockPkh 1 ["a"; "b"]))
  ∧ encodeLock (LockTim 5 (LockPkh 1 ["b"; "a"])) = encodeLock (LockTim 5 (LockPkh 1 ["a"; "b"])).
Proof.
  assert (SameLock (LockTim 5 (LockPkh 1 ["b"; "a"])) (LockTim 5 (LockPkh 1 ["a"; "b"]))) as H.
  { constructor. constructor. apply Permutation_swap. }
  split; [exact H |]. by destruct (lock_pkhs_order _ _ H) as [E _].
Defined.


(** *** The signing bytes and the build *)

Definition swappedOutputs1 : UnsignedTx :=
  mkUnsigned 1 (Some "net") [] [mkOutput "x" 2 None; mkOutput "y" 1 (Some "asset")] 3.

Definition swappedOutputs2 : UnsignedTx :=
  mkUnsigned 1 (Some "net") [] [mkOutput "y" 1 (Some "asset"); mkOutput "x" 2 None] 3.

(** The notes of [unordered_args] in the other order. *)
Definition ordered_args : BuildArgs :=
  mkBuildArgs None None (reverse unordered_notes) [mkOutput "dest" 12 None] 0 None
    MockCryptoProvider.

Definition unordered_tx : Transaction :=
  Eval vm_compute in
    match buildUnsignedTransaction unordered_args with
    | Ok tx => tx
    | Err _ => mkTx 0 None [] [] 0 EmptyString
    end.

(** The build, when every check passes. *)
Lemma buildUnsignedTransaction_intro (args : BuildArgs) (sp : list Spend) :
  Forall (note_ok (a_crypto args)) (a_notes args) →
  final_outputs args ≠ [] →
  Forall (fun o => 0 < amount o) (final_outputs args) →
  0 ≤ a_fee args →
  sumOutputs (final_outputs args) + a_fee args ≤ sumInputs (a_notes args) →
  buildSpends (a_notes args) = Ok sp →
  buildUnsignedTransaction args
  = Ok (mkTx (default 1 (a_version args)) (a_network args) sp (final_outputs args)
          (a_fee args)
          (hash (a_crypto args)
             (encodeUnsignedPayload
                (mkUnsigned (default 1 (a_version args)) (a_network args) sp
                   (final_outputs args) (a_fee args))))).
Proof.
  intros Hn Hne Hpos Hfee Hsum Hsp.
  unfold buildUnsignedTransaction. fold (final_outputs args).
  apply validateNotes_Ok in Hn. rewrite Hn. simpl.
  destruct (final_outputs args) as [|o outs] eqn:E; [done |]. rewrite <- E in *.
  assert ((length (final_outputs args) =? 0)%nat = false) as -> by (by rewrite E).
  simpl.
  assert (forM_ (fun o => throw_if (amount o <=? 0) OutputAmountNotPositive (Ok tt))
            (final_outputs args) = Ok tt) as ->.
  { apply forM__Ok. intros x Hx. rewrite Forall_forall in Hpos. specialize (Hpos x Hx).
    by replace (amount x <=? 0) with false by lia. }
  simpl.
  replace (a_fee args <? 0) with false by lia. simpl.
  replace (sumInputs (a_notes args) <? sumOutputs (final_outputs args) + a_fee args)
    with false by lia.
  simpl. rewrite Hsp. reflexivity.
Qed.

Lemma encodeUnsignedPayload_sorted v n f (sp1 sp2 : list Spend) (outs1 outs2 : list Output) :
  sort_by noteId sp1 = sort_by noteId sp2 →
  sort_by output_sort_key outs1 = sort_by output_sort_key outs2 →
  encodeUnsignedPayload (mkUnsigned v n sp1 outs1 f)
  = encodeUnsignedPayload (mkUnsigned v n sp2 outs2 f).
Proof. intros Hs Ho. unfold encodeUnsignedPayload. simpl. by rewrite Hs, Ho. Qed.

(** X2: the signing bytes do not depend on the order of the spends nor
    on the order of the outputs, as long as the sort keys tell them
    apart (the note id for a spend; asset id, address and amount for an
    output). *)
Theorem signing_bytes_order (u1 u2 : UnsignedTx) :
  u_version u1 = u_version u2 → u_network u1 = u_network u2 → u_fee u1 = u_fee u2 →
  u_spends u1 ≡ₚ u_spends u2 → u_outputs u1 ≡ₚ u_outputs u2 →
  keyed noteId (u_spends u1) → keyed output_sort_key (u_outputs u1) →
  encodeUnsignedPayload u1 = encodeUnsignedPayload u2.
Proof.
  destruct u1 as [v1 n1 sp1 o1 f1], u2 as [v2 n2 sp2 o2 f2]. simpl.
  intros -> -> -> Hs Ho Hks Hko.
  apply encodeUnsignedPayload_sorted; by apply sort_by_perm_eq.
Qed.

Lemma signing_bytes_order_witness :
  encodeUnsignedPayload swappedOutputs1 = encodeUnsignedPayload swappedOutputs2.
Proof.
  apply signing_bytes_order; try reflexivity.
  - apply Permutation_swap.
  - apply keyed_NoDup. constructor.
  - apply keyed_NoDup. apply (bool_decide_unpack (NoDup _)). vm_compute. exact I.
Defined.

(** X3: [buildUnsignedTransaction] does not depend on the order in
    which the caller lists the notes and the outputs, as long as the
    note ids tell the notes apart and the sort keys the outputs: when
    the build of one listing succeeds, the build of the other succeeds
    with the same spends, the same version, network and fee, the
    caller's outputs and the same unsignedHash. *)
Theorem buildUnsignedTransaction_order (args1 args2 : BuildArgs) (tx1 : Transaction) :
  a_version args1 = a_version args2 → a_network args1 = a_network args2 →
  a_fee args1 = a_fee args2 → a_crypto args1 = a_crypto args2 →
  a_notes args1 ≡ₚ a_notes args2 → final_outputs args1 ≡ₚ final_outputs args2 →
  keyed note_key (a_notes args1) → keyed output_sort_key (final_outputs args1) →
  buildUnsignedTransaction args1 = Ok tx1 →
  ∃ tx2, buildUnsignedTransaction args2 = Ok tx2
         ∧ spends tx2 = spends tx1
         ∧ outputs tx2 = final_outputs args2
         ∧ version tx2 = version tx1 ∧ network tx2 = network tx1 ∧ fee tx2 = fee tx1
         ∧ unsignedHash tx2 = unsignedHash tx1.
Proof.
  intros Hv Hn Hf Hc Hnotes Houts Hkn Hko H1.
  apply buildUnsignedTransaction_Ok in H1
    as (Hval & Hne & Hpos & Hfee & Hsum & Hsp & Ev & En & Eo & Ef & Eh).
  apply validateNotes_Ok in Hval.
  assert (buildSpends (a_notes args2) = Ok (spends tx1)) as Hsp2.
  { unfold buildSpends in *. fold note_key in *.
    by rewrite <- (sort_by_perm_eq note_key _ _ Hnotes Hkn). }
  eexists. split.
  - apply buildUnsignedTransaction_intro; [| | | | | exact Hsp2].
    + rewrite <- Hc, <- Hnotes. exact Hval.
    + intros E. rewrite E in Houts. by apply Permutation_nil_r in Houts.
    + by rewrite <- Houts.
    + lia.
    + rewrite <- (sumOutputs_perm _ _ Houts), <- (sumInputs_perm _ _ Hnotes). lia.
  - simpl. repeat split; try congruence.
    rewrite Eh, <- Hc. f_equal. unfold unsigned_of. rewrite Ev, En, Eo, Ef, Hv, Hn, Hf.
    symmetry. apply encodeUnsignedPayload_sorted; [reflexivity |].
    by apply sort_by_perm_eq.
Qed.

Lemma buildUnsignedTransaction_order_witness :
  buildUnsignedTransaction unordered_args = Ok unordered_tx
  ∧ ∃ tx2, buildUnsignedTransaction ordered_args = Ok tx2
           ∧ spends tx2 = spends unordered_tx
           ∧ unsignedHash tx2 = unsignedHash unordered_tx.
Proof.
  assert (buildUnsignedTransaction unordered_args = Ok unordered_tx) as H
    by (vm_compute; reflexivity).
  split; [exact H |].
  destruct (buildUnsignedTransaction_order unordered_args ordered_args unordered_tx)
    as (tx2 & H2 & Hsp & _ & _ & _ & _ & Hh); [done | done | done | done | | | | | | ].
  - apply Permutation_swap.
  - reflexivity.
  - apply keyed_NoDup. apply (bool_decide_unpack (NoDup _)). vm_compute. exact I.
  - apply keyed_NoDup. repeat constructor; set_solver.
  - exact H.
  - exists tx2. repeat split; assumption.
Defined.

End OrderSpec.

(** ** From the helpers to a fresh transaction *)

Module FreshSpec.
Import Js TxCore Crypto Helpers Basics BuildSpec OrderSpec.

(** The notes [createNote] makes for [lock] from (amount, source
    derivation) pairs. *)
Definition notesOf (lock : Lock) (crypto : CryptoProvider) (srcs : list (Z * string))
    : list Note :=
  map (fun a => createNote lock (fst a) (snd a) None crypto) srcs.

Lemma signers_empty t ps : signers (mkPkhSeeds t ps ∅) = [].
Proof. unfold signers. simpl. by rewrite map_to_list_empty. Qed.

Lemma countCollectedPkh_empty t ps crypto : countCollectedPkh (mkPkhSeeds t ps ∅) crypto = 0.
Proof. unfold countCollectedPkh. by rewrite signers_empty. Qed.

(** The seeds [seedsFromLock] returns are not satisfied. *)
Lemma seedsFromLock_unsatisfied (l : Lock) (s : Seeds) clock crypto now :
  seedsFromLock l = Ok s → isSeedsSatisfied clock s crypto now = false.
Proof.
  revert s; induction l as [t ps|h|nb inner IH|]; simpl; intros s H.
  - apply bind_Ok in H as ([] & Hv & [= <-]). simpl.
    unfold isPkhComplete. rewrite countCollectedPkh_empty. simpl.
    unfold assertValidPkhLock in Hv.
    apply throw_if_Ok in Hv as [_ Hv]. apply throw_if_Ok in Hv as [Ht _]. lia.
  - by injection H as <-.
  - apply bind_Ok in H as (i & Hi & [= <-]). simpl.
    rewrite (IH i Hi). by destruct (default clock now <? nb).
  - by injection H as <-.
Qed.

Lemma sumOutputs_positive (outs : list Output) :
  outs ≠ [] → Forall (fun o => 0 < amount o) outs → 0 < sumOutputs outs.
Proof.
  intros Hne H. unfold sumOutputs. rewrite foldl_total.
  destruct H as [|o outs Ho Houts]; [done |]. unfold total; simpl.
  assert (0 ≤ foldr (fun x acc => amount x + acc) 0 outs); [| lia].
  clear Hne Ho. induction Houts as [|x l Hx Hl IH]; simpl; lia.
Qed.

(** X4: a transaction that [buildUnsignedTransaction] returns has one
    spend per note and at least one, no spend of it is satisfied, and
    the transaction is not fully signed, at any time and under any
    crypto provider; its unsignedHash is the hash of its signing
    bytes. A build from no notes fails. *)
Theorem buildUnsignedTransaction_fresh (args : BuildArgs) (tx : Transaction) :
  buildUnsignedTransaction args = Ok tx →
  a_notes args ≠ []
  ∧ length (spends tx) = length (a_notes args)
  ∧ unsignedHash tx = hash (a_crypto args) (encodeUnsignedPayload (unsigned_of tx))
  ∧ ∀ clock crypto now,
      Forall (fun s => isSeedsSatisfied clock (seeds s) crypto now = false) (spends tx)
      ∧ isTransactionFullySigned clock tx crypto now = false.
Proof.
  intros H. apply buildUnsignedTransaction_Ok in H
    as (_ & Hne & Hpos & Hfee & Hsum & Hsp & _ & _ & _ & _ & Eh).
  pose proof (sumOutputs_positive _ Hne Hpos) as Hout.
  assert (a_notes args ≠ []) as Hnotes.
  { intros E. rewrite E in Hsum. unfold sumInputs in Hsum. simpl in Hsum. lia. }
  apply buildSpends_Forall2 in Hsp.
  assert (length (spends tx) = length (a_notes args)) as Hlen.
  { rewrite <- (Forall2_length _ _ _ Hsp). apply sort_by_length. }
  repeat split; try assumption.
  - apply Forall_forall. intros s Hs.
    apply list_elem_of_lookup in Hs as [i Hi].
    destruct (Forall2_lookup_r _ _ _ _ _ Hsp Hi) as (n & _ & Hn).
    unfold spendOfNote in Hn. apply bind_Ok in Hn as (sd & Hsd & [= <-]). simpl.
    by apply (seedsFromLock_unsatisfied (lock n)).
  - unfold isTransactionFullySigned.
    destruct (spends tx) as [|s sp] eqn:E.
    + destruct (a_notes args); [done | discriminate].
    + simpl. apply andb_false_intro1.
      assert (s ∈ spends tx) as Hs by (rewrite E; by left).
      apply list_elem_of_lookup in Hs as [i Hi]. rewrite <- E in Hsp.
      destruct (Forall2_lookup_r _ _ _ _ _ Hsp Hi) as (n & _ & Hn).
      unfold spendOfNote in Hn. apply bind_Ok in Hn as (sd & Hsd & [= <-]). simpl.
      by apply (seedsFromLock_unsatisfied (lock n)).
Qed.

Lemma buildUnsignedTransaction_fresh_witness :
  buildUnsignedTransaction unordered_args = Ok unordered_tx
  ∧ isTransactionFullySigned 0 unordered_tx MockCryptoProvider None = false.
Proof.
  assert (buildUnsignedTransaction unordered_args = Ok unordered_tx) as H
    by (vm_compute; reflexivity).
  split; [exact H |].
  destruct (buildUnsignedTransaction_fresh _ _ H) as (_ & _ & _ & Hall).
  apply (Hall 0 MockCryptoProvider None).
Defined.

(** *** Locks and notes made by the helpers *)

Lemma sort_strings_length_dups (ps : list string) :
  (length (remove_dups (sort_strings ps)) =? length (sort_strings ps))%nat
  = (length (remove_dups ps) =? length ps)%nat.
Proof.
  pose proof (sort_by_perm id ps) as Hp. fold (sort_strings ps) in Hp.
  by rewrite (remove_dups_length_perm _ _ Hp), (Permutation_length Hp).
Qed.

Lemma createMultisigLock_Ok (t : Z) (ps : list Hash) (l : Lock) :
  createMultisigLock t ps = Ok l →
  l = LockPkh t (sort_strings ps)
  ∧ seedsFromLock l = Ok (SeedsPkh (mkPkhSeeds t (sort_strings ps) ∅)).
Proof.
  unfold createMultisigLock. intros H.
  apply throw_if_Ok in H as [H1 H]. apply throw_if_Ok in H as [H2 H].
  apply throw_if_Ok in H as [H3 [= <-]].
  split; [reflexivity |]. simpl. unfold assertValidPkhLock.
  rewrite sort_strings_length_dups. apply negb_false_iff in H3. rewrite H3. simpl.
  rewrite H1. simpl.
  assert (length (sort_strings ps) = length ps) as -> by apply sort_by_length.
  rewrite H2. simpl.
  unfold sort_strings. by rewrite sort_by_idem.
Qed.

Lemma mapM_map {A B} (f : A → result B) (g : A → B) (l : list A) :
  (∀ x, x ∈ l → f x = Ok (g x)) → mapM f l = Ok (map g l).
Proof.
  induction l as [|x l IH]; intros H; simpl; [reflexivity |].
  rewrite (H x) by (by left). simpl. rewrite IH; [reflexivity |].
  intros y Hy. apply H. by right.
Qed.

(** X5: [createMultisigLock] accepts exactly the threshold and pkhs
    that [assertValidPkhLock] accepts (it checks the same three
    conditions in another order). The lock it returns lists the pkhs
    in sorted order, has the lock hash of the lock with the pkhs as
    given, and [seedsFromLock] turns it into seeds with the threshold,
    the same pkhs and no signature. *)
Theorem createMultisigLock_valid (t : Z) (ps : list Hash) :
  is_ok (createMultisigLock t ps) = is_ok (assertValidPkhLock t ps)
  ∧ is_ok (createMultisigLock t ps) = validLock (LockPkh t ps)
  ∧ ∀ l, createMultisigLock t ps = Ok l →
      l = LockPkh t (sort_strings ps)
      ∧ seedsFromLock l = Ok (SeedsPkh (mkPkhSeeds t (sort_strings ps) ∅))
      ∧ ∀ crypto, lockHash l crypto = lockHash (LockPkh t ps) crypto.
Proof.
  split; [| split].
  - unfold createMultisigLock, assertValidPkhLock.
    destruct (t <=? 0), (t >? Z.of_nat (length ps)),
      (length (remove_dups ps) =? length ps)%nat; reflexivity.
  - unfold createMultisigLock. simpl.
    destruct (length (remove_dups ps) =? length ps)%nat,
      (t <=? 0) eqn:E1, (t >? Z.of_nat (length ps)) eqn:E2; simpl; lia.
  - intros l H. apply createMultisigLock_Ok in H as [-> Hs].
    repeat split; [assumption |].
    intros crypto. unfold lockHash, encodeLock.
    rewrite (canonicalizeLock_same (LockPkh t (sort_strings ps)) (LockPkh t ps));
      [reflexivity |].
    constructor. apply sort_by_perm.
Qed.

(** X6: the flow of the helpers. For a lock that [createMultisigLock]
    returned, notes that [createNote] made under it with positive
    amounts, at least one recipient, positive recipient amounts and a
    fee >= 0, [buildSimpleTransaction] succeeds as soon as the inputs
    cover recipients and fee. The transaction has one spend per note,
    each with the threshold and the sorted pkhs of the lock and no
    signature; with a change address its outputs and fee add up to the
    inputs. *)
Theorem helpers_flow (t : Z) (ps : list Hash) (lock : Lock) (crypto : CryptoProvider)
    (srcs : list (Z * string)) (rs : list Recipient) (fee' : Z)
    (changeAddress' : option string) :
  createMultisigLock t ps = Ok lock →
  Forall (fun a => 0 < fst a) srcs →
  rs ≠ [] → Forall (fun r => 0 < r_amount r) rs → 0 ≤ fee' →
  0 ≤ changeOf (mkSimple (notesOf lock crypto srcs) rs fee' changeAddress' crypto) →
  ∃ tx, buildSimpleTransaction (mkSimple (notesOf lock crypto srcs) rs fee' changeAddress' crypto)
        = Ok tx
        ∧ length (spends tx) = length srcs
        ∧ Forall (fun s => seeds s = SeedsPkh (mkPkhSeeds t (sort_strings ps) ∅)) (spends tx)
        ∧ fee tx = fee'
        ∧ (truthy changeAddress' = true →
           sumOutputs (outputs tx) + fee tx = sumInputs (notesOf lock crypto srcs)).
Proof.
  intros Hlock Hsrcs Hne Hrs Hfee Hchange.
  set (p := mkSimple (notesOf lock crypto srcs) rs fee' changeAddress' crypto) in *.
  apply createMultisigLock_Ok in Hlock as [-> Hseeds].
  set (lock := LockPkh t (sort_strings ps)) in *.
  set (sd := SeedsPkh (mkPkhSeeds t (sort_strings ps) ∅)) in *.
  assert (Forall (fun n => TxCore.lock n = lock) (notesOf lock crypto srcs)) as Hlocks.
  { apply Forall_forall. intros n Hn. unfold notesOf in Hn.
    apply list_elem_of_fmap in Hn as (a & -> & _). reflexivity. }
  assert (buildSpends (inputs p)
          = Ok (map (fun n => mkSpend (note_key n) sd) (sort_by note_key (inputs p)))) as Hsp.
  { unfold buildSpends. fold note_key. apply mapM_map. intros n Hn.
    rewrite sort_by_perm in Hn. rewrite Forall_forall in Hlocks.
    unfold spendOfNote. rewrite (Hlocks n Hn), Hseeds. reflexivity. }
  rewrite SimpleSpec.buildSimpleTransaction_unfold.
  replace (changeOf p <? 0) with false by lia.
  rewrite (buildUnsignedTransaction_intro (SimpleSpec.simpleArgs p)
             (map (fun n => mkSpend (note_key n) sd) (sort_by note_key (inputs p)))); simpl.
  - eexists. split; [reflexivity |]. simpl. repeat split.
    + rewrite length_map, sort_by_length. unfold notesOf. by rewrite length_map.
    + apply Forall_forall. intros s Hs. apply list_elem_of_fmap in Hs as (n & -> & _).
      reflexivity.
    + intros Ht. fold (SimpleSpec.simpleArgs p). unfold final_outputs. simpl. rewrite Ht.
      rewrite andb_true_r.
      destruct (0 <? changeOf p) eqn:E.
      * rewrite SimpleSpec.sumOutputs_app, SimpleSpec.sumOutputs_recipients.
        unfold sumOutputs; simpl. unfold changeOf in *. simpl in *. unfold sumInputs. lia.
      * rewrite SimpleSpec.sumOutputs_recipients. unfold changeOf in *; simpl in *.
        unfold sumInputs. lia.
  - apply Forall_forall. intros n Hn. unfold notesOf in Hn.
    apply list_elem_of_fmap in Hn as (a & -> & Ha). split; [reflexivity |].
    rewrite Forall_forall in Hsrcs. exact (Hsrcs a Ha).
  - unfold final_outputs; simpl.
    destruct rs as [|r rs']; [done |].
    destruct ((0 <? changeOf p) && truthy changeAddress'); simpl; discriminate.
  - unfold final_outputs; simpl.
    assert (Forall (fun o => 0 < amount o) (recipientOutputs rs)) as Hro.
    { unfold recipientOutputs. apply Forall_fmap. exact Hrs. }
    destruct ((0 <? changeOf p) && truthy changeAddress') eqn:E; [| exact Hro].
    apply Forall_app. split; [exact Hro |]. constructor; [| constructor].
    simpl. apply andb_prop in E as [E _]. lia.
  - exact Hfee.
  - apply (SimpleSpec.sumOutputs_simpleArgs p Hchange).
  - exact Hsp.
Qed.

Lemma helpers_flow_witness :
  ∃ tx, buildSimpleTransaction
          (mkSimple (notesOf (LockPkh 2 ["a"; "b"]) MockCryptoProvider [(10, "src-1"); (5, "src-2")])
             [mkRecipient "dest" 12] 1 (Some "change") MockCryptoProvider) = Ok tx
        ∧ length (spends tx) = 2%nat.
Proof.
  destruct (helpers_flow 2 ["b"; "a"] (LockPkh 2 ["a"; "b"]) MockCryptoProvider
              [(10, "src-1"); (5, "src-2")] [mkRecipient "dest" 12] 1 (Some "change"))
    as (tx & H & Hlen & _).
  - reflexivity.
  - repeat constructor.
  - discriminate.
  - repeat constructor.
  - lia.
  - vm_compute. discriminate.
  - exists tx. split; assumption.
Defined.

End FreshSpec.
(** ** Signatures only add up *)

Module ProgressSpec.
Import Js TxCore Crypto Helpers Basics BuildSpec SignSpec CollectSpec MergeSpec.

(** The seeds [p] with one more entry in the signature map. *)
Definition signedBy (p : PkhSeeds) (pubkey : PubKey) (signature : Signature) : PkhSeeds :=
  mkPkhSeeds (threshold p) (pkhs p) (<[pubkey := signature]> (signatures p)).

(** The time locks on the way to the innermost seeds. *)
Fixpoint notBefores (s : Seeds) : list Z :=
  match s with
  | SeedsTim nb inner => nb :: notBefores inner
  | _ => []
  end.

(** The innermost seeds are the burn seeds. *)
Fixpoint burns (s : Seeds) : bool :=
  match s with
  | SeedsTim _ inner => burns inner
  | SeedsBrn => true
  | _ => false
  end.

Lemma elem_of_signers (p : PkhSeeds) (pk : PubKey) :
  pk ∈ signers p ↔ is_Some (signatures p !! pk).
Proof.
  unfold signers. rewrite list_elem_of_fmap. split.
  - intros ([k v] & -> & H). apply elem_of_map_to_list in H. simpl. eauto.
  - intros [v H]. exists (pk, v). split; [reflexivity |]. by apply elem_of_map_to_list.
Qed.

Lemma elem_of_seenHashes crypto (ps : list Hash) (keys : list PubKey) (h : Hash) :
  h ∈ seenHashes crypto ps keys ↔
  ∃ pk, pk ∈ keys ∧ pkhIsAllowed crypto pk ps = true ∧ hashPubkey crypto pk = h.
Proof.
  unfold seenHashes. rewrite elem_of_list_to_set, list_elem_of_fmap. split.
  - intros (pk & -> & H). apply list_elem_of_filter in H as [Ha Hin].
    exists pk. repeat split; [assumption | by apply Is_true_true].
  - intros (pk & Hin & Ha & <-). exists pk. split; [reflexivity |].
    apply list_elem_of_filter. split; [by apply Is_true_true | assumption].
Qed.

Lemma seenHashes_insert crypto (p : PkhSeeds) (pk : PubKey) (sig : Signature) :
  seenHashes crypto (pkhs p) (signers (signedBy p pk sig))
  = (if pkhIsAllowed crypto pk (pkhs p) then {[hashPubkey crypto pk]} else ∅)
    ∪ seenHashes crypto (pkhs p) (signers p).
Proof.
  apply set_eq. intros h. rewrite elem_of_union, !elem_of_seenHashes. split.
  - intros (k & Hk & Ha & <-). apply elem_of_signers in Hk. simpl in Hk.
    apply lookup_insert_is_Some in Hk as [<- | [Hne Hk]].
    + left. rewrite Ha. by apply elem_of_singleton.
    + right. exists k. repeat split; [by apply elem_of_signers | assumption].
  - intros [H | (k & Hk & Ha & <-)].
    + destruct (pkhIsAllowed crypto pk (pkhs p)) eqn:Ha; [| by apply elem_of_empty in H].
      apply elem_of_singleton in H as ->. exists pk. repeat split; [| assumption].
      apply elem_of_signers. simpl. rewrite lookup_insert_eq. eauto.
    + exists k. repeat split; [| assumption].
      apply elem_of_signers. simpl. apply lookup_insert_is_Some'. right.
      by apply elem_of_signers.
Qed.

Lemma seenHashes_spread crypto (ps : list Hash) t t' t'' (A B : gmap PubKey Signature) :
  seenHashes crypto ps (signers (mkPkhSeeds t ps (spread_signatures A B)))
  = seenHashes crypto ps (signers (mkPkhSeeds t' ps A))
    ∪ seenHashes crypto ps (signers (mkPkhSeeds t'' ps B)).
Proof.
  apply set_eq. intros h. rewrite elem_of_union, !elem_of_seenHashes. split.
  - intros (k & Hk & Ha & <-). apply elem_of_signers in Hk. simpl in Hk.
    unfold spread_signatures in Hk. apply lookup_union_is_Some in Hk as [Hk | Hk].
    + right. exists k. repeat split; [by apply elem_of_signers | assumption].
    + left. exists k. repeat split; [by apply elem_of_signers | assumption].
  - intros [(k & Hk & Ha & <-) | (k & Hk & Ha & <-)]; exists k; (repeat split; [| assumption]);
      apply elem_of_signers in Hk; apply elem_of_signers; simpl in *;
      unfold spread_signatures; apply lookup_union_is_Some; auto.
Qed.

Lemma size_list_to_set_le (l : list Hash) :
  (size (list_to_set l : gset Hash) ≤ length l)%nat.
Proof.
  induction l as [|x l IH].
  - rewrite list_to_set_nil, size_empty. simpl. lia.
  - rewrite list_to_set_cons, size_union_alt, size_singleton. simpl.
    pose proof (subseteq_size (list_to_set l ∖ {[x]}) (list_to_set l : gset Hash)
                  ltac:(set_solver)). lia.
Qed.

Lemma size_seenHashes_le crypto (ps : list Hash) (keys : list PubKey) :
  (size (seenHashes crypto ps keys) ≤ length keys)%nat.
Proof.
  unfold seenHashes. etransitivity; [apply size_list_to_set_le |].
  rewrite length_map. apply length_filter.
Qed.

Lemma includes_perm (l1 l2 : list string) (x : string) :
  l1 ≡ₚ l2 → includes l1 x = includes l2 x.
Proof. intros Hp. unfold includes. apply bool_decide_ext. by rewrite Hp. Qed.

Lemma sorted_pkhs_perm (a b : list Hash) : sort_strings a = sort_strings b → a ≡ₚ b.
Proof.
  intros E. rewrite <- (sort_by_perm id a), <- (sort_by_perm id b).
  fold (sort_strings a) (sort_strings b). by rewrite E.
Qed.

Lemma countCollectedPkh_pkhs_perm (t t' : Z) (ps ps' : list Hash)
    (sigs : gmap PubKey Signature) crypto :
  ps ≡ₚ ps' →
  countCollectedPkh (mkPkhSeeds t ps sigs) crypto
  = countCollectedPkh (mkPkhSeeds t' ps' sigs) crypto.
Proof.
  intros Hp. rewrite !countCollectedPkh_hashes. simpl. f_equal. f_equal.
  apply set_eq. intros h. rewrite !elem_of_seenHashes.
  unfold signers; simpl. unfold pkhIsAllowed.
  split; intros (k & Hk & Ha & Hh); exists k; (repeat split; [assumption | | assumption]).
  - by rewrite <- !(includes_perm _ _ _ Hp).
  - by rewrite !(includes_perm _ _ _ Hp).
Qed.

Lemma count_spread_l t (ps : list Hash) (A B : gmap PubKey Signature) crypto :
  countCollectedPkh (mkPkhSeeds t ps A) crypto
  ≤ countCollectedPkh (mkPkhSeeds t ps (spread_signatures A B)) crypto.
Proof.
  rewrite !countCollectedPkh_hashes. simpl.
  rewrite (seenHashes_spread crypto ps t t t).
  apply inj_le, subseteq_size. set_solver.
Qed.

Lemma count_spread_r t t' (ps : list Hash) (A B : gmap PubKey Signature) crypto :
  countCollectedPkh (mkPkhSeeds t' ps B) crypto
  ≤ countCollectedPkh (mkPkhSeeds t ps (spread_signatures A B)) crypto.
Proof.
  rewrite !countCollectedPkh_hashes. simpl.
  rewrite (seenHashes_spread crypto ps t t t').
  apply inj_le, subseteq_size. set_solver.
Qed.

Lemma count_signedBy (p : PkhSeeds) crypto pk sig :
  countCollectedPkh p crypto ≤ countCollectedPkh (signedBy p pk sig) crypto.
Proof.
  rewrite !countCollectedPkh_hashes. change (pkhs (signedBy p pk sig)) with (pkhs p).
  rewrite seenHashes_insert. apply inj_le, subseteq_size. set_solver.
Qed.

(** X7: what [countCollectedPkh] counts. The count lies between 0 and
    the number of signatures, and is 0 without signatures. One more
    entry in the signature map never lowers it and raises it by 1 at
    most; it stays as it is when the key is not listed in pkhs (neither
    its hash nor the key) and when the key already had a signature.
    So seeds that are complete stay complete. *)
Theorem countCollectedPkh_grows (p : PkhSeeds) (crypto : CryptoProvider)
    (pk : PubKey) (sig : Signature) :
  0 ≤ countCollectedPkh p crypto ≤ Z.of_nat (size (signatures p))
  ∧ countCollectedPkh (mkPkhSeeds (threshold p) (pkhs p) ∅) crypto = 0
  ∧ countCollectedPkh p crypto ≤ countCollectedPkh (signedBy p pk sig) crypto
    ≤ countCollectedPkh p crypto + 1
  ∧ (pkhIsAllowed crypto pk (pkhs p) = false →
     countCollectedPkh (signedBy p pk sig) crypto = countCollectedPkh p crypto)
  ∧ (is_Some (signatures p !! pk) →
     countCollectedPkh (signedBy p pk sig) crypto = countCollectedPkh p crypto)
  ∧ (isPkhComplete p crypto = true → isPkhComplete (signedBy p pk sig) crypto = true).
Proof.
  pose proof (count_signedBy p crypto pk sig) as Hmono.
  split; [| split; [| split; [| split; [| split]]]].
  - rewrite countCollectedPkh_hashes. split; [lia |].
    apply inj_le. etransitivity; [apply size_seenHashes_le |].
    unfold signers. by rewrite length_map, length_map_to_list.
  - apply FreshSpec.countCollectedPkh_empty.
  - split; [exact Hmono |].
    rewrite !countCollectedPkh_hashes. change (pkhs (signedBy p pk sig)) with (pkhs p).
    rewrite seenHashes_insert.
    destruct (pkhIsAllowed crypto pk (pkhs p)).
    + rewrite size_union_alt, size_singleton.
      pose proof (subseteq_size
                    (seenHashes crypto (pkhs p) (signers p) ∖ {[hashPubkey crypto pk]})
                    (seenHashes crypto (pkhs p) (signers p)) ltac:(set_solver)). lia.
    + rewrite (left_id_L ∅ (∪)). lia.
  - intros Ha. rewrite !countCollectedPkh_hashes.
    change (pkhs (signedBy p pk sig)) with (pkhs p).
    rewrite seenHashes_insert, Ha. by rewrite (left_id_L ∅ (∪)).
  - intros Hs. rewrite !countCollectedPkh_hashes.
    change (pkhs (signedBy p pk sig)) with (pkhs p).
    rewrite seenHashes_insert. f_equal. f_equal.
    destruct (pkhIsAllowed crypto pk (pkhs p)) eqn:Ha; [| by rewrite (left_id_L ∅ (∪))].
    apply set_eq. intros h. rewrite elem_of_union, elem_of_singleton. split; [| auto].
    intros [-> | H]; [| assumption].
    apply elem_of_seenHashes. exists pk. repeat split; [| assumption].
    by apply elem_of_signers.
  - unfold isPkhComplete. simpl. lia.
Qed.

(** *** Satisfied seeds stay satisfied *)

Lemma fully_Forall clock (tx : Transaction) crypto now :
  isTransactionFullySigned clock tx crypto now = true ↔
  Forall (fun s => isSeedsSatisfied clock (seeds s) crypto now = true) (spends tx).
Proof.
  unfold isTransactionFullySigned. induction (spends tx) as [|s l IH]; simpl.
  - split; [constructor | reflexivity].
  - rewrite andb_true_iff, IH. split; [intros []; by constructor | by inversion 1].
Qed.

Lemma isPkhComplete_eta (p : PkhSeeds) crypto :
  isPkhComplete (mkPkhSeeds (threshold p) (pkhs p) (signatures p)) crypto
  = isPkhComplete p crypto.
Proof. by destruct p. Qed.

Lemma attachedSpend_satisfied clock crypto now pk sig (s : Spend) :
  isSeedsSatisfied clock (seeds s) crypto now = true →
  isSeedsSatisfied clock (seeds (attachedSpend pk sig s)) crypto now = true.
Proof.
  unfold attachedSpend. destruct (seeds s) as [p| | |] eqn:E; simpl; rewrite ?E; auto.
  unfold isPkhComplete. simpl. pose proof (count_signedBy p crypto pk sig) as H.
  unfold signedBy in H. lia.
Qed.

Lemma mergeSeeds_satisfied clock crypto now (a b m : Seeds) :
  mergeSeeds a b = Ok m →
  isSeedsSatisfied clock a crypto now = true → isSeedsSatisfied clock m crypto now = true.
Proof.
  revert b m; induction a as [A|pa|na ia IH|]; intros [B|pb|nb ib|] m; simpl;
    try discriminate.
  - intros H. apply throw_if_Ok in H as [_ H]. apply throw_if_Ok in H as [_ [= <-]].
    simpl. unfold isPkhComplete. simpl.
    pose proof (count_spread_l (threshold A) (pkhs A) (signatures A) (signatures B) crypto).
    destruct A as [t ps sa]. simpl in *. lia.
  - intros [= <-]. simpl. destruct pa; [auto | discriminate].
  - intros H. apply throw_if_Ok in H as [_ H]. apply bind_Ok in H as (i & Hi & [= <-]).
    simpl. destruct (default clock now <? na); [discriminate |]. by apply (IH ib).
Qed.

Lemma mergeSpend_satisfied clock crypto now (byNote : gmap string Spend) (sa sr : Spend) :
  mergeSpend byNote sa = Ok sr →
  isSeedsSatisfied clock (seeds sa) crypto now = true →
  isSeedsSatisfied clock (seeds sr) crypto now = true.
Proof.
  unfold mergeSpend. destruct (byNote !! noteId sa) as [sb|]; [| by intros [= <-]].
  destruct (kind_eqb (kind (seeds sa)) (kind (seeds sb))); simpl; [| discriminate].
  destruct (seeds sa) as [A|pa|na ia|] eqn:Ea, (seeds sb) as [B|pb|nb ib|] eqn:Eb;
    simpl; try discriminate.
  - intros H. apply throw_if_Ok in H as [_ H]. apply throw_if_Ok in H as [_ [= <-]].
    simpl. unfold isPkhComplete. simpl.
    pose proof (count_spread_l (threshold A) (pkhs A) (signatures A) (signatures B) crypto).
    destruct A as [t ps sa']. simpl in *. lia.
  - intros [= <-]. simpl. destruct pa; [auto | discriminate].
  - intros [= <-]. simpl. destruct pa; [auto | discriminate].
  - intros [= <-]. simpl. destruct pa; [auto | discriminate].
  - intros [= <-]. simpl. destruct pa; [auto | discriminate].
  - intros H. apply throw_if_Ok in H as [_ H]. apply bind_Ok in H as (i & Hi & [= <-]).
    simpl. destruct (default clock now <? na); [discriminate |].
    by apply (mergeSeeds_satisfied _ _ _ ia ib).
Qed.

(** X8: signatures only add up. A transaction that is fully signed is
    still fully signed after [attachSignatureToSpend] attached one more
    signature, and after [mergePartiallySignedTx] merged another copy
    into it. For a %pkh spend that both copies carry, the merged spend
    counts at least as many signers as either copy. *)
Theorem signatures_only_add :
  (∀ tx noteId' pk sig crypto crypto' tx' clock now,
     attachSignatureToSpend tx noteId' pk sig crypto = Ok tx' →
     isTransactionFullySigned clock tx crypto' now = true →
     isTransactionFullySigned clock tx' crypto' now = true)
  ∧ (∀ a b r crypto clock now,
       mergePartiallySignedTx a b = Ok r →
       isTransactionFullySigned clock a crypto now = true →
       isTransactionFullySigned clock r crypto now = true)
  ∧ (∀ a b r crypto,
       mergePartiallySignedTx a b = Ok r →
       Forall2 (fun sa sr =>
                  ∀ sb A B, bByNote (spends b) !! noteId sa = Some sb →
                            seeds sa = SeedsPkh A → seeds sb = SeedsPkh B →
                            ∃ R, seeds sr = SeedsPkh R
                                 ∧ countCollectedPkh A crypto ≤ countCollectedPkh R crypto
                                 ∧ countCollectedPkh B crypto ≤ countCollectedPkh R crypto)
         (spends a) (spends r)).
Proof.
  split; [| split].
  - intros tx noteId' pk sig crypto crypto' tx' clock now H.
    apply attachSignatureToSpend_Ok in H as [_ ->].
    rewrite !fully_Forall. simpl. unfold attachedSpends. rewrite Forall_fmap.
    intros Hall. eapply Forall_impl; [exact Hall |]. intros s Hs. simpl.
    destruct (String.eqb (noteId s) noteId'); [| assumption].
    by apply attachedSpend_satisfied.
  - intros a b r crypto clock now H.
    unfold mergePartiallySignedTx in H. apply throw_if_Ok in H as [_ H].
    apply bind_Ok in H as (sp & Hsp & [= <-]). apply mapM_Ok_Forall2 in Hsp.
    rewrite !fully_Forall. simpl. intros Ha.
    induction Hsp as [|sa sr la lr Hs Hl IH]; [constructor |].
    inversion Ha; subst. constructor; [| by apply IH].
    by apply (mergeSpend_satisfied clock crypto now _ sa sr Hs).
  - intros a b r crypto H.
    unfold mergePartiallySignedTx in H. apply throw_if_Ok in H as [_ H].
    apply bind_Ok in H as (sp & Hsp & [= <-]). apply mapM_Ok_Forall2 in Hsp. simpl.
    eapply Forall2_impl; [exact Hsp |]. intros sa sr Hm sb A B Hsb HA HB.
    apply mergeSpend_Ok in Hm. unfold mergedWith in Hm. rewrite Hsb in Hm.
    destruct Hm as [_ Hm]. destruct (Hm A HA) as (B' & HB' & [Ht Hps] & ->).
    rewrite HB in HB'. injection HB' as <-.
    destruct A as [ta pa sa'], B as [tb pb sb']. simpl in *.
    eexists. split; [reflexivity |]. split.
    + apply count_spread_l.
    + rewrite (countCollectedPkh_pkhs_perm tb tb pb pa sb' crypto)
        by (symmetry; by apply sorted_pkhs_perm).
      apply count_spread_r.
Qed.

(** *** The order of attachments *)

(** What [attachSignatureToSpend] does to one spend when it returns. *)
Definition attachStep (noteId' : string) (pk : PubKey) (sig : Signature) (s : Spend) : Spend :=
  if String.eqb (noteId s) noteId' then attachedSpend pk sig s else s.

Lemma attachedSpend_noteId pk sig (s : Spend) : noteId (attachedSpend pk sig s) = noteId s.
Proof. unfold attachedSpend. by destruct (seeds s). Qed.

Lemma attachStep_noteId n pk sig (s : Spend) : noteId (attachStep n pk sig s) = noteId s.
Proof.
  unfold attachStep. destruct (String.eqb (noteId s) n); [apply attachedSpend_noteId | reflexivity].
Qed.

Lemma rejects_attachStep crypto n pk n' pk' sig' (s : Spend) :
  rejects crypto n pk (attachStep n' pk' sig' s) ↔ rejects crypto n pk s.
Proof.
  unfold rejects. rewrite attachStep_noteId. unfold attachStep, attachedSpend.
  destruct (String.eqb (noteId s) n'); [| reflexivity].
  destruct (seeds s) as [p| | |] eqn:E; simpl; rewrite ?E; reflexivity.
Qed.

Lemma attachStep_idem n pk sig (s : Spend) :
  attachStep n pk sig (attachStep n pk sig s) = attachStep n pk sig s.
Proof.
  unfold attachStep at 1. rewrite attachStep_noteId. unfold attachStep.
  destruct (String.eqb (noteId s) n); [| reflexivity].
  unfold attachedSpend. destruct (seeds s) as [p| | |] eqn:E; simpl; rewrite ?E; try reflexivity.
  by rewrite insert_insert_eq.
Qed.

Lemma attachStep_commute n1 pk1 sig1 n2 pk2 sig2 (s : Spend) :
  n1 ≠ n2 ∨ pk1 ≠ pk2 →
  attachStep n2 pk2 sig2 (attachStep n1 pk1 sig1 s)
  = attachStep n1 pk1 sig1 (attachStep n2 pk2 sig2 s).
Proof.
  intros Hne. unfold attachStep at 1 3. rewrite !attachStep_noteId. unfold attachStep.
  destruct (String.eqb_spec (noteId s) n1) as [E1|E1],
           (String.eqb_spec (noteId s) n2) as [E2|E2]; try reflexivity.
  destruct Hne as [Hne|Hne]; [congruence |].
  unfold attachedSpend. destruct (seeds s) as [p| | |] eqn:E; simpl; rewrite ?E; try reflexivity.
  by rewrite insert_insert_ne.
Qed.

Lemma attachSignatureToSpend_steps tx n pk sig crypto (tx' : Transaction) :
  attachSignatureToSpend tx n pk sig crypto = Ok tx' ↔
  Forall (fun s => ¬ rejects crypto n pk s) (spends tx)
  ∧ tx' = with_spends tx (map (attachStep n pk sig) (spends tx)).
Proof. apply attachSignatureToSpend_Ok. Qed.

(** X9: the order of attachments does not matter.  Attaching the same
    signature a second time changes nothing; and two attachments under
    different keys, or to different note ids, give the same transaction
    in either order (the second order succeeds when the first does). *)
Theorem attachSignatureToSpend_order :
  (∀ tx n pk sig crypto tx1,
     attachSignatureToSpend tx n pk sig crypto = Ok tx1 →
     attachSignatureToSpend tx1 n pk sig crypto = Ok tx1)
  ∧ (∀ tx n1 pk1 sig1 n2 pk2 sig2 crypto tx1 tx12,
       n1 ≠ n2 ∨ pk1 ≠ pk2 →
       attachSignatureToSpend tx n1 pk1 sig1 crypto = Ok tx1 →
       attachSignatureToSpend tx1 n2 pk2 sig2 crypto = Ok tx12 →
       ∃ tx2, attachSignatureToSpend tx n2 pk2 sig2 crypto = Ok tx2
              ∧ attachSignatureToSpend tx2 n1 pk1 sig1 crypto = Ok tx12).
Proof.
  split.
  - intros tx n pk sig crypto tx1 H. apply attachSignatureToSpend_steps in H as [HF ->].
    apply attachSignatureToSpend_steps. simpl. split.
    + rewrite Forall_fmap. eapply Forall_impl; [exact HF |]. intros s Hs. simpl.
      by rewrite rejects_attachStep.
    + unfold with_spends. simpl. f_equal. rewrite <- list_fmap_compose.
      apply list_fmap_ext. intros i s _. simpl. symmetry. apply attachStep_idem.
  - intros tx n1 pk1 sig1 n2 pk2 sig2 crypto tx1 tx12 Hne H1 H2.
    apply attachSignatureToSpend_steps in H1 as [HF1 ->].
    apply attachSignatureToSpend_steps in H2 as [HF2 ->]. simpl in *.
    rewrite Forall_fmap in HF2.
    exists (with_spends tx (map (attachStep n2 pk2 sig2) (spends tx))). split.
    + apply attachSignatureToSpend_steps. split; [| reflexivity].
      eapply Forall_impl; [exact HF2 |]. intros s Hs. simpl in Hs.
      by rewrite rejects_attachStep in Hs.
    + apply attachSignatureToSpend_steps. simpl. split.
      * rewrite Forall_fmap. eapply Forall_impl; [exact HF1 |]. intros s Hs. simpl.
        by rewrite rejects_attachStep.
      * unfold with_spends. simpl. f_equal. rewrite <- !list_fmap_compose.
        apply list_fmap_ext. intros i s _. simpl. by apply attachStep_commute.
Qed.

(** *** Merging a transaction with itself *)

Lemma mergeSeeds_self (s : Seeds) : mergeSeeds s s = Ok s.
Proof.
  induction s as [A|pa|na ia IH|]; simpl; try reflexivity.
  - rewrite Z.eqb_refl. simpl.
    assert (pkhs_differ (pkhs A) (pkhs A) = false) as -> by (by apply pkhs_differ_false).
    simpl. unfold spread_signatures. rewrite (idemp_L (∪)). by destruct A.
  - by destruct pa.
  - rewrite Z.eqb_refl. simpl. rewrite IH. reflexivity.
Qed.

Lemma kind_eqb_refl (k : Kind) : kind_eqb k k = true.
Proof. by destruct k. Qed.

Lemma mergeSpend_self (byNote : gmap string Spend) (sa : Spend) :
  byNote !! noteId sa = Some sa → mergeSpend byNote sa = Ok sa.
Proof.
  intros H. unfold mergeSpend. rewrite H, kind_eqb_refl. simpl.
  destruct sa as [id sd]. simpl. destruct sd as [A|pa|na ia|]; simpl.
  - rewrite Z.eqb_refl. simpl.
    assert (pkhs_differ (pkhs A) (pkhs A) = false) as -> by (by apply pkhs_differ_false).
    simpl. unfold spread_signatures. rewrite (idemp_L (∪)). by destruct A.
  - by destruct pa.
  - rewrite Z.eqb_refl. simpl. by rewrite mergeSeeds_self.
  - reflexivity.
Qed.

(** X10: merging a transaction with itself changes nothing, when no two
    of its spends share a note id. *)
Theorem mergePartiallySignedTx_self (a : Transaction) :
  NoDup (map noteId (spends a)) → mergePartiallySignedTx a a = Ok a.
Proof.
  intros Hnd. unfold mergePartiallySignedTx. rewrite String.eqb_refl. simpl.
  rewrite (FreshSpec.mapM_map _ id).
  - simpl. rewrite list_fmap_id. by destruct a.
  - intros sa Hsa. unfold id. apply mergeSpend_self.
    destruct (bByNote (spends a) !! noteId sa) as [sb|] eqn:E.
    + apply bByNote_Some in E as [Hin Hid]. f_equal.
      apply (OrderSpec.keyed_NoDup noteId (spends a) Hnd); assumption.
    + apply bByNote_None in E. rewrite Forall_forall in E. by specialize (E sa Hsa).
Qed.

Lemma mergePartiallySignedTx_self_witness :
  mergePartiallySignedTx demoTx2 demoTx2 = Ok demoTx2.
Proof.
  apply mergePartiallySignedTx_self.
  apply (bool_decide_unpack (NoDup _)). vm_compute. exact I.
Defined.

(** *** Time locks and burn seeds *)

Lemma isSeedsSatisfied_later clock crypto (s : Seeds) (t t' : Z) :
  t ≤ t' →
  isSeedsSatisfied clock s crypto (Some t) = true →
  isSeedsSatisfied clock s crypto (Some t') = true.
Proof.
  intros Ht. induction s as [p|pre|nb inner IH|]; simpl; auto.
  destruct (t <? nb) eqn:E; [discriminate |].
  replace (t' <? nb) with false by lia. exact IH.
Qed.

Lemma isSeedsSatisfied_clock clock crypto (s : Seeds) (t : Z) :
  isSeedsSatisfied clock s crypto (Some t) = isSeedsSatisfied t s crypto None.
Proof. induction s as [p|pre|nb inner IH|]; simpl; auto. by rewrite IH. Qed.

Lemma isSeedsSatisfied_burns clock crypto now (s : Seeds) :
  burns s = true → isSeedsSatisfied clock s crypto now = false.
Proof.
  induction s as [p|pre|nb inner IH|]; simpl; try discriminate; auto.
  intros H. rewrite (IH H). by destruct (default clock now <? nb).
Qed.

Lemma isSeedsSatisfied_early clock crypto now (s : Seeds) :
  Exists (fun nb => default clock now < nb) (notBefores s) →
  isSeedsSatisfied clock s crypto now = false.
Proof.
  induction s as [p|pre|nb inner IH|]; simpl; intros H; try (by inversion H).
  destruct (default clock now <? nb) eqn:E; [reflexivity |].
  apply IH. inversion H; subst; [lia | assumption].
Qed.

Lemma fully_false clock (tx : Transaction) crypto now (s : Spend) :
  s ∈ spends tx → isSeedsSatisfied clock (seeds s) crypto now = false →
  isTransactionFullySigned clock tx crypto now = false.
Proof.
  intros Hin Hs. destruct (isTransactionFullySigned clock tx crypto now) eqn:E;
    [| reflexivity].
  apply fully_Forall in E. rewrite Forall_forall in E. specialize (E s Hin). congruence.
Qed.

(** X11: time locks and burn seeds in [isTransactionFullySigned]. A
    transaction that is fully signed at one time is fully signed at
    every later time; passing [now] is the same as the clock showing
    it. A transaction with a spend whose innermost seeds are the burn
    seeds is never fully signed, nor is one with a spend under a time
    lock that lies in the future. A transaction without spends counts
    as fully signed. *)
Theorem isTransactionFullySigned_time (clock : Z) (tx : Transaction) (crypto : CryptoProvider) :
  (∀ t t', t ≤ t' →
     isTransactionFullySigned clock tx crypto (Some t) = true →
     isTransactionFullySigned clock tx crypto (Some t') = true)
  ∧ (∀ t, isTransactionFullySigned clock tx crypto (Some t)
          = isTransactionFullySigned t tx crypto None)
  ∧ (∀ now s, s ∈ spends tx → burns (seeds s) = true →
       isTransactionFullySigned clock tx crypto now = false)
  ∧ (∀ now s, s ∈ spends tx →
       Exists (fun nb => default clock now < nb) (notBefores (seeds s)) →
       isTransactionFullySigned clock tx crypto now = false)
  ∧ (∀ now, spends tx = [] → isTransactionFullySigned clock tx crypto now = true).
Proof.
  split; [| split; [| split; [| split]]].
  - intros t t' Ht. rewrite !fully_Forall. intros H.
    eapply Forall_impl; [exact H |]. intros s. by apply isSeedsSatisfied_later.
  - intros t. unfold isTransactionFullySigned.
    induction (spends tx) as [|s l IH]; simpl; [reflexivity |].
    by rewrite isSeedsSatisfied_clock, IH.
  - intros now s Hin Hb. apply (fully_false _ _ _ _ s Hin).
    by apply isSeedsSatisfied_burns.
  - intros now s Hin He. apply (fully_false _ _ _ _ s Hin).
    by apply isSeedsSatisfied_early.
  - intros now E. unfold isTransactionFullySigned. by rewrite E.
Qed.

End ProgressSpec.
(** ** helpers.ts: status and coordination helpers *)

Module Coordination.
Import Js TxCore Helpers.

Record SpendStatus := mkSpendStatus {
  st_noteId : string;
  lockKind : Kind;
  st_threshold : option Z;
  collected : option Z;
  st_signers : option (list PubKey);
  complete : bool
}.

Record TransactionStatus := mkTransactionStatus {
  st_unsignedHash : Hash;
  totalInputs : Z;
  totalOutputs : Z;
  st_fee : Z;
  st_spends : list SpendStatus;
  isFullySigned : bool
}.

(** The callback of [tx.spends.map] in [getTransactionStatus]. *)
Definition spendStatus (crypto : CryptoProvider) (s : Spend) : SpendStatus :=
  match seeds s with
  | SeedsPkh p =>
      let collected := countCollectedPkh p crypto in
      mkSpendStatus (noteId s) KPkh (Some (threshold p)) (Some collected)
        (Some (signers p)) (collected >=? threshold p)
  | SeedsHax pre => mkSpendStatus (noteId s) KHax None None None (truthy pre)
  | SeedsTim _ _ => mkSpendStatus (noteId s) KTim None None None false
  | SeedsBrn => mkSpendStatus (noteId s) KBrn None None None false
  end.

(** [isTransactionFullySigned] is called without [now]: it reads the
    clock. *)
Definition getTransactionStatus (clock : Z) (tx : Transaction) (crypto : CryptoProvider)
    : TransactionStatus :=
  let spends' := map (spendStatus crypto) (spends tx) in
  let totalInputs := foldl (fun acc _s => acc) 0 (spends tx) in
  let totalOutputs := foldl (fun acc o => acc + amount o) 0 (outputs tx) in
  mkTransactionStatus (unsignedHash tx) totalInputs totalOutputs (fee tx) spends'
    (isTransactionFullySigned clock tx crypto None).

Record MultisigParticipant := mkParticipant {
  mp_pubkey : PubKey;
  mp_pkh : Hash;
  hasSigned : bool
}.

(** One turn of the loop over [Object.keys(seeds.signatures)]; the
    state is [(signedPkhs, pubkeyByPkh)]. *)
Definition noteSigner (crypto : CryptoProvider) (st : gset Hash * gmap Hash PubKey)
    (pubkey : PubKey) : gset Hash * gmap Hash PubKey :=
  let pkh := hashPubkey crypto pubkey in
  ({[pkh]} ∪ fst st, <[pkh := pubkey]> (snd st)).

(** One turn of the loop over [knownPubkeys]. *)
Definition noteKnown (pubkeyByPkh : gmap Hash PubKey) (e : Hash * PubKey)
    : gmap Hash PubKey :=
  if bool_decide (is_Some (pubkeyByPkh !! fst e)) then pubkeyByPkh
  else <[fst e := snd e]> pubkeyByPkh.

(** [getMultisigParticipants], given the keys of [seeds.signatures] in
    the order in which [Object.keys] lists them. [pkh.slice(0, 8)] is
    the first 8 characters. *)
Definition participantsFrom (keys : list PubKey) (pkhs : list Hash)
    (crypto : CryptoProvider) (knownPubkeys : option (gmap Hash PubKey))
    : list MultisigParticipant :=
  let '(signedPkhs, pubkeyByPkh) := foldl (noteSigner crypto) (∅, ∅) keys in
  let pubkeyByPkh :=
    match knownPubkeys with
    | Some known => foldl noteKnown pubkeyByPkh (map_to_list known)
    | None => pubkeyByPkh
    end in
  map (fun pkh =>
         mkParticipant
           (match pubkeyByPkh !! pkh with
            | Some pubkey => pubkey
            | None => "unknown:" +:+ substring 0 8 pkh +:+ "..."
            end)
           pkh
           (bool_decide (pkh ∈ signedPkhs)))
      pkhs.

Definition getMultisigParticipants (p : PkhSeeds) (crypto : CryptoProvider)
    (knownPubkeys : option (gmap Hash PubKey)) : list MultisigParticipant :=
  participantsFrom (signers p) (pkhs p) crypto knownPubkeys.

Definition canPubkeySign (pubkey : PubKey) (p : PkhSeeds) (crypto : CryptoProvider) : bool :=
  let pkh := hashPubkey crypto pubkey in
  includes (pkhs p) pkh.

(** The property names every plain object inherits from
    [Object.prototype]. *)
Definition objectPrototypeKeys : list string :=
  ["constructor"; "__defineGetter__"; "__defineSetter__"; "hasOwnProperty";
   "__lookupGetter__"; "__lookupSetter__"; "isPrototypeOf"; "propertyIsEnumerable";
   "toString"; "valueOf"; "__proto__"; "toLocaleString"].

(** [pubkey in seeds.signatures]: an own property, or an inherited one. *)
Definition hasPubkeySigned (pubkey : PubKey) (p : PkhSeeds) : bool :=
  bool_decide (is_Some (signatures p !! pubkey)) || includes objectPrototypeKeys pubkey.

End Coordination.
(** ** The status and coordination helpers *)

Module CoordinationSpec.
Import Js TxCore Crypto Helpers Basics BuildSpec SignSpec CollectSpec ProgressSpec Coordination.

(** The text shown for a pkh no key is known for. *)
Definition unknownLabel (pkh : Hash) : PubKey := "unknown:" +:+ substring 0 8 pkh +:+ "...".

Lemma foldl_const {A} (l : list A) (z : Z) : foldl (fun acc _ => acc) z l = z.
Proof. induction l as [|x l IH]; simpl; auto. Qed.

Lemma spendStatus_noteId crypto (s : Spend) : st_noteId (spendStatus crypto s) = noteId s.
Proof. unfold spendStatus. by destruct (seeds s). Qed.

Lemma spendStatus_kind crypto (s : Spend) : lockKind (spendStatus crypto s) = kind (seeds s).
Proof. unfold spendStatus. by destruct (seeds s). Qed.

Lemma complete_satisfied clock crypto now (s : Spend) :
  complete (spendStatus crypto s) = true →
  isSeedsSatisfied clock (seeds s) crypto now = true.
Proof. unfold spendStatus. destruct (seeds s) as [p|pre|nb inner|]; simpl; auto; discriminate. Qed.

Lemma satisfied_complete clock crypto now (s : Spend) :
  kind (seeds s) ≠ KTim →
  isSeedsSatisfied clock (seeds s) crypto now = true →
  complete (spendStatus crypto s) = true.
Proof. unfold spendStatus. destruct (seeds s) as [p|pre|nb inner|]; simpl; auto; done. Qed.

(** X12: what [getTransactionStatus] reports. One status per spend, in
    order, with the note id and the kind of the seeds; the total of the
    outputs and the fee; and 0 as the total of the inputs, whatever the
    transaction spends. When every spend is reported complete the
    transaction is reported fully signed; the converse holds for a
    transaction without time-locked spends, and a time-locked spend is
    never reported complete. *)
Theorem getTransactionStatus_report (clock : Z) (tx : Transaction) (crypto : CryptoProvider) :
  totalInputs (getTransactionStatus clock tx crypto) = 0
  ∧ totalOutputs (getTransactionStatus clock tx crypto) = sumOutputs (outputs tx)
  ∧ st_fee (getTransactionStatus clock tx crypto) = fee tx
  ∧ map st_noteId (st_spends (getTransactionStatus clock tx crypto)) = map noteId (spends tx)
  ∧ map lockKind (st_spends (getTransactionStatus clock tx crypto))
    = map (fun s => kind (seeds s)) (spends tx)
  ∧ (Forall (fun x => complete x = true) (st_spends (getTransactionStatus clock tx crypto)) →
     isFullySigned (getTransactionStatus clock tx crypto) = true)
  ∧ (Forall (fun s => kind (seeds s) ≠ KTim) (spends tx) →
     isFullySigned (getTransactionStatus clock tx crypto) = true →
     Forall (fun x => complete x = true) (st_spends (getTransactionStatus clock tx crypto)))
  ∧ Forall (fun x => lockKind x = KTim → complete x = false)
      (st_spends (getTransactionStatus clock tx crypto)).
Proof.
  unfold getTransactionStatus. simpl. repeat split.
  - apply foldl_const.
  - rewrite <- list_fmap_compose. apply list_fmap_ext. intros i s _. apply spendStatus_noteId.
  - rewrite <- list_fmap_compose. apply list_fmap_ext. intros i s _. apply spendStatus_kind.
  - rewrite Forall_fmap. intros H. apply fully_Forall.
    eapply Forall_impl; [exact H |]. intros s. apply complete_satisfied.
  - intros Hk Hf. apply fully_Forall in Hf. rewrite Forall_fmap.
    rewrite Forall_forall in *. intros s Hs. simpl.
    by apply (satisfied_complete clock crypto None s (Hk s Hs)), Hf.
  - rewrite Forall_fmap. apply Forall_forall. intros s _. simpl.
    unfold spendStatus. destruct (seeds s); simpl; congruence.
Qed.

(** *** Participants *)

Lemma noteSigner_foldl crypto (keys : list PubKey) (seen : gset Hash) (m : gmap Hash PubKey) :
  let r := foldl (noteSigner crypto) (seen, m) keys in
  (∀ h, h ∈ fst r ↔ h ∈ seen ∨ h ∈ map (hashPubkey crypto) keys)
  ∧ (∀ h, h ∈ map (hashPubkey crypto) keys →
          ∃ pk, snd r !! h = Some pk ∧ pk ∈ keys ∧ hashPubkey crypto pk = h)
  ∧ (∀ h, h ∉ map (hashPubkey crypto) keys → snd r !! h = m !! h).
Proof.
  revert seen m; induction keys as [|k keys IH]; intros seen m; simpl.
  - repeat split.
    + intros H; by left.
    + intros [H | H]; [assumption | by inversion H].
    + intros h H. by inversion H.
  - change (noteSigner crypto (seen, m) k)
      with ({[hashPubkey crypto k]} ∪ seen, <[hashPubkey crypto k := k]> m).
    destruct (IH ({[hashPubkey crypto k]} ∪ seen) (<[hashPubkey crypto k := k]> m))
      as (H1 & H2 & H3).
    repeat split.
    + intros H. apply H1 in H as [H | H].
      * apply elem_of_union in H as [H | H]; [| by left].
        apply elem_of_singleton in H as ->. right. by left.
      * right. by right.
    + intros [H | H]; apply H1.
      * left. apply elem_of_union. by right.
      * apply elem_of_cons in H as [-> | H].
        -- left. apply elem_of_union. left. by apply elem_of_singleton.
        -- by right.
    + intros h Hh.
      destruct (decide (h ∈ map (hashPubkey crypto) keys)) as [He | Hn].
      * destruct (H2 h He) as (pk' & Hl & Hin & Hh'). exists pk'.
        repeat split; [assumption | by right | assumption].
      * rewrite (H3 h Hn). apply elem_of_cons in Hh as [-> | Hh]; [| contradiction].
        exists k. rewrite lookup_insert_eq. repeat split. by left.
    + intros h Hn. apply not_elem_of_cons in Hn as [Hne Hn]. rewrite (H3 h Hn).
      by apply lookup_insert_ne.
Qed.

Lemma noteKnown_foldl (l : list (Hash * PubKey)) (m : gmap Hash PubKey) (h : Hash) :
  foldl noteKnown m l !! h
  = match m !! h with
    | Some pk => Some pk
    | None => (list_to_map l : gmap Hash PubKey) !! h
    end.
Proof.
  revert m; induction l as [|[k v] l IH]; intros m; simpl.
  - by destruct (m !! h).
  - rewrite IH. unfold noteKnown. simpl.
    destruct (decide (is_Some (m !! k))) as [Hs | Hs].
    + rewrite bool_decide_eq_true_2 by assumption.
      destruct (m !! h) eqn:E; [reflexivity |].
      rewrite lookup_insert_ne; [reflexivity |]. intros ->. rewrite E in Hs.
      by apply is_Some_None in Hs.
    + rewrite bool_decide_eq_false_2 by assumption.
      destruct (decide (k = h)) as [-> | Hne].
      * rewrite !lookup_insert_eq. apply eq_None_not_Some in Hs. by rewrite Hs.
      * by rewrite !lookup_insert_ne.
Qed.

Lemma participantsFrom_unfold (keys : list PubKey) (ps : list Hash) crypto known :
  participantsFrom keys ps crypto known
  = map (fun pkh =>
           mkParticipant
             (if bool_decide (pkh ∈ map (hashPubkey crypto) keys)
              then default "" (snd (foldl (noteSigner crypto) (∅, ∅) keys) !! pkh)
              else match known ≫= (fun k => k !! pkh) with
                   | Some pk => pk
                   | None => unknownLabel pkh
                   end)
             pkh
             (bool_decide (pkh ∈ map (hashPubkey crypto) keys)))
        ps.
Proof.
  unfold participantsFrom.
  pose proof (noteSigner_foldl crypto keys ∅ ∅) as (H1 & H2 & H3).
  destruct (foldl (noteSigner crypto) (∅, ∅) keys) as [signedPkhs byPkh]. simpl in *.
  apply list_fmap_ext. intros i pkh _.
  assert (bool_decide (pkh ∈ signedPkhs) = bool_decide (pkh ∈ map (hashPubkey crypto) keys))
    as ->.
  { apply bool_decide_ext. rewrite H1. set_solver. }
  f_equal.
  destruct (decide (pkh ∈ map (hashPubkey crypto) keys)) as [Hin | Hn].
  - rewrite bool_decide_eq_true_2 by assumption.
    destruct (H2 pkh Hin) as (pk & Hl & _).
    destruct known as [k|]; simpl; [| by rewrite Hl].
    by rewrite noteKnown_foldl, Hl.
  - rewrite bool_decide_eq_false_2 by assumption.
    pose proof (H3 pkh Hn) as Hl. rewrite lookup_empty in Hl.
    destruct known as [k|]; simpl; [| by rewrite Hl].
    by rewrite noteKnown_foldl, Hl, list_to_map_to_list.
Qed.

Lemma length_filter_fmap {A B} (f : A → B) (P : B → Prop) `{∀ x, Decision (P x)}
    (l : list A) :
  length (filter P (map f l)) = length (filter (fun x => P (f x)) l).
Proof.
  induction l as [|x l IH]; [reflexivity |].
  rewrite fmap_cons, !filter_cons.
  destruct (decide (P (f x))); [cbn [length]; f_equal |]; exact IH.
Qed.

Lemma hashes_of_keys crypto (p : PkhSeeds) (keys : list PubKey) (h : Hash) :
  keys ≡ₚ signers p →
  h ∈ map (hashPubkey crypto) keys ↔
  ∃ pk, is_Some (signatures p !! pk) ∧ hashPubkey crypto pk = h.
Proof.
  intros Hp. rewrite list_elem_of_fmap. split.
  - intros (pk & -> & Hin). exists pk. split; [| reflexivity].
    apply elem_of_signers. by rewrite <- Hp.
  - intros (pk & Hs & <-). exists pk. split; [reflexivity |].
    rewrite Hp. by apply elem_of_signers.
Qed.

(** X13: what [getMultisigParticipants] lists, whatever the order in
    which [Object.keys] lists the signing keys. There is one
    participant per pkh of the seeds, in order. A participant has
    signed exactly when some signing key hashes to the pkh (a key that
    is listed in pkhs as it is does not make its participant signed,
    though [countCollectedPkh] counts it); its pubkey is then a signing
    key that hashes to the pkh. Otherwise its pubkey is the known
    pubkey of the pkh, or the text unknown: with the first 8 characters
    of the pkh. With distinct pkhs, no more participants have signed
    than [countCollectedPkh] counts. *)
Theorem getMultisigParticipants_lists (p : PkhSeeds) (crypto : CryptoProvider)
    (known : option (gmap Hash PubKey)) (keys : list PubKey) :
  keys ≡ₚ signers p →
  Forall2 (fun pkh m =>
             mp_pkh m = pkh
             ∧ (hasSigned m = true ↔
                ∃ pk, is_Some (signatures p !! pk) ∧ hashPubkey crypto pk = pkh)
             ∧ (hasSigned m = true →
                is_Some (signatures p !! mp_pubkey m) ∧ hashPubkey crypto (mp_pubkey m) = pkh)
             ∧ (hasSigned m = false →
                mp_pubkey m = match known ≫= (fun k => k !! pkh) with
                              | Some pk => pk
                              | None => unknownLabel pkh
                              end))
    (pkhs p) (participantsFrom keys (pkhs p) crypto known)
  ∧ (NoDup (pkhs p) →
     Z.of_nat (length (filter (fun m => hasSigned m = true)
                         (participantsFrom keys (pkhs p) crypto known)))
     ≤ countCollectedPkh p crypto).
Proof.
  intros Hp. rewrite participantsFrom_unfold. split.
  - apply Forall2_fmap_r, Forall_Forall2_diag, Forall_forall. intros pkh _. simpl.
    split; [reflexivity |]. split; [| split].
    + rewrite bool_decide_eq_true. by apply hashes_of_keys.
    + intros Hs. rewrite Hs. apply bool_decide_eq_true in Hs.
      pose proof (noteSigner_foldl crypto keys ∅ ∅) as (_ & H2 & _).
      destruct (H2 pkh Hs) as (pk & -> & Hin & Hh). simpl. split; [| assumption].
      apply elem_of_signers. by rewrite <- Hp.
    + by intros ->.
  - intros Hnd. rewrite countCollectedPkh_hashes.
    set (signed := filter (fun h => h ∈ map (hashPubkey crypto) keys) (pkhs p)).
    rewrite length_filter_fmap.
    rewrite (list_filter_iff _ (fun h => h ∈ map (hashPubkey crypto) keys))
      by (intros h; simpl; apply bool_decide_eq_true).
    fold signed.
    apply inj_le.
    rewrite <- (size_list_to_set (C := gset Hash) signed)
      by (subst signed; by apply NoDup_filter).
    apply subseteq_size. intros h Hh. apply elem_of_list_to_set in Hh.
    subst signed. apply list_elem_of_filter in Hh as [Hk Hin].
    apply (hashes_of_keys crypto p keys h Hp) in Hk as (pk & Hs & <-).
    apply elem_of_seenHashes. exists pk. repeat split.
    + by apply elem_of_signers.
    + unfold pkhIsAllowed, includes. by rewrite bool_decide_eq_true_2.
Qed.

Lemma getMultisigParticipants_lists_witness :
  getMultisigParticipants aliceTwice MockCryptoProvider None
  = participantsFrom (signers aliceTwice) (pkhs aliceTwice) MockCryptoProvider None
  ∧ Z.of_nat (length (filter (fun m => hasSigned m = true)
                        (getMultisigParticipants aliceTwice MockCryptoProvider None)))
    ≤ countCollectedPkh aliceTwice MockCryptoProvider.
Proof.
  split; [reflexivity |].
  destruct (getMultisigParticipants_lists aliceTwice MockCryptoProvider None (signers aliceTwice))
    as [_ H]; [reflexivity |].
  apply H. apply (bool_decide_unpack (NoDup _)). vm_compute. exact I.
Defined.

(** *** Who can sign, who has signed *)

Lemma includes_true (l : list string) (x : string) : includes l x = true ↔ x ∈ l.
Proof. unfold includes. apply bool_decide_eq_true. Qed.

(** X14: [canPubkeySign], [attachSignatureToSpend] and
    [hasPubkeySigned]. A key that [canPubkeySign] accepts is a key
    [attachSignatureToSpend] accepts ([attachSignatureToSpend] also
    accepts a key that is listed in pkhs as it is). When every spend
    with the note id has %pkh seeds for which the key can sign, the
    attachment succeeds, and afterwards [hasPubkeySigned] holds of the
    key for every spend with that note id. The answer for another key
    is not changed by the attachment. *)
Theorem canPubkeySign_attach (pk : PubKey) (crypto : CryptoProvider) :
  (∀ p, pkhIsAllowed crypto pk (pkhs p) = canPubkeySign pk p crypto || includes (pkhs p) pk)
  ∧ (∀ p sig, hasPubkeySigned pk (signedBy p pk sig) = true)
  ∧ (∀ p sig pk', pk' ≠ pk →
       hasPubkeySigned pk' (signedBy p pk sig) = hasPubkeySigned pk' p)
  ∧ (∀ tx noteId' sig,
       Forall (fun s => noteId s = noteId' →
                        ∃ p, seeds s = SeedsPkh p ∧ canPubkeySign pk p crypto = true)
         (spends tx) →
       ∃ tx', attachSignatureToSpend tx noteId' pk sig crypto = Ok tx'
              ∧ Forall (fun s' => noteId s' = noteId' →
                                  ∃ p', seeds s' = SeedsPkh p'
                                        ∧ hasPubkeySigned pk p' = true)
                  (spends tx')).
Proof.
  split; [| split; [| split]].
  - reflexivity.
  - intros p sig. unfold hasPubkeySigned. simpl. rewrite lookup_insert_eq.
    by rewrite bool_decide_eq_true_2 by eauto.
  - intros p sig pk' Hne. unfold hasPubkeySigned. simpl. by rewrite lookup_insert_ne.
  - intros tx noteId' sig HF.
    exists (with_spends tx (map (attachStep noteId' pk sig) (spends tx))). split.
    + apply attachSignatureToSpend_steps. split; [| reflexivity].
      eapply Forall_impl; [exact HF |]. intros s Hs [Hid Hr].
      destruct (Hs Hid) as (p & Hp & Hc). rewrite Hp in Hr.
      unfold pkhIsAllowed in Hr. unfold canPubkeySign in Hc. by rewrite Hc in Hr.
    + simpl. rewrite Forall_fmap. eapply Forall_impl; [exact HF |]. intros s Hs. simpl.
      rewrite attachStep_noteId. intros Hid. destruct (Hs Hid) as (p & Hp & _).
      unfold attachStep. rewrite <- Hid, String.eqb_refl. unfold attachedSpend. rewrite Hp.
      simpl. eexists. split; [reflexivity |].
      unfold hasPubkeySigned. simpl. rewrite lookup_insert_eq.
      by rewrite bool_decide_eq_true_2 by eauto.
Qed.

End CoordinationSpec.
From Stdlib Require HexadecimalN HexadecimalFacts HexadecimalPos.

(** ** The Iris signer: the bytes handed to the wallet *)

Module IrisSigner.
Import Js TxCore.

(** The object literal has no [network] property. *)
Definition buildSigningBytes (tx : Transaction) : Bytes :=
  encodeUnsignedPayload
    (mkUnsigned (version tx) None (spends tx) (outputs tx) (fee tx)).

End IrisSigner.

(** ** The mock hash *)

Module HashSpec.
Import Js TxCore Crypto Helpers Basics BuildSpec.

#[local] Arguments String.append !s1 s2 : simpl nomatch.

(** A character of lower-case hexadecimal text. *)
Definition is_hex (c : ascii) : bool :=
  let n := N_of_ascii c in
  ((48 <=? n) && (n <=? 57) || (97 <=? n) && (n <=? 102))%N.

Fixpoint all_hex (s : string) : bool :=
  match s with
  | String c s' => is_hex c && all_hex s'
  | EmptyString => true
  end.

(** The hexadecimal digit [r], put in front of the little-endian digits [lu]. *)
Definition hex_cons (r : N) (lu : Hexadecimal.uint) : Hexadecimal.uint :=
  match r with
  | 0 => Hexadecimal.D0 lu | 1 => Hexadecimal.D1 lu | 2 => Hexadecimal.D2 lu
  | 3 => Hexadecimal.D3 lu | 4 => Hexadecimal.D4 lu | 5 => Hexadecimal.D5 lu
  | 6 => Hexadecimal.D6 lu | 7 => Hexadecimal.D7 lu | 8 => Hexadecimal.D8 lu
  | 9 => Hexadecimal.D9 lu | 10 => Hexadecimal.Da lu | 11 => Hexadecimal.Db lu
  | 12 => Hexadecimal.Dc lu | 13 => Hexadecimal.Dd lu | 14 => Hexadecimal.De lu
  | _ => Hexadecimal.Df lu
  end%N.

Lemma hex_cons_spec (r : N) (lu : Hexadecimal.uint) :
  (r < 16)%N →
  HexadecimalPos.Unsigned.of_lu (hex_cons r lu) = (r + 16 * HexadecimalPos.Unsigned.of_lu lu)%N
  ∧ Hexadecimal.nb_digits (hex_cons r lu) = S (Hexadecimal.nb_digits lu).
Proof.
  intros Hr.
  assert (r = 0 ∨ r = 1 ∨ r = 2 ∨ r = 3 ∨ r = 4 ∨ r = 5 ∨ r = 6 ∨ r = 7 ∨ r = 8 ∨ r = 9
          ∨ r = 10 ∨ r = 11 ∨ r = 12 ∨ r = 13 ∨ r = 14 ∨ r = 15)%N as H by lia.
  repeat (destruct H as [-> | H]; [split; reflexivity |]). subst r. split; reflexivity.
Qed.

(** Every number below [16 ^ d] has a numeral of [d] digits. *)
Lemma hex_numeral (d : nat) (n : N) :
  (n < 16 ^ N.of_nat d)%N →
  ∃ lu, Hexadecimal.nb_digits lu = d ∧ HexadecimalPos.Unsigned.of_lu lu = n.
Proof.
  revert n; induction d as [|d IH]; intros n Hn.
  - exists Hexadecimal.Nil. split; [reflexivity |]. simpl in *. lia.
  - rewrite Nat2N.inj_succ, N.pow_succ_r' in Hn.
    destruct (IH (n / 16)%N) as (lu & Hd & Hv).
    { apply N.Div0.div_lt_upper_bound. lia. }
    assert (n mod 16 < 16)%N as Hr by (apply N.mod_lt; lia).
    destruct (hex_cons_spec (n mod 16) lu Hr) as [Hval Hlen].
    exists (hex_cons (n mod 16) lu). split; [by rewrite Hlen, Hd |].
    rewrite Hval, Hv. pose proof (N.div_mod n 16). lia.
Qed.

Lemma to_hex_uint_digits (d : nat) (n : N) :
  (0 < d)%nat → (n < 16 ^ N.of_nat d)%N →
  (Hexadecimal.nb_digits (N.to_hex_uint n) ≤ d)%nat.
Proof.
  intros Hd Hn. destruct (hex_numeral d n Hn) as (lu & Hlen & Hv).
  assert (N.to_hex_uint n = Hexadecimal.unorm (Hexadecimal.rev lu)) as ->.
  { rewrite <- HexadecimalN.Unsigned.to_of. f_equal.
    rewrite <- Hv. symmetry. apply HexadecimalPos.Unsigned.of_lu_rev. }
  etransitivity; [apply HexadecimalFacts.nb_digits_unorm |].
  - intros E. apply HexadecimalFacts.rev_nil_inv in E. subst lu. simpl in Hlen. lia.
  - rewrite HexadecimalFacts.nb_digits_rev. lia.
Qed.

Lemma to_hex_uint_nonnil (n : N) : N.to_hex_uint n ≠ Hexadecimal.Nil.
Proof.
  rewrite <- (HexadecimalN.Unsigned.of_to n) at 1. rewrite HexadecimalN.Unsigned.to_of.
  unfold Hexadecimal.unorm. by destruct (Hexadecimal.nzhead (N.to_hex_uint n)).
Qed.

Lemma hex_string_length (u : Hexadecimal.uint) :
  String.length (HexadecimalString.NilEmpty.string_of_uint u) = Hexadecimal.nb_digits u.
Proof. induction u; simpl; auto. Qed.

Lemma hex_string_all_hex (u : Hexadecimal.uint) :
  all_hex (HexadecimalString.NilEmpty.string_of_uint u) = true.
Proof. induction u; simpl; auto. Qed.

Lemma toString16_spec (h : Z) :
  toString16 h = HexadecimalString.NilEmpty.string_of_uint (N.to_hex_uint (Z.to_N h)).
Proof.
  unfold toString16, HexadecimalString.NilZero.string_of_uint.
  pose proof (to_hex_uint_nonnil (Z.to_N h)). by destruct (N.to_hex_uint (Z.to_N h)).
Qed.

Lemma zeros_S (k : nat) :
  String.concat "" (replicate (S k) "0") = String "0" (String.concat "" (replicate k "0")).
Proof. destruct k; reflexivity. Qed.

Lemma zeros_length (k : nat) : String.length (String.concat "" (replicate k "0")) = k.
Proof.
  induction k as [|k IH]; [reflexivity |]. rewrite zeros_S. simpl. by rewrite IH.
Qed.

Lemma all_hex_app (a b : string) : all_hex (a +:+ b) = all_hex a && all_hex b.
Proof. induction a as [|c a IH]; simpl; [reflexivity |]. by rewrite IH, andb_assoc. Qed.

Lemma zeros_all_hex (k : nat) : all_hex (String.concat "" (replicate k "0")) = true.
Proof.
  induction k as [|k IH]; [reflexivity |]. rewrite zeros_S. simpl. by rewrite IH.
Qed.

Lemma fnv1a64_range (bytes : Bytes) : 0 ≤ fnv1a64 bytes < 2 ^ 64.
Proof.
  unfold fnv1a64. induction bytes as [|b l IH] using rev_ind; [simpl; lia |].
  rewrite foldl_app. simpl.
  change 0xffffffffffffffff with (Z.ones 64). rewrite Z.land_ones by lia.
  apply Z.mod_pos_bound. lia.
Qed.

Lemma fnv1aHash_format (data : Bytes) :
  String.length (fnv1aHash data) = 16%nat ∧ all_hex (fnv1aHash data) = true.
Proof.
  unfold fnv1aHash, padStart0. rewrite toString16_spec.
  pose proof (fnv1a64_range data) as Hr.
  pose proof (to_hex_uint_digits 16 (Z.to_N (fnv1a64 data)) ltac:(lia)) as Hd.
  rewrite <- hex_string_length in Hd.
  split.
  - rewrite JsonSpec.length_append, zeros_length.
    assert (Z.to_N (fnv1a64 data) < 16 ^ N.of_nat 16)%N as Hlt; [| specialize (Hd Hlt); lia].
    change (16 ^ N.of_nat 16)%N with (Z.to_N (2 ^ 64)). lia.
  - by rewrite all_hex_app, zeros_all_hex, hex_string_all_hex.
Qed.

(** X15: the hashes of the mock provider. [hash] and [hashPubkey] of
    [MockCryptoProvider] always return 16 characters of lower-case
    hexadecimal text; [verify] accepts a signature for a key and a
    message exactly when it is the text the mock signer of that key
    returns for the message, so [signSpend] with the mock signer never
    fails at the verification. *)
Theorem MockCryptoProvider_format :
  (∀ data, String.length (hash MockCryptoProvider data) = 16%nat
           ∧ all_hex (hash MockCryptoProvider data) = true)
  ∧ (∀ pk, String.length (hashPubkey MockCryptoProvider pk) = 16%nat
           ∧ all_hex (hashPubkey MockCryptoProvider pk) = true)
  ∧ (∀ pk message sig,
       verify MockCryptoProvider pk message sig = true ↔
       sign (createMockSigner pk) message = Ok sig)
  ∧ (∀ tx noteId' pk,
       signSpend tx noteId' (createMockSigner pk) MockCryptoProvider
       ≠ Err SignatureVerificationFailed).
Proof.
  split; [| split; [| split]].
  - intros data. apply fnv1aHash_format.
  - intros pk. apply fnv1aHash_format.
  - intros pk message sig. simpl. rewrite String.eqb_eq. split; [by intros -> | by intros [= ->]].
  - intros tx noteId' pk. unfold signSpend.
    destruct (find_spend noteId' (spends tx)) as [t|]; [| discriminate].
    destruct (seeds t) as [p| | |]; try discriminate.
    destruct (pkhIsAllowed MockCryptoProvider (pubkey (createMockSigner pk)) (pkhs p));
      simpl; [| discriminate].
    rewrite String.eqb_refl. simpl.
    intros H. unfold attachSignatureToSpend in H.
    destruct (mapM _ (spends tx)) as [sp|e] eqn:E; simpl in H; [discriminate |].
    injection H as ->. apply mapM_Err_exists in E as (s & _ & Hs).
    unfold attachToSpend in Hs. destruct (negb _); [discriminate |].
    destruct (seeds s) as [q| | |]; try discriminate.
    by destruct (pkhIsAllowed _ _ (pkhs q)).
Qed.

(** *** Note ids *)

Lemma append_inj_length (a b x y : string) :
  String.length a = String.length b → a +:+ x = b +:+ y → a = b ∧ x = y.
Proof.
  revert b; induction a as [|c a IH]; intros [|d b] Hl H; simpl in *; try discriminate.
  - by split.
  - injection H as -> H. injection Hl as Hl. destruct (IH b Hl H) as [-> ->]. by split.
Qed.

(** X16: note ids under the mock provider. [noteIdFromName] joins the
    lock hash and the source derivation with a dot; two names whose
    lock hashes have the same length and that have the same note id are
    the same name. So the notes named by [buildNoteName] under
    [MockCryptoProvider] have the same id only when they have the same
    lock hash and the same source derivation. *)
Theorem noteIdFromName_injective :
  (∀ n1 n2 : NoteName,
     String.length (fst n1) = String.length (fst n2) →
     noteIdFromName n1 = noteIdFromName n2 → n1 = n2)
  ∧ (∀ l1 src1 l2 src2,
       noteIdFromName (buildNoteName l1 src1 MockCryptoProvider)
       = noteIdFromName (buildNoteName l2 src2 MockCryptoProvider) →
       lockHash l1 MockCryptoProvider = lockHash l2 MockCryptoProvider ∧ src1 = src2).
Proof.
  assert (∀ n1 n2 : NoteName,
            String.length (fst n1) = String.length (fst n2) →
            noteIdFromName n1 = noteIdFromName n2 → n1 = n2) as Hinj.
  { intros [a x] [b y] Hl H. unfold noteIdFromName in H. simpl in *.
    apply append_inj_length in H as [-> H]; [| assumption].
    by injection H as ->. }
  split; [exact Hinj |].
  intros l1 src1 l2 src2 H. apply Hinj in H.
  - by injection H.
  - simpl. destruct (fnv1aHash_format (encodeLock l1)) as [-> _].
    by destruct (fnv1aHash_format (encodeLock l2)) as [-> _].
Qed.

(** *** The bytes of the Iris signer *)

Lemma utf8ToBytes_app (a b : string) : utf8ToBytes (a +:+ b) = utf8ToBytes a ++ utf8ToBytes b.
Proof. induction a as [|c a IH]; simpl; [reflexivity |]. by rewrite IH, app_assoc. Qed.

(** The canonical text of the unsigned payload, up to the network. *)
Definition payloadHead (f : Z) : string :=
  "{" +:+ quote "fee" +:+ ":" +:+ quote ("n:" +:+ dec f) +:+ "," +:+ quote "network" +:+ ":".

(** The canonical text after the network. *)
Definition payloadTail (u : UnsignedTx) : string :=
  "," +:+ quote "outputs" +:+ ":" +:+
  canonicalStringify
    (deepCanonicalize
       (VArr (map (fun o => VObj [("address", VStr (address o));
                                  ("amount", VBig (amount o));
                                  ("assetId", or_null (assetId o))])
                  (sort_by output_sort_key (u_outputs u))))) +:+
  "," +:+ quote "spends" +:+ ":" +:+
  canonicalStringify
    (deepCanonicalize
       (VArr (map (fun s => VObj [("noteId", VStr (noteId s));
                                  ("seeds", canonicalizeSeeds (seeds s))])
                  (sort_by noteId (u_spends u))))) +:+
  "," +:+ quote "version" +:+ ":" +:+ dec (u_version u) +:+ "}".

Lemma payload_text (u : UnsignedTx) :
  encodeUnsignedPayload u
  = utf8ToBytes (payloadHead (u_fee u))
    ++ utf8ToBytes (canonicalStringify (or_null (u_network u)))
    ++ utf8ToBytes (payloadTail u).
Proof.
  unfold encodeUnsignedPayload. rewrite <- !utf8ToBytes_app. f_equal.
  set (outs := VArr (map (fun o => VObj [("address", VStr (address o));
                                         ("amount", VBig (amount o));
                                         ("assetId", or_null (assetId o))])
                         (sort_by output_sort_key (u_outputs u)))).
  set (sps := VArr (map (fun s => VObj [("noteId", VStr (noteId s));
                                        ("seeds", canonicalizeSeeds (seeds s))])
                        (sort_by noteId (u_spends u)))).
  unfold payloadHead, payloadTail. fold outs sps.
  destruct (u_network u) as [n|].
  - change (canonicalStringify
              (deepCanonicalize
                 (VObj [("version", VNum (u_version u)); ("network", or_null (Some n));
                        ("fee", VBig (u_fee u)); ("spends", sps); ("outputs", outs)])))
      with ("{" +:+
            join "," [quote "fee" +:+ ":" +:+ quote ("n:" +:+ dec (u_fee u));
                      quote "network" +:+ ":" +:+ quote n;
                      quote "outputs" +:+ ":" +:+ canonicalStringify (deepCanonicalize outs);
                      quote "spends" +:+ ":" +:+ canonicalStringify (deepCanonicalize sps);
                      quote "version" +:+ ":" +:+ dec (u_version u)] +:+ "}").
    cbn [join canonicalStringify or_null]. rewrite !JsonSpec.append_assoc. reflexivity.
  - change (canonicalStringify
              (deepCanonicalize
                 (VObj [("version", VNum (u_version u)); ("network", or_null None);
                        ("fee", VBig (u_fee u)); ("spends", sps); ("outputs", outs)])))
      with ("{" +:+
            join "," [quote "fee" +:+ ":" +:+ quote ("n:" +:+ dec (u_fee u));
                      quote "network" +:+ ":" +:+ "null";
                      quote "outputs" +:+ ":" +:+ canonicalStringify (deepCanonicalize outs);
                      quote "spends" +:+ ":" +:+ canonicalStringify (deepCanonicalize sps);
                      quote "version" +:+ ":" +:+ dec (u_version u)] +:+ "}").
    cbn [join canonicalStringify or_null]. rewrite !JsonSpec.append_assoc. reflexivity.
Qed.

(** X17: the bytes [buildSigningBytes] hands to the Iris wallet are
    the signing bytes of the transaction without its network. They are
    the bytes whose hash is the unsignedHash exactly when the
    transaction names no network: for a transaction that names one
    they are other bytes. *)
Theorem buildSigningBytes_network (tx : Transaction) :
  (network tx = None →
   IrisSigner.buildSigningBytes tx = encodeUnsignedPayload (unsigned_of tx))
  ∧ (∀ n, network tx = Some n →
       IrisSigner.buildSigningBytes tx ≠ encodeUnsignedPayload (unsigned_of tx))
  ∧ (∀ args, buildUnsignedTransaction args = Ok tx → a_network args = None →
       unsignedHash tx = hash (a_crypto args) (IrisSigner.buildSigningBytes tx)).
Proof.
  split; [| split].
  - intros E. unfold IrisSigner.buildSigningBytes, unsigned_of. by rewrite E.
  - intros n E H. unfold IrisSigner.buildSigningBytes, unsigned_of in H.
    rewrite E, !payload_text in H. cbn [u_fee u_network] in H.
    apply app_inv_head in H. apply (f_equal (hd 0%N)) in H.
    change (canonicalStringify (or_null (Some n)))
      with (String (ascii_of_N 34) (escape n +:+ dquote)) in H.
    vm_compute in H. discriminate.
  - intros args H E. apply buildUnsignedTransaction_Ok in H
      as (_ & _ & _ & _ & _ & _ & _ & En & _ & _ & Eh).
    rewrite Eh. f_equal. unfold IrisSigner.buildSigningBytes, unsigned_of.
    by rewrite En, E.
Qed.

End HashSpec.
(** ** The canonical form of a value *)

Module CanonSpec.
Import Js TxCore Basics OrderSpec JsonSpec.

(** A value in canonical form: the keys of every object are in sorted
    order, and none is [__proto__]. *)
Fixpoint canonical (v : jsval) : Prop :=
  match v with
  | VArr l => foldr (fun x acc => canonical x ∧ acc) True l
  | VObj props =>
      Sorted (key_le fst) props
      ∧ Forall (fun kv => fst kv ≠ proto_key) props
      ∧ foldr (fun kv acc => canonical (snd kv) ∧ acc) True props
  | _ => True
  end.

Abbreviation canon := (deepCanonicalizeWith false canonicalStringify) (only parsing).

Definition canon_prop (kv : string * jsval) : string * jsval :=
  match kv with (k, x) => (k, canon x) end.

Definition plain_key (kv : string * jsval) : Prop := negb (String.eqb (fst kv) proto_key).

Lemma canon_obj (props : list (string * jsval)) :
  canon (VObj props) = VObj (filter plain_key (sort_by fst (map canon_prop props))).
Proof. reflexivity. Qed.

Lemma canon_arr (l : list jsval) : canon (VArr l) = VArr (map canon l).
Proof. reflexivity. Qed.


Lemma conj_Forall {A} (P : A → Prop) (l : list A) :
  foldr (fun x acc => P x ∧ acc) True l ↔ Forall P l.
Proof.
  induction l as [|x l IH]; simpl; [split; auto |].
  rewrite IH. split; [intros [? ?]; by constructor | intros H; by inversion H].
Qed.

Lemma canonical_obj (props : list (string * jsval)) :
  canonical (VObj props) ↔
  Sorted (key_le fst) props ∧ Forall (fun kv => fst kv ≠ proto_key) props
  ∧ Forall (fun kv => canonical (snd kv)) props.
Proof. simpl. by rewrite (conj_Forall (fun kv => canonical (snd kv))). Qed.

Lemma canonical_arr (l : list jsval) : canonical (VArr l) ↔ Forall canonical l.
Proof. simpl. apply conj_Forall. Qed.


Lemma canon_fixed (v : jsval) : canonical v → canon v = v.
Proof.
  induction v as [| |b|n|n|s|l IH|props IH] using jsval_nested_ind; try reflexivity.
  - intros H. apply canonical_arr in H. rewrite canon_arr. f_equal.
    induction l as [|x l IHl]; [reflexivity |].
    inversion IH; subst. inversion H; subst. simpl. f_equal; auto.
  - intros H. apply canonical_obj in H as (Hs & Hp & Hc). rewrite canon_obj.
    assert (map canon_prop props = props) as ->.
    { clear Hs Hp. induction props as [|[k x] props IHp]; [reflexivity |].
      inversion IH; subst. inversion Hc; subst. simpl in *. f_equal; [| auto].
      f_equal. auto. }
    rewrite (sort_by_of_sorted _ _ Hs). f_equal. apply ExportSpec.filter_all.
    eapply Forall_impl; [exact Hp |]. intros kv Hkv. unfold plain_key.
    destruct (String.eqb_spec (fst kv) proto_key); [contradiction | exact I].
Qed.



End CanonSpec.
(** ** wasmBuilder.ts: the totals of a spend *)

Module WasmTotals.
Import WasmBuilder.

Record SpendTotals := mkSpendTotals {
  totalOutgoing : Z;
  remaining : Z
}.

Definition calculateSpendTotals (spend : Spend) : SpendTotals :=
  let seedsTotal := foldl (fun sum seed => sum + amount seed) 0 (seeds spend) in
  let totalOutgoing := fee spend + seedsTotal in
  let remaining := assets spend - totalOutgoing in
  mkSpendTotals totalOutgoing remaining.

Definition isSpendBalanced (spend : Spend) : bool :=
  totalOutgoing (calculateSpendTotals spend) <=? assets spend.

Definition getRemainingBalance (spend : Spend) : Z :=
  remaining (calculateSpendTotals spend).

(** [spends.length > 0 && spends.every(isSpendBalanced)], the guard of
    [buildWasmTransaction]: when it is false the builder returns its
    empty result. *)
Definition allBalanced (spends : list Spend) : bool :=
  (0 <? length spends)%nat && forallb isSpendBalanced spends.

End WasmTotals.

(** ** Allocation keeps the notes balanced *)

Module BalanceSpec.
Import WasmBuilder WasmTotals Basics AllocSpec.

Definition remainingTotal (spends : list Spend) : Z :=
  foldr (fun s acc => getRemainingBalance s + acc) 0 spends.

Definition balanced (s : Spend) : Prop := isSpendBalanced s = true.

Lemma used_seedTotal (s : Spend) : getSpendUsed s = fee s + seedTotal (seeds s).
Proof.
  unfold getSpendUsed, seedTotal. f_equal.
  assert (∀ l acc, foldl (fun sum seed => sum + amount seed) acc l
                   = acc + foldr (fun x a => amount x + a) 0 l) as H.
  { induction l as [|x l IH]; intros acc; simpl; [lia |]. rewrite IH. lia. }
  rewrite H. lia.
Qed.

Lemma seedTotal_app (a b : list Seed) : seedTotal (a ++ b) = seedTotal a + seedTotal b.
Proof. unfold seedTotal. induction a as [|x a IH]; simpl; lia. Qed.

Lemma remaining_used (s : Spend) : getRemainingBalance s = assets s - getSpendUsed s.
Proof. reflexivity. Qed.

Lemma balanced_used (s : Spend) : balanced s ↔ getSpendUsed s ≤ assets s.
Proof.
  unfold balanced, isSpendBalanced, calculateSpendTotals. simpl.
  fold (getSpendUsed s). lia.
Qed.

Lemma room_balanced (s : Spend) : balanced s → room s = getRemainingBalance s.
Proof. intros H. apply balanced_used in H. unfold room. rewrite remaining_used. lia. Qed.

Lemma used_addFee (s : Spend) (share : Z) : getSpendUsed (addFee s share) = getSpendUsed s + share.
Proof. rewrite !used_seedTotal. simpl. lia. Qed.

Lemma used_addSeeds (s : Spend) (ps : list Seed) :
  getSpendUsed (addSeeds s ps) = getSpendUsed s + seedTotal ps.
Proof. rewrite !used_seedTotal. simpl. rewrite seedTotal_app. lia. Qed.

Lemma room_addFee (s : Spend) (share : Z) :
  0 ≤ share ≤ room s → room (addFee s share) = room s - share.
Proof. unfold room. rewrite used_addFee. simpl. lia. Qed.

Lemma room_addSeeds (s : Spend) (ps : list Seed) :
  0 ≤ seedTotal ps ≤ room s → room (addSeeds s ps) = room s - seedTotal ps.
Proof. unfold room. rewrite used_addSeeds. simpl. lia. Qed.

Lemma feeShares_bounds (spends : list Spend) (r : Z) :
  Forall2 (fun s share => 0 ≤ share ≤ room s) spends (feeShares spends r).
Proof.
  revert r; induction spends as [|s rest IH]; intros r; simpl; constructor; [| apply IH].
  pose proof (room_nonneg s). lia.
Qed.

Lemma Splits_total (X : list Seed) (q : list PendingAmount) :
  Splits X q → seedTotal X = demand q.
Proof. induction 1; unfold seedTotal, demand in *; simpl in *; lia. Qed.

Lemma Splits_nonneg : ∀ ps : list Seed, Forall (fun x => 0 < amount x) ps → 0 ≤ seedTotal ps.
Proof. induction 1 as [|x l Hx Hl IH]; unfold seedTotal in *; simpl; lia. Qed.

(** What a list of per-spend additions does to the totals. *)
Lemma totals_zip {B} (add : Spend → B → Spend) (cost : B → Z) (spends : list Spend)
    (xs : list B) :
  (∀ s x, inputId (add s x) = inputId s ∧ assets (add s x) = assets s
          ∧ getSpendUsed (add s x) = getSpendUsed s + cost x) →
  Forall2 (fun s x => 0 ≤ cost x ≤ room s) spends xs →
  let spends' := zip_with add spends xs in
  map inputId spends' = map inputId spends
  ∧ map assets spends' = map assets spends
  ∧ length spends' = length spends
  ∧ totalRoom spends' = totalRoom spends - foldr (fun x acc => cost x + acc) 0 xs
  ∧ remainingTotal spends' = remainingTotal spends - foldr (fun x acc => cost x + acc) 0 xs
  ∧ (Forall balanced spends → Forall balanced spends').
Proof.
  intros Hadd HF. induction HF as [|s x spends xs Hx HF IH]; simpl.
  - repeat split; auto.
  - destruct IH as (I1 & I2 & I3 & I4 & I5 & I6).
    destruct (Hadd s x) as (A1 & A2 & A3).
    repeat split.
    + by rewrite A1, I1.
    + by rewrite A2, I2.
    + by rewrite I3.
    + rewrite I4. unfold room at 1. rewrite A2, A3. unfold room in Hx. unfold room. lia.
    + rewrite I5, !remaining_used, A2, A3. lia.
    + intros H. inversion H as [|? ? Hs Hrest]; subst. constructor; [| by apply I6].
      apply balanced_used. rewrite A2, A3. apply balanced_used in Hs.
      unfold room in Hx. lia.
Qed.

Lemma feeShares_sum (spends : list Spend) (r : Z) :
  foldr (fun x acc => x + acc) 0 (feeShares spends r) = Z.min (Z.max 0 r) (totalRoom spends).
Proof.
  destruct (Z.le_gt_cases 0 r) as [Hr | Hr].
  - pose proof (feeShares_total spends r Hr) as H. unfold foldr in *. rewrite Z.max_r by lia.
    exact H.
  - rewrite Z.max_l by lia.
    rewrite Z.min_l by (pose proof (totalRoom_nonneg spends); lia).
    revert r Hr; induction spends as [|s rest IH]; intros r Hr; simpl; [reflexivity |].
    pose proof (room_nonneg s).
    replace (Z.min (room s) (Z.max 0 r)) with 0 by lia. rewrite Z.sub_0_r, IH; lia.
Qed.

(** [distributeFeeAcrossSpends] returns exactly when the fee fits the
    room, and then adds the shares. *)
Lemma distributeFee_Ok (spends spends1 : list Spend) (totalFee : Z) :
  distributeFeeAcrossSpends spends totalFee = Ok spends1 ↔
  Z.max 0 totalFee ≤ totalRoom spends
  ∧ spends1 = zip_with addFee spends (feeShares spends totalFee).
Proof.
  unfold distributeFeeAcrossSpends. rewrite feeLoop_spec.
  pose proof (totalRoom_nonneg spends) as Hroom.
  destruct (totalFee <=? 0) eqn:E.
  - rewrite feeShares_done by lia. split; [intros [= <-]; split; [lia | reflexivity] |].
    by intros [_ ->].
  - destruct (0 <? Z.max 0 (totalFee - totalRoom spends)) eqn:E'; simpl.
    + split; [discriminate | intros [H _]; lia].
    + split; [intros [= <-]; split; [lia | reflexivity] | by intros [_ ->]].
Qed.

(** [distributeAmountsAcrossSpends] returns exactly when the positive
    demands fit the room, and then adds seeds that add up to them. *)
Lemma distributeAmounts_Ok (spends : list Spend) (amounts : list PendingAmount) :
  (demand (filter positive amounts) ≤ totalRoom spends →
   ∃ pushed, distributeAmountsAcrossSpends spends amounts = Ok (zip_with addSeeds spends pushed)
             ∧ Forall2 (fun s ps => 0 ≤ seedTotal ps ≤ room s) spends pushed
             ∧ foldr (fun ps acc => seedTotal ps + acc) 0 pushed
               = demand (filter positive amounts))
  ∧ (totalRoom spends < demand (filter positive amounts) →
     distributeAmountsAcrossSpends spends amounts = Err OutputAllocationFailed).
Proof.
  unfold distributeAmountsAcrossSpends. fold positive.
  set (queue := filter positive amounts).
  assert (Forall positive queue) as Hq.
  { apply Forall_forall. intros x Hx. by apply list_elem_of_filter in Hx as [Hx _]. }
  destruct (amountsLoop spends queue) as [spends' q'] eqn:Hl.
  destruct (amountsLoop_spec _ _ _ _ Hq Hl) as (pushed & H1 & H2 & H3 & H4 & H5 & H6).
  rewrite (existsb_positive _ H4). split.
  - intros Hd. assert (q' = []) as -> by (apply demand_zero_nil; [assumption | lia]).
    exists pushed. simpl. rewrite H2. repeat split.
    + eapply Forall2_impl; [exact H3 |]. intros s ps [Hle Hpos]. simpl.
      split; [by apply Splits_nonneg | assumption].
    + specialize (H6 [] Splits_nil). rewrite app_nil_r in H6.
      apply Splits_total in H6. rewrite <- H6. clear.
      induction pushed as [|ps pushed IH]; simpl; [reflexivity |].
      rewrite seedTotal_app. by rewrite IH.
  - intros Hd. destruct q'; [simpl in H5; lia | reflexivity].
Qed.

(** X19: the two allocation steps keep the notes balanced. When
    [distributeFeeAcrossSpends] and then [distributeAmountsAcrossSpends]
    return, the spends are those of the caller with more fee and more
    seeds (same inputs, same assets); every spend that was balanced
    ([isSpendBalanced]) still is, so spends that all were balanced pass
    the guard of [buildWasmTransaction]; and what remains in the notes
    ([getRemainingBalance], summed) is what remained before, less the
    fee and less the positive demands. *)
Theorem allocation_keeps_balance (spends spends1 spends2 : list Spend) (totalFee : Z)
    (amounts : list PendingAmount) :
  distributeFeeAcrossSpends spends totalFee = Ok spends1 →
  distributeAmountsAcrossSpends spends1 amounts = Ok spends2 →
  map inputId spends2 = map inputId spends
  ∧ map assets spends2 = map assets spends
  ∧ remainingTotal spends2
    = remainingTotal spends - Z.max 0 totalFee - demand (filter positive amounts)
  ∧ (Forall balanced spends → Forall balanced spends2)
  ∧ (Forall balanced spends → spends ≠ [] → allBalanced spends2 = true).
Proof.
  intros Hfee Hamt. apply distributeFee_Ok in Hfee as [Hfit ->].
  destruct (totals_zip addFee id spends (feeShares spends totalFee))
    as (F1 & F2 & F3 & F4 & F5 & F6).
  { intros s x. repeat split. apply used_addFee. }
  { apply feeShares_bounds. }
  set (spends1 := zip_with addFee spends (feeShares spends totalFee)) in *.
  unfold id in F4, F5. rewrite (feeShares_sum spends totalFee) in F4, F5.
  destruct (distributeAmounts_Ok spends1 amounts) as [Hok Herr].
  destruct (Z.le_gt_cases (demand (filter positive amounts)) (totalRoom spends1)) as [Hd | Hd];
    [| rewrite (Herr Hd) in Hamt; discriminate].
  destruct (Hok Hd) as (pushed & Hres & Hb & Hsum). rewrite Hres in Hamt.
  injection Hamt as <-.
  destruct (totals_zip addSeeds seedTotal spends1 pushed) as (A1 & A2 & A3 & A4 & A5 & A6).
  { intros s x. repeat split. apply used_addSeeds. }
  { exact Hb. }
  rewrite Hsum in A4, A5.
  assert (Forall balanced spends → Forall balanced (zip_with addSeeds spends1 pushed)) as Hbal
    by (intros H; by apply A6, F6).
  repeat split.
  - by rewrite A1, F1.
  - by rewrite A2, F2.
  - rewrite A5, F5. lia.
  - exact Hbal.
  - intros H Hne. unfold allBalanced. rewrite A3, F3.
    apply andb_true_intro. split.
    + destruct spends; [done | reflexivity].
    + apply forallb_forall. intros s Hs. specialize (Hbal H).
      rewrite Forall_forall in Hbal. apply Hbal. by apply list_elem_of_In.
Qed.

Lemma allocation_keeps_balance_witness :
  allBalanced [mkSpend "note1" 70 5 [mkSeed "A" 60; mkSeed "B" 5];
               mkSpend "note2" 40 0 [mkSeed "B" 40]] = true.
Proof.
  destruct (allocation_keeps_balance exampleSpends
              [mkSpend "note1" 70 5 []; mkSpend "note2" 40 0 []]
              [mkSpend "note1" 70 5 [mkSeed "A" 60; mkSeed "B" 5];
               mkSpend "note2" 40 0 [mkSeed "B" 40]]
              5 [mkPending "A" 60; mkPending "B" 45])
    as (_ & _ & _ & _ & H); [reflexivity | reflexivity |].
  apply H; [| discriminate]. repeat constructor.
Defined.

(** X20: when the two allocation steps succeed. For any spends,
    [distributeFeeAcrossSpends] followed by
    [distributeAmountsAcrossSpends] returns exactly when the fee and
    the positive demands together fit the room of the notes; when they
    do not fit, one of the two steps throws. *)
Theorem allocation_succeeds (spends : list Spend) (totalFee : Z)
    (amounts : list PendingAmount) :
  (Z.max 0 totalFee + demand (filter positive amounts) ≤ totalRoom spends →
   ∃ spends1 spends2,
     distributeFeeAcrossSpends spends totalFee = Ok spends1
     ∧ distributeAmountsAcrossSpends spends1 amounts = Ok spends2)
  ∧ (totalRoom spends < Z.max 0 totalFee + demand (filter positive amounts) →
     distributeFeeAcrossSpends spends totalFee = Err FeeAllocationFailed
     ∨ ∃ spends1, distributeFeeAcrossSpends spends totalFee = Ok spends1
                  ∧ distributeAmountsAcrossSpends spends1 amounts
                    = Err OutputAllocationFailed).
Proof.
  assert (Forall positive (filter positive amounts)) as Hq.
  { apply Forall_forall. intros x Hx. by apply list_elem_of_filter in Hx as [Hx _]. }
  pose proof (demand_nonneg _ Hq) as Hdn.
  destruct (totals_zip addFee id spends (feeShares spends totalFee))
    as (_ & _ & _ & F4 & _).
  { intros s x. repeat split. apply used_addFee. }
  { apply feeShares_bounds. }
  unfold id in F4. rewrite (feeShares_sum spends totalFee) in F4.
  set (spends1 := zip_with addFee spends (feeShares spends totalFee)) in *.
  destruct (distributeAmounts_Ok spends1 amounts) as [Hok Herr].
  split.
  - intros Hfit. exists spends1.
    assert (distributeFeeAcrossSpends spends totalFee = Ok spends1) as Hfee
      by (apply distributeFee_Ok; split; [lia | reflexivity]).
    destruct Hok as (pushed & Hres & _); [lia |]. eauto.
  - intros Hfit. destruct (Z.le_gt_cases (Z.max 0 totalFee) (totalRoom spends)) as [Hf | Hf].
    + right. exists spends1. split.
      * apply distributeFee_Ok. split; [lia | reflexivity].
      * apply Herr. lia.
    + left. unfold distributeFeeAcrossSpends. rewrite feeLoop_spec.
      pose proof (totalRoom_nonneg spends).
      replace (totalFee <=? 0) with false by lia.
      by replace (0 <? Z.max 0 (totalFee - totalRoom spends)) with true by lia.
Qed.

End BalanceSpec.
From Stdlib Require DecimalN DecimalFacts DecimalPos.

(** ** helpers.ts: formatting helpers

    [decimals] and [chars] are counts: natural numbers. *)

Module Formatting.
Import Js TxCore Crypto.

(** [s.replace(/0+$/, '')]: the text without its trailing zeros. *)
Fixpoint strip_zeros_end (s : string) : string :=
  match s with
  | String c s' =>
      match strip_zeros_end s' with
      | EmptyString => if Ascii.eqb c "0" then EmptyString else String c EmptyString
      | t => String c t
      end
  | EmptyString => EmptyString
  end.

(** [s.padEnd(n, "0")] *)
Definition padEnd0 (n : nat) (s : string) : string :=
  s +:+ String.concat "" (replicate (n - String.length s) "0").

Definition formatAmount (amount : Z) (decimals : nat) : string :=
  let divisor := 10 ^ Z.of_nat decimals in
  let whole := Z.quot amount divisor in
  let frac := Z.rem amount divisor in
  let fracStr := strip_zeros_end (padStart0 decimals (dec frac)) in
  if String.eqb fracStr "" then dec whole
  else dec whole +:+ "." +:+ fracStr.

(** [str.split(".")] *)
Fixpoint split_dot (s : string) : list string :=
  match s with
  | String c s' =>
      if Ascii.eqb c "." then EmptyString :: split_dot s'
      else match split_dot s' with
           | x :: r => String c x :: r
           | [] => [String c EmptyString]
           end
  | EmptyString => [EmptyString]
  end.

(** [BigInt] throws on a text that is no integer: [None]. *)
Definition parseAmount (str : string) (decimals : nat) : option Z :=
  let parts := split_dot str in
  let whole := nth 0 parts EmptyString in
  let frac := nth 1 parts EmptyString in
  let fracPadded := padEnd0 decimals (substring 0 decimals frac) in
  w ← BigInt whole; f ← BigInt fracPadded; Some (w * 10 ^ Z.of_nat decimals + f).

(** [hash.slice(-chars)]: the last [chars] characters; all of them
    when [chars] is 0. *)
Definition slice_end (chars : nat) (s : string) : string :=
  match chars with
  | O => s
  | _ => substring (String.length s - chars) chars s
  end.

Definition truncateHash (hash : string) (chars : nat) : string :=
  if (String.length hash <=? chars * 2 + 3)%nat then hash
  else substring 0 chars hash +:+ "..." +:+ slice_end chars hash.

Definition getNoteShortId (note : Note) : string :=
  let id := noteIdFromName (name note) in
  truncateHash id 6.

End Formatting.
(** ** Amounts as text *)

Module FormatSpec.
Import Js TxCore Crypto Helpers Basics JsonSpec Formatting.

#[local] Arguments String.append !s1 s2 : simpl nomatch.

Definition zeros (k : nat) : string := String.concat "" (replicate k "0").

(** A text of decimal digits. *)
Fixpoint all_digits (s : string) : bool :=
  match s with
  | String c s' => match digit_of c with Some _ => all_digits s' | None => false end
  | EmptyString => true
  end.

(** The decimal digit [r], put in front of the little-endian digits [lu]. *)
Definition dec_cons (r : N) (lu : uint) : uint :=
  match r with
  | 0 => D0 lu | 1 => D1 lu | 2 => D2 lu | 3 => D3 lu | 4 => D4 lu
  | 5 => D5 lu | 6 => D6 lu | 7 => D7 lu | 8 => D8 lu | _ => D9 lu
  end%N.

Lemma dec_cons_spec (r : N) (lu : uint) :
  (r < 10)%N →
  DecimalPos.Unsigned.of_lu (dec_cons r lu) = (r + 10 * DecimalPos.Unsigned.of_lu lu)%N
  ∧ nb_digits (dec_cons r lu) = S (nb_digits lu).
Proof.
  intros Hr.
  assert (r = 0 ∨ r = 1 ∨ r = 2 ∨ r = 3 ∨ r = 4 ∨ r = 5 ∨ r = 6 ∨ r = 7 ∨ r = 8 ∨ r = 9)%N
    as H by lia.
  repeat (destruct H as [-> | H]; [split; reflexivity |]). subst r. split; reflexivity.
Qed.

(** Every number below [10 ^ d] has a numeral of [d] digits. *)
Lemma dec_numeral (d : nat) (n : N) :
  (n < 10 ^ N.of_nat d)%N →
  ∃ lu, nb_digits lu = d ∧ DecimalPos.Unsigned.of_lu lu = n.
Proof.
  revert n; induction d as [|d IH]; intros n Hn.
  - exists Nil. split; [reflexivity |]. simpl in *. lia.
  - rewrite Nat2N.inj_succ, N.pow_succ_r' in Hn.
    destruct (IH (n / 10)%N) as (lu & Hd & Hv).
    { apply N.Div0.div_lt_upper_bound. lia. }
    assert (n mod 10 < 10)%N as Hr by (apply N.mod_lt; lia).
    destruct (dec_cons_spec (n mod 10) lu Hr) as [Hval Hlen].
    exists (dec_cons (n mod 10) lu). split; [by rewrite Hlen, Hd |].
    rewrite Hval, Hv. pose proof (N.div_mod n 10). lia.
Qed.

Lemma to_uint_digits (d : nat) (n : N) :
  (0 < d)%nat → (n < 10 ^ N.of_nat d)%N → (nb_digits (N.to_uint n) ≤ d)%nat.
Proof.
  intros Hd Hn. destruct (dec_numeral d n Hn) as (lu & Hlen & Hv).
  assert (N.to_uint n = Decimal.unorm (Decimal.rev lu)) as ->.
  { rewrite <- DecimalN.Unsigned.to_of. f_equal.
    rewrite <- Hv. symmetry. apply DecimalPos.Unsigned.of_lu_rev. }
  etransitivity; [apply DecimalFacts.nb_digits_unorm |].
  - intros E. apply DecimalFacts.rev_nil_inv in E. subst lu. simpl in Hlen. lia.
  - rewrite DecimalFacts.nb_digits_rev. lia.
Qed.

Lemma to_uint_nonnil (n : N) : N.to_uint n ≠ Nil.
Proof.
  rewrite <- (DecimalN.Unsigned.of_to n) at 1. rewrite DecimalN.Unsigned.to_of.
  unfold Decimal.unorm. by destruct (Decimal.nzhead (N.to_uint n)).
Qed.

Lemma dec_nonneg (n : Z) :
  0 ≤ n → dec n = DecimalString.NilEmpty.string_of_uint (N.to_uint (Z.to_N n)).
Proof.
  intros Hn. destruct n as [|p|p]; [reflexivity | apply dec_pos | lia].
Qed.

Lemma uint_string_length (u : uint) :
  String.length (DecimalString.NilEmpty.string_of_uint u) = nb_digits u.
Proof. induction u; simpl; auto. Qed.

Lemma uint_all_digits (u : uint) :
  all_digits (DecimalString.NilEmpty.string_of_uint u) = true.
Proof. induction u; simpl; auto. Qed.

Lemma zeros_succ (k : nat) : zeros (S k) = String "0" (zeros k).
Proof. unfold zeros. destruct k; reflexivity. Qed.

Lemma length_zeros (k : nat) : String.length (zeros k) = k.
Proof. induction k as [|k IH]; [reflexivity |]. rewrite zeros_succ. simpl. by rewrite IH. Qed.

Lemma zeros_uint (k : nat) (u : uint) :
  zeros k +:+ DecimalString.NilEmpty.string_of_uint u
  = DecimalString.NilEmpty.string_of_uint (Nat.iter k D0 u).
Proof. induction k as [|k IH]; [reflexivity |]. rewrite zeros_succ. simpl. by rewrite IH. Qed.

Lemma of_uint_zeros (k : nat) (u : uint) : N.of_uint (Nat.iter k D0 u) = N.of_uint u.
Proof. induction k as [|k IH]; [reflexivity | exact IH]. Qed.

Lemma iter_D0_nonnil (k : nat) (u : uint) : (0 < k)%nat ∨ u ≠ Nil → Nat.iter k D0 u ≠ Nil.
Proof. destruct k; simpl; [intros [H | H]; [lia | assumption] | discriminate]. Qed.

(** [BigInt] of a text of decimal digits. *)
Lemma BigInt_uint (u : uint) :
  u ≠ Nil →
  BigInt (DecimalString.NilEmpty.string_of_uint u) = Some (Z.of_N (N.of_uint u)).
Proof.
  intros Hu. unfold BigInt. rewrite trim_no_space by apply uint_no_space.
  pose proof (decimal_digits_uint u Hu) as Hdd.
  assert (∀ v, starts_with "x" (DecimalString.NilEmpty.string_of_uint v) = false
               ∧ starts_with "X" (DecimalString.NilEmpty.string_of_uint v) = false
               ∧ starts_with "o" (DecimalString.NilEmpty.string_of_uint v) = false
               ∧ starts_with "O" (DecimalString.NilEmpty.string_of_uint v) = false
               ∧ starts_with "b" (DecimalString.NilEmpty.string_of_uint v) = false
               ∧ starts_with "B" (DecimalString.NilEmpty.string_of_uint v) = false) as Hx.
  { intros v. by destruct v. }
  destruct u as [|v|v|v|v|v|v|v|v|v|v]; try congruence;
    simpl DecimalString.NilEmpty.string_of_uint in *; cbv beta iota;
    repeat match goal with
           | |- context [Ascii.eqb ?a ?b] =>
               let r := eval vm_compute in (Ascii.eqb a b) in change (Ascii.eqb a b) with r
           end; cbv beta iota; simpl andb;
    try (destruct (Hx v) as (-> & -> & -> & -> & -> & ->); simpl orb; cbv beta iota);
    rewrite Hdd; reflexivity.
Qed.

(** *** Trailing zeros *)

Lemma strip_zeros_spec (s : string) : ∃ k, s = strip_zeros_end s +:+ zeros k.
Proof.
  induction s as [|c s [k IH]]; [by exists O |]. simpl.
  destruct (strip_zeros_end s) as [|a t] eqn:E.
  - simpl in IH. destruct (Ascii.eqb_spec c "0") as [-> | Hc].
    + exists (S k). rewrite zeros_succ. simpl. by rewrite IH.
    + exists k. simpl. by rewrite IH.
  - exists k. simpl. f_equal. exact IH.
Qed.

Lemma all_digits_app (a b : string) : all_digits (a +:+ b) = all_digits a && all_digits b.
Proof.
  induction a as [|c a IH]; simpl; [reflexivity |]. destruct (digit_of c); [exact IH | reflexivity].
Qed.

Lemma substring_all (n : nat) (s : string) : (String.length s ≤ n)%nat → substring 0 n s = s.
Proof.
  revert n; induction s as [|c s IH]; intros n Hn; simpl in *.
  - by destruct n.
  - destruct n as [|n]; [lia |]. f_equal. apply IH. lia.
Qed.

(** *** Splitting at the dot *)

Lemma digit_not_dot (c : ascii) : digit_of c ≠ None → Ascii.eqb c "." = false.
Proof. destruct c as [[] [] [] [] [] [] [] []]; simpl; congruence. Qed.

Lemma split_dot_cons (s : string) : split_dot s = hd EmptyString (split_dot s) :: tl (split_dot s).
Proof.
  destruct s as [|c s]; [reflexivity |]. simpl.
  destruct (Ascii.eqb c "."); [reflexivity |]. by destruct (split_dot s).
Qed.

Lemma split_dot_digits (a rest : string) :
  all_digits a = true →
  split_dot (a +:+ rest) = (a +:+ hd EmptyString (split_dot rest)) :: tl (split_dot rest).
Proof.
  induction a as [|c a IH]; intros Ha; simpl in *.
  - apply split_dot_cons.
  - destruct (digit_of c) eqn:Ec; [| discriminate].
    rewrite digit_not_dot by congruence. by rewrite (IH Ha).
Qed.

Lemma split_dot_whole (a : string) : all_digits a = true → split_dot a = [a].
Proof.
  intros Ha. rewrite <- (append_nil_r a) at 1. rewrite (split_dot_digits a "" Ha). simpl.
  by rewrite append_nil_r.
Qed.

Lemma split_dot_two (a b : string) :
  all_digits a = true → all_digits b = true → split_dot (a +:+ "." +:+ b) = [a; b].
Proof.
  intros Ha Hb. rewrite (split_dot_digits a _ Ha).
  change (split_dot ("." +:+ b)) with (EmptyString :: split_dot b).
  by rewrite (split_dot_whole b Hb), append_nil_r.
Qed.

(** *** The round trip *)

Lemma pow10_pos (d : nat) : 0 < 10 ^ Z.of_nat d.
Proof. apply Z.pow_pos_nonneg; lia. Qed.

(** The fraction, padded to [d] digits, is a numeral of the fraction. *)
Lemma padded_fraction (d : nat) (f : Z) :
  (0 < d)%nat → 0 ≤ f < 10 ^ Z.of_nat d →
  ∃ U, padStart0 d (dec f) = DecimalString.NilEmpty.string_of_uint U
       ∧ nb_digits U = d ∧ U ≠ Nil ∧ Z.of_N (N.of_uint U) = f.
Proof.
  intros Hd Hf. set (u := N.to_uint (Z.to_N f)).
  assert (nb_digits u ≤ d)%nat as Hlen.
  { apply to_uint_digits; [assumption |].
    assert (10 ^ N.of_nat d = Z.to_N (10 ^ Z.of_nat d))%N as ->; [| lia].
    rewrite Z2N.inj_pow by lia. rewrite <- (nat_N_Z d), N2Z.id. reflexivity. }
  exists (Nat.iter (d - nb_digits u) D0 u). repeat split.
  - unfold padStart0. rewrite dec_nonneg by lia. fold u.
    rewrite uint_string_length. apply zeros_uint.
  - rewrite DecimalFacts.nb_digits_iter_D0. lia.
  - apply iter_D0_nonnil. right. apply to_uint_nonnil.
  - rewrite of_uint_zeros. unfold u. rewrite DecimalN.Unsigned.of_to. lia.
Qed.

Lemma BigInt_zeros (k : nat) : BigInt (zeros k) = Some 0.
Proof.
  destruct k as [|k]; [reflexivity |].
  pose proof (zeros_uint (S k) Nil) as H. simpl DecimalString.NilEmpty.string_of_uint in H at 1.
  rewrite append_nil_r in H. rewrite H, BigInt_uint by discriminate.
  by rewrite of_uint_zeros.
Qed.

(** X21: formatting an amount and parsing the text gives the amount
    back, for every amount >= 0 and every number of decimals. *)
Theorem parseAmount_formatAmount (amount : Z) (decimals : nat) :
  0 ≤ amount → parseAmount (formatAmount amount decimals) decimals = Some amount.
Proof.
  intros Ha. unfold formatAmount, parseAmount.
  pose proof (pow10_pos decimals) as HD. set (D := 10 ^ Z.of_nat decimals) in *.
  rewrite Z.quot_div_nonneg, Z.rem_mod_nonneg by lia.
  pose proof (Z.mod_pos_bound amount D HD) as Hf.
  assert (0 ≤ amount / D) as Hw by (apply Z.div_pos; lia).
  pose proof (Z.div_mod amount D ltac:(lia)) as Hdm.
  set (w := amount / D) in *. set (f := amount mod D) in *.
  assert (all_digits (dec w) = true) as Hwd by (rewrite dec_nonneg by lia; apply uint_all_digits).
  destruct decimals as [|d'].
  - assert (f = 0) as -> by (subst D; simpl in Hf; lia).
    change (strip_zeros_end (padStart0 0 (dec 0))) with EmptyString. simpl String.eqb.
    cbv beta iota. rewrite (split_dot_whole _ Hwd). simpl nth.
    change (padEnd0 0 (substring 0 0 "")) with EmptyString.
    rewrite BigInt_dec. simpl. f_equal. subst D. simpl in Hdm. lia.
  - set (d := S d') in *.
    destruct (padded_fraction d f ltac:(lia) Hf) as (U & HF & HU & Hne & Hval).
    rewrite HF. set (F := DecimalString.NilEmpty.string_of_uint U) in *.
    assert (String.length F = d) as HlenF by (subst F; by rewrite uint_string_length).
    assert (BigInt F = Some f) as HBF by (subst F; by rewrite BigInt_uint, Hval).
    destruct (strip_zeros_spec F) as [k Hk].
    assert (all_digits (strip_zeros_end F) = true) as Hsd.
    { pose proof (uint_all_digits U) as H. fold F in H. rewrite Hk in H.
      rewrite all_digits_app in H. by apply andb_prop in H as [H _]. }
    assert (String.length (strip_zeros_end F) + k = d)%nat as Hlk.
    { rewrite <- HlenF. rewrite Hk at 2. by rewrite length_append, length_zeros. }
    destruct (strip_zeros_end F) as [|c S] eqn:ES.
    + simpl String.eqb. cbv beta iota. rewrite (split_dot_whole _ Hwd). simpl nth.
      change (substring 0 d "") with EmptyString.
      assert (padEnd0 d "" = zeros d) as -> by (unfold padEnd0; simpl; try rewrite Nat.sub_0_r; reflexivity).
      rewrite BigInt_dec, BigInt_zeros. simpl.
      simpl in Hk, Hlk. rewrite Hk, BigInt_zeros in HBF. injection HBF as <-.
      f_equal. lia.
    + change (String.eqb (String c S) "") with false. cbv beta iota.
      rewrite (split_dot_two _ _ Hwd Hsd). simpl nth.
      rewrite substring_all by lia.
      assert (padEnd0 d (String c S) = F) as ->.
      { unfold padEnd0. rewrite Hk.
        assert (d - String.length (String c S) = k)%nat as -> by lia.
        reflexivity. }
      rewrite BigInt_dec, HBF. simpl. f_equal. lia.
Qed.

Lemma parseAmount_formatAmount_witness :
  formatAmount 150000000 8 = "1.5" ∧ parseAmount "1.5" 8 = Some 150000000.
Proof.
  assert (formatAmount 150000000 8 = "1.5") as H by (vm_compute; reflexivity).
  split; [exact H |]. rewrite <- H. apply parseAmount_formatAmount. lia.
Defined.

(** *** Short forms of hashes *)

Lemma substring_length (n m : nat) (s : string) :
  (n + m ≤ String.length s)%nat → String.length (substring n m s) = m.
Proof.
  revert n m; induction s as [|c s IH]; intros n m H; simpl in *.
  - assert (n = O ∧ m = O) as [-> ->] by lia. reflexivity.
  - destruct n as [|n].
    + destruct m as [|m]; [reflexivity |]. simpl. f_equal. apply IH. simpl. lia.
    + apply IH. lia.
Qed.

(** X22: [truncateHash] returns a text of at most [2 * chars + 3]
    characters as it is; a longer one it cuts, for [chars] >= 1, to
    exactly [2 * chars + 3] characters: the first [chars], three dots
    and the last [chars]. With [chars] = 0 the cut text is the three
    dots followed by the whole text. [getNoteShortId] is never longer
    than 15 characters. *)
Theorem truncateHash_length (hash : string) (chars : nat) :
  ((String.length hash ≤ 2 * chars + 3)%nat → truncateHash hash chars = hash)
  ∧ ((0 < chars)%nat → (2 * chars + 3 < String.length hash)%nat →
     truncateHash hash chars
     = substring 0 chars hash +:+ "..." +:+ substring (String.length hash - chars) chars hash
     ∧ String.length (truncateHash hash chars) = (2 * chars + 3)%nat)
  ∧ ((3 < String.length hash)%nat → truncateHash hash 0 = "..." +:+ hash)
  ∧ (∀ note, (String.length (getNoteShortId note) ≤ 15)%nat).
Proof.
  assert (∀ h c, (0 < c)%nat → (2 * c + 3 < String.length h)%nat →
            truncateHash h c
            = substring 0 c h +:+ "..." +:+ substring (String.length h - c) c h
            ∧ String.length (truncateHash h c) = (2 * c + 3)%nat) as Hcut.
  { intros h c Hc Hl. unfold truncateHash.
    replace (String.length h <=? c * 2 + 3)%nat with false
      by (symmetry; apply Nat.leb_gt; lia).
    unfold slice_end. destruct c as [|c]; [lia |]. split; [reflexivity |].
    rewrite !length_append, !substring_length by lia. simpl. lia. }
  split; [| split; [| split]].
  - intros H. unfold truncateHash.
    replace (String.length hash <=? chars * 2 + 3)%nat with true
      by (symmetry; apply Nat.leb_le; lia).
    reflexivity.
  - apply Hcut.
  - intros H. unfold truncateHash.
    replace (String.length hash <=? 0 * 2 + 3)%nat with false
      by (symmetry; apply Nat.leb_gt; lia).
    destruct hash; [simpl in H; lia | reflexivity].
  - intros note. unfold getNoteShortId.
    destruct (Nat.le_gt_cases (String.length (noteIdFromName (name note))) 15) as [H | H].
    + unfold truncateHash.
      replace (String.length (noteIdFromName (name note)) <=? 6 * 2 + 3)%nat with true
        by (symmetry; apply Nat.leb_le; lia).
      exact H.
    + destruct (Hcut (noteIdFromName (name note)) 6%nat) as [_ ->]; lia.
Qed.

End FormatSpec.
(** ** What the encodings commit to *)

Module CommitSpec.
Import Js TxCore Crypto Helpers Basics BuildSpec OrderSpec JsonSpec CanonSpec.

(** One character back from its UTF-8 bytes. *)
Definition utf8_first (l : list N) : option (ascii * list N) :=
  match l with
  | b :: r =>
      if (b <? 128)%N then Some (ascii_of_N b, r)
      else match r with
           | b2 :: r' => Some (ascii_of_N ((b - 192) * 64 + (b2 - 128)), r')
           | [] => None
           end
  | [] => None
  end.

(** The canonical value of a lock, written out. *)
Fixpoint lockValue (l : Lock) : jsval :=
  match l with
  | LockPkh t ps =>
      VObj [("kind", VStr "%pkh"); ("pkhs", VArr (map VStr (sort_strings ps)));
            ("threshold", VNum t)]
  | LockHax h => VObj [("hash", VStr h); ("kind", VStr "%hax")]
  | LockTim nb inner =>
      VObj [("inner", lockValue inner); ("kind", VStr "%tim"); ("notBefore", VNum nb)]
  | LockBrn => VObj [("kind", VStr "%brn")]
  end.

(** Two seeds that differ in the order of their pkhs only. *)
Inductive SameSeeds : Seeds → Seeds → Prop :=
| SameSeeds_pkh t ps1 ps2 sigs :
    ps1 ≡ₚ ps2 → SameSeeds (SeedsPkh (mkPkhSeeds t ps1 sigs)) (SeedsPkh (mkPkhSeeds t ps2 sigs))
| SameSeeds_hax pre : SameSeeds (SeedsHax pre) (SeedsHax pre)
| SameSeeds_tim nb s1 s2 : SameSeeds s1 s2 → SameSeeds (SeedsTim nb s1) (SeedsTim nb s2)
| SameSeeds_brn : SameSeeds SeedsBrn SeedsBrn.

Definition SameSpend (s1 s2 : Spend) : Prop :=
  noteId s1 = noteId s2 ∧ SameSeeds (seeds s1) (seeds s2).

(** The canonical value of the unsigned payload, written out. *)
Definition sigValue (e : string * string) : jsval :=
  VObj [("pubkey", VStr (fst e)); ("signature", VStr (snd e))].

Fixpoint seedsValue (s : Seeds) : jsval :=
  match s with
  | SeedsPkh p =>
      VObj [("kind", VStr "%pkh"); ("pkhs", VArr (map VStr (sort_strings (pkhs p))));
            ("sigEntries", VArr (map sigValue (sort_by fst (map_to_list (signatures p)))));
            ("threshold", VNum (threshold p))]
  | SeedsHax pre => VObj [("kind", VStr "%hax"); ("preimage", or_null pre)]
  | SeedsTim nb inner =>
      VObj [("inner", seedsValue inner); ("kind", VStr "%tim"); ("notBefore", VNum nb)]
  | SeedsBrn => VObj [("kind", VStr "%brn")]
  end.

Definition spendValue (s : Spend) : jsval :=
  VObj [("noteId", VStr (noteId s)); ("seeds", seedsValue (seeds s))].

Definition outputValue (o : Output) : jsval :=
  VObj [("address", VStr (address o)); ("amount", VBig (amount o));
        ("assetId", or_null (assetId o))].

Definition payloadValue (u : UnsignedTx) : jsval :=
  VObj [("fee", VBig (u_fee u)); ("network", or_null (u_network u));
        ("outputs", VArr (map outputValue (sort_by output_sort_key (u_outputs u))));
        ("spends", VArr (map spendValue (sort_by noteId (u_spends u))));
        ("version", VNum (u_version u))].

Lemma utf8_first_char (c : ascii) (r : list N) : utf8_first (utf8_char c ++ r) = Some (c, r).
Proof. destruct c as [[] [] [] [] [] [] [] []]; reflexivity. Qed.

Lemma utf8ToBytes_inj (s1 s2 : string) : utf8ToBytes s1 = utf8ToBytes s2 → s1 = s2.
Proof.
  revert s2; induction s1 as [|c1 s1 IH]; intros [|c2 s2] H; simpl in H.
  - reflexivity.
  - apply (f_equal utf8_first) in H. rewrite utf8_first_char in H. discriminate.
  - apply (f_equal utf8_first) in H. rewrite utf8_first_char in H. discriminate.
  - apply (f_equal utf8_first) in H. rewrite !utf8_first_char in H.
    injection H as -> H. f_equal. by apply IH.
Qed.

Lemma canonical_strings (l : list string) : canonical (VArr (map VStr l)).
Proof. apply canonical_arr. rewrite Forall_fmap. by apply Forall_forall. Qed.

Lemma lockValue_canonical (l : Lock) : canonical (lockValue l).
Proof.
  induction l as [t ps|h|nb inner IH|]; apply canonical_obj; (split; [| split]);
    try (repeat constructor; discriminate); repeat constructor.
  - apply canonical_strings.
  - exact IH.
Qed.

Lemma canonicalizeLock_value (l : Lock) : canonicalizeLock l = lockValue l.
Proof.
  induction l as [t ps|h|nb inner IH|]; try reflexivity.
  - simpl canonicalizeLock. unfold deepCanonicalize.
    change (canon (VObj [("kind", VStr "%pkh"); ("threshold", VNum t);
                         ("pkhs", VArr (map VStr (sort_strings ps)))]))
      with (VObj [("kind", VStr "%pkh"); ("pkhs", canon (VArr (map VStr (sort_strings ps))));
                  ("threshold", VNum t)]).
    by rewrite (canon_fixed _ (canonical_strings _)).
  - simpl canonicalizeLock. rewrite IH. unfold deepCanonicalize.
    change (canon (VObj [("kind", VStr "%tim"); ("notBefore", VNum nb);
                         ("inner", lockValue inner)]))
      with (VObj [("inner", canon (lockValue inner)); ("kind", VStr "%tim");
                  ("notBefore", VNum nb)]).
    by rewrite (canon_fixed _ (lockValue_canonical inner)).
Qed.

Lemma strings_plain (l : list string) :
  distinct_keys (VArr (map VStr l)) ∧ jsonify (VArr (map VStr l)) = VArr (map VStr l).
Proof.
  split.
  - simpl. induction l; simpl; auto.
  - simpl. f_equal. induction l as [|x l IH]; simpl; [reflexivity | by rewrite IH].
Qed.

Lemma lockValue_plain (l : Lock) :
  distinct_keys (lockValue l) ∧ jsonify (lockValue l) = lockValue l.
Proof.
  induction l as [t ps|h|nb inner [IH1 IH2]|].
  - destruct (strings_plain (sort_strings ps)) as [H1 H2]. split.
    + simpl. split; [| tauto]. apply (bool_decide_unpack (NoDup _)). vm_compute. exact I.
    + change (jsonify (lockValue (LockPkh t ps)))
        with (VObj [("kind", VStr "%pkh");
                    ("pkhs", jsonify (VArr (map VStr (sort_strings ps))));
                    ("threshold", VNum t)]).
      by rewrite H2.
  - split; [| reflexivity].
    simpl. split; [| tauto]. apply (bool_decide_unpack (NoDup _)). vm_compute. exact I.
  - split.
    + change (distinct_keys (lockValue (LockTim nb inner)))
        with (NoDup (defined_keys [("inner", lockValue inner); ("kind", VStr "%tim");
                                   ("notBefore", VNum nb)])
              ∧ distinct_keys (lockValue inner) ∧ True ∧ True ∧ True).
      split; [| tauto].
      destruct inner; apply (bool_decide_unpack (NoDup _)); vm_compute; exact I.
    + destruct inner; simpl lockValue in *; simpl jsonify; simpl jsonify in IH2;
        by rewrite ?IH2.
  - split; [| reflexivity].
    simpl. split; [| tauto]. apply (bool_decide_unpack (NoDup _)). vm_compute. exact I.
Qed.

Lemma map_VStr_inj (l1 l2 : list string) : map VStr l1 = map VStr l2 → l1 = l2.
Proof.
  revert l2; induction l1 as [|x l1 IH]; intros [|y l2] H; simpl in H; try discriminate.
  - reflexivity.
  - injection H as -> H. f_equal. by apply IH.
Qed.

Lemma lockValue_same (l1 l2 : Lock) : lockValue l1 = lockValue l2 → SameLock l1 l2.
Proof.
  revert l2; induction l1 as [t ps|h|nb inner IH|]; intros [t' ps'|h'|nb' inner'|] H;
    simpl in H; try discriminate.
  - injection H as H1 H2. subst t'. apply map_VStr_inj in H1. constructor.
    by apply ProgressSpec.sorted_pkhs_perm.
  - injection H as ->. constructor.
  - injection H as H1 H2. subst nb'. constructor. by apply IH.
  - constructor.
Qed.

(** X23: the bytes of [encodeLock] tell locks apart: two locks have
    the same encoding exactly when they are the same lock up to the
    order of the pkhs. (Their hashes then agree under every provider;
    that different encodings hash differently is up to the provider.) *)
Theorem encodeLock_injective (l1 l2 : Lock) :
  encodeLock l1 = encodeLock l2 ↔ SameLock l1 l2.
Proof.
  split.
  - intros H. unfold encodeLock in H. apply utf8ToBytes_inj in H.
    rewrite !canonicalizeLock_value in H.
    destruct (lockValue_plain l1) as [D1 J1], (lockValue_plain l2) as [D2 J2].
    pose proof (JSON_parse_stringify _ D1) as P1.
    pose proof (JSON_parse_stringify _ D2) as P2.
    rewrite H, P2, J1, J2 in P1. injection P1 as P1. by apply lockValue_same.
  - intros H. unfold encodeLock. by rewrite (canonicalizeLock_same _ _ H).
Qed.

(** *** The unsigned payload *)

Lemma canonical_map {A} (f : A → jsval) (l : list A) :
  (∀ x, canonical (f x)) → canonical (VArr (map f l)).
Proof.
  intros H. apply canonical_arr. rewrite Forall_fmap. apply Forall_forall.
  intros x _. apply H.
Qed.

Lemma canonical_or_null (o : option string) : canonical (or_null o).
Proof. by destruct o. Qed.

Lemma sigValue_canonical (e : string * string) : canonical (sigValue e).
Proof.
  apply canonical_obj. (split; [| split]); try (repeat constructor; discriminate);
    repeat constructor.
Qed.

Lemma seedsValue_canonical (s : Seeds) : canonical (seedsValue s).
Proof.
  induction s as [p|pre|nb inner IH|]; apply canonical_obj; (split; [| split]);
    try (repeat constructor; discriminate); repeat constructor.
  - apply canonical_strings.
  - apply canonical_map, sigValue_canonical.
  - apply canonical_or_null.
  - exact IH.
Qed.

Lemma spendValue_canonical (s : Spend) : canonical (spendValue s).
Proof.
  apply canonical_obj. split; [| split]; try (repeat constructor; discriminate).
  repeat constructor. apply seedsValue_canonical.
Qed.

Lemma outputValue_canonical (o : Output) : canonical (outputValue o).
Proof.
  apply canonical_obj. split; [| split]; try (repeat constructor; discriminate).
  repeat constructor. apply canonical_or_null.
Qed.

Lemma canonicalizeSeeds_value (s : Seeds) : canonicalizeSeeds s = seedsValue s.
Proof.
  induction s as [p|pre|nb inner IH|]; try reflexivity.
  - simpl canonicalizeSeeds. unfold deepCanonicalize, sigEntries. fold sigValue.
    change (canon (VObj [("kind", VStr "%pkh"); ("threshold", VNum (threshold p));
                         ("pkhs", VArr (map VStr (sort_strings (pkhs p))));
                         ("sigEntries",
                           VArr (map sigValue (sort_by fst (map_to_list (signatures p)))))]))
      with (VObj [("kind", VStr "%pkh");
                  ("pkhs", canon (VArr (map VStr (sort_strings (pkhs p)))));
                  ("sigEntries",
                    canon (VArr (map sigValue (sort_by fst (map_to_list (signatures p))))));
                  ("threshold", VNum (threshold p))]).
    rewrite (canon_fixed _ (canonical_strings _)).
    by rewrite (canon_fixed _ (canonical_map sigValue _ sigValue_canonical)).
  - by destruct pre.
  - simpl canonicalizeSeeds. rewrite IH. unfold deepCanonicalize.
    change (canon (VObj [("kind", VStr "%tim"); ("notBefore", VNum nb);
                         ("inner", seedsValue inner)]))
      with (VObj [("inner", canon (seedsValue inner)); ("kind", VStr "%tim");
                  ("notBefore", VNum nb)]).
    by rewrite (canon_fixed _ (seedsValue_canonical inner)).
Qed.

Lemma payload_value (u : UnsignedTx) :
  encodeUnsignedPayload u = utf8ToBytes (canonicalStringify (payloadValue u)).
Proof.
  unfold encodeUnsignedPayload. f_equal. f_equal.
  assert (map (fun s => VObj [("noteId", VStr (noteId s)); ("seeds", canonicalizeSeeds (seeds s))])
              (sort_by noteId (u_spends u))
          = map spendValue (sort_by noteId (u_spends u))) as ->.
  { apply map_ext. intros s. unfold spendValue. by rewrite canonicalizeSeeds_value. }
  fold outputValue. change (fun o => outputValue o) with outputValue.
  unfold deepCanonicalize.
  set (outs := VArr (map outputValue (sort_by output_sort_key (u_outputs u)))).
  set (sps := VArr (map spendValue (sort_by noteId (u_spends u)))).
  assert (canon (or_null (u_network u)) = or_null (u_network u)) as Hn
    by (by destruct (u_network u)).
  change (canon (VObj [("version", VNum (u_version u)); ("network", or_null (u_network u));
                       ("fee", VBig (u_fee u)); ("spends", sps); ("outputs", outs)]))
    with (VObj [("fee", VBig (u_fee u)); ("network", canon (or_null (u_network u)));
                ("outputs", canon outs); ("spends", canon sps);
                ("version", VNum (u_version u))]).
  rewrite Hn. subst outs sps.
  rewrite (canon_fixed _ (canonical_map outputValue _ outputValue_canonical)).
  by rewrite (canon_fixed _ (canonical_map spendValue _ spendValue_canonical)).
Qed.

(** *** Reading the values back *)

Lemma jsonify_obj (props : list (string * jsval)) :
  Forall (fun kv => snd kv ≠ VUndef) props →
  jsonify (VObj props) = VObj (map (fun kv => (fst kv, jsonify (snd kv))) props)
  ∧ defined_keys props = map fst props.
Proof.
  intros H. simpl. unfold defined_keys.
  induction H as [|[k x] l Hx Hl [IH1 IH2]]; [by split |].
  simpl in Hx. injection IH1 as IH1. split.
  - f_equal. rewrite omap_cons_eq. simpl. destruct x; try congruence; by rewrite IH1.
  - rewrite omap_cons_eq. simpl. destruct x; try congruence; by rewrite IH2.
Qed.

Lemma distinct_obj (props : list (string * jsval)) :
  Forall (fun kv => snd kv ≠ VUndef) props →
  NoDup (map fst props) → Forall (fun kv => distinct_keys (snd kv)) props →
  distinct_keys (VObj props).
Proof.
  intros Hd Hn Hc. simpl. destruct (jsonify_obj props Hd) as [_ ->].
  split; [assumption |]. by apply (conj_Forall (fun kv => distinct_keys (snd kv))).
Qed.

Lemma distinct_arr {A} (f : A → jsval) (l : list A) :
  (∀ x, distinct_keys (f x)) → distinct_keys (VArr (map f l)).
Proof.
  intros H. simpl. apply (conj_Forall distinct_keys). rewrite Forall_fmap.
  apply Forall_forall. intros x _. apply H.
Qed.

Lemma or_null_defined (o : option string) : or_null o ≠ VUndef.
Proof. by destruct o. Qed.

Lemma seedsValue_defined (s : Seeds) : seedsValue s ≠ VUndef.
Proof. by destruct s. Qed.

Ltac literal_keys := apply (bool_decide_unpack (NoDup _)); vm_compute; exact I.

Ltac all_defined :=
  repeat constructor; simpl;
  try discriminate; try apply or_null_defined; try apply seedsValue_defined.

Lemma sigValue_distinct (e : string * string) : distinct_keys (sigValue e).
Proof. apply distinct_obj; [all_defined | literal_keys | repeat constructor]. Qed.

Lemma seedsValue_distinct (s : Seeds) : distinct_keys (seedsValue s).
Proof.
  induction s as [p|pre|nb inner IH|]; (apply distinct_obj; [all_defined | literal_keys |]).
  - repeat constructor; simpl.
    + apply (distinct_arr VStr). by intros x.
    + apply distinct_arr, sigValue_distinct.
  - repeat constructor. simpl. by destruct pre.
  - repeat constructor. exact IH.
  - repeat constructor.
Qed.

Lemma spendValue_distinct (s : Spend) : distinct_keys (spendValue s).
Proof.
  apply distinct_obj; [all_defined | literal_keys |].
  repeat constructor. apply seedsValue_distinct.
Qed.

Lemma outputValue_distinct (o : Output) : distinct_keys (outputValue o).
Proof.
  apply distinct_obj; [all_defined | literal_keys |].
  repeat constructor. simpl. by destruct (assetId o).
Qed.

Lemma payloadValue_distinct (u : UnsignedTx) : distinct_keys (payloadValue u).
Proof.
  apply distinct_obj; [all_defined | literal_keys |].
  repeat constructor; simpl.
  - by destruct (u_network u).
  - apply distinct_arr, outputValue_distinct.
  - apply distinct_arr, spendValue_distinct.
Qed.

(** Two payloads that agree once their outputs and spends are put in
    the encoder's order, the pkhs of each spend up to order. *)
Definition SamePayload (u1 u2 : UnsignedTx) : Prop :=
  u_version u1 = u_version u2 ∧ u_network u1 = u_network u2 ∧ u_fee u1 = u_fee u2
  ∧ sort_by output_sort_key (u_outputs u1) = sort_by output_sort_key (u_outputs u2)
  ∧ Forall2 SameSpend (sort_by noteId (u_spends u1)) (sort_by noteId (u_spends u2)).

Ltac read_obj H :=
  repeat match type of H with
         | context [jsonify (VObj ?props)] =>
             let E := fresh "E" in
             pose proof (proj1 (jsonify_obj props ltac:(all_defined))) as E;
             cbn [map fst snd] in E; rewrite E in H; clear E
         end;
  cbn [jsonify] in H.

Lemma jsonify_map_inj {A} (f : A → jsval) (R : A → A → Prop) :
  (∀ x y, jsonify (f x) = jsonify (f y) → R x y) →
  ∀ l1 l2, map jsonify (map f l1) = map jsonify (map f l2) → Forall2 R l1 l2.
Proof.
  intros Hf. induction l1 as [|x l1 IH]; intros [|y l2] H; simpl in H; try discriminate.
  - constructor.
  - injection H as H1 H2. constructor; [by apply Hf | by apply IH].
Qed.

Lemma jsonify_map_eq {A} (f : A → jsval) :
  (∀ x y, jsonify (f x) = jsonify (f y) → x = y) →
  ∀ l1 l2, map jsonify (map f l1) = map jsonify (map f l2) → l1 = l2.
Proof.
  intros Hf l1 l2 H. apply list_eq_Forall2. by apply (jsonify_map_inj f eq Hf).
Qed.

Lemma dec_inj (a b : Z) : dec a = dec b → a = b.
Proof.
  intros H. pose proof (BigInt_dec a) as Ha. rewrite H, BigInt_dec in Ha. congruence.
Qed.

Lemma tagged_inj (a b : Z) : "n:" +:+ dec a = "n:" +:+ dec b → a = b.
Proof.
  intros H.
  change ("n:" +:+ dec a) with (String "n" (String ":" (dec a))) in H.
  change ("n:" +:+ dec b) with (String "n" (String ":" (dec b))) in H.
  injection H as H. by apply dec_inj.
Qed.

Lemma or_null_inj (a b : option string) : jsonify (or_null a) = jsonify (or_null b) → a = b.
Proof. destruct a, b; simpl; congruence. Qed.

Lemma sigValue_inj (e1 e2 : string * string) :
  jsonify (sigValue e1) = jsonify (sigValue e2) → e1 = e2.
Proof.
  destruct e1, e2. unfold sigValue. intros H. read_obj H. simpl in H. congruence.
Qed.

Lemma seedsValue_inj (s1 s2 : Seeds) :
  jsonify (seedsValue s1) = jsonify (seedsValue s2) → SameSeeds s1 s2.
Proof.
  revert s2.
  induction s1 as [[t1 ps1 m1]|pre1|nb1 inner1 IH|]; intros [[t2 ps2 m2]|pre2|nb2 inner2|] H;
    cbn [seedsValue] in H; read_obj H; try discriminate.
  - cbn [pkhs threshold signatures] in H. injection H as H1 H2 H3.
    apply (jsonify_map_eq VStr) in H1; [| intros x y E; by injection E].
    apply (jsonify_map_eq sigValue sigValue_inj) in H2.
    assert (m1 = m2) as ->.
    { apply map_to_list_inj.
      by rewrite <- (sort_by_perm fst (map_to_list m1)), H2, sort_by_perm. }
    subst t2. constructor. by apply ProgressSpec.sorted_pkhs_perm.
  - injection H as H. apply or_null_inj in H. subst. constructor.
  - injection H as H1 H2. subst. constructor. by apply IH.
  - constructor.
Qed.

Lemma seedsValue_same (s1 s2 : Seeds) : SameSeeds s1 s2 → seedsValue s1 = seedsValue s2.
Proof.
  induction 1 as [t ps1 ps2 sigs Hp| |nb s1 s2 _ IH|]; try reflexivity.
  - cbn [seedsValue pkhs threshold signatures]. by rewrite (sort_strings_perm _ _ Hp).
  - cbn [seedsValue]. by rewrite IH.
Qed.

Lemma spendValue_inj (s1 s2 : Spend) :
  jsonify (spendValue s1) = jsonify (spendValue s2) → SameSpend s1 s2.
Proof.
  unfold spendValue. intros H. read_obj H. injection H as H1 H2.
  split; [assumption | by apply seedsValue_inj].
Qed.

Lemma spendValue_same (l1 l2 : list Spend) :
  Forall2 SameSpend l1 l2 → map spendValue l1 = map spendValue l2.
Proof.
  induction 1 as [|s1 s2 l1 l2 [Hn Hs] _ IH]; [reflexivity |].
  simpl. unfold spendValue at 1 3. by rewrite Hn, (seedsValue_same _ _ Hs), IH.
Qed.

Lemma outputValue_inj (o1 o2 : Output) :
  jsonify (outputValue o1) = jsonify (outputValue o2) → o1 = o2.
Proof.
  destruct o1 as [a1 m1 i1], o2 as [a2 m2 i2]. unfold outputValue. intros H.
  cbn [address amount assetId] in H. read_obj H.
  remember ("n:" +:+ dec m1) as x1 eqn:E1. remember ("n:" +:+ dec m2) as x2 eqn:E2.
  injection H as H1 H2 H3. subst x1 x2.
  apply tagged_inj in H2. apply or_null_inj in H3. by subst.
Qed.

(** X24: the bytes everyone signs tell transactions apart: two
    unsigned transactions have the same payload bytes exactly when
    they have the same version, network and fee, the same outputs once
    sorted, and, once sorted by note id, spends with the same note ids
    and the same seeds (threshold, signatures so far, preimage, time
    lock) up to the order of the pkhs. *)
Theorem encodeUnsignedPayload_injective (u1 u2 : UnsignedTx) :
  encodeUnsignedPayload u1 = encodeUnsignedPayload u2 ↔ SamePayload u1 u2.
Proof.
  rewrite !payload_value. split.
  - intros H. apply utf8ToBytes_inj in H.
    pose proof (JSON_parse_stringify _ (payloadValue_distinct u1)) as P1.
    rewrite H, (JSON_parse_stringify _ (payloadValue_distinct u2)) in P1.
    assert (jsonify (payloadValue u1) = jsonify (payloadValue u2)) as P by congruence.
    clear P1 H. unfold payloadValue in P. read_obj P.
    remember ("n:" +:+ dec (u_fee u1)) as x1 eqn:E1.
    remember ("n:" +:+ dec (u_fee u2)) as x2 eqn:E2.
    injection P as Hf Hn Ho Hs Hv. subst x1 x2.
    apply tagged_inj in Hf. apply or_null_inj in Hn.
    apply (jsonify_map_eq outputValue outputValue_inj) in Ho.
    apply (jsonify_map_inj spendValue SameSpend spendValue_inj) in Hs.
    by repeat split.
  - intros (Hv & Hn & Hf & Ho & Hs). unfold payloadValue.
    by rewrite Hv, Hn, Hf, Ho, (spendValue_same _ _ Hs).
Qed.

End CommitSpec.
